(** * kitpvpbot: the per-bot combat controller of src/index.js

    A shallow embedding of the combat core of [src/index.js]: target
    acquisition ([findClosestPlayer]), the engagement scheduler
    ([setupPvpLoop]), the advanced combat routines ([setupAdvancedCombat]:
    strafing, healing, gear optimisation) and the Node event loop they run
    on (one-shot timers, suspended [async] functions).

    Conventions.
    - JavaScript numbers are modelled exactly: coordinates, health, random
      draws and timer delays are rationals ([Q]), [Date.now()] is an
      integer ([Z]); [Infinity] is the second constructor of [Num].
    - [null]/[undefined] are [None]; a truthiness test on an object is a
      match on the option. They are kept apart in one place, where the
      code compares such a value with [===] ([EntityField]).
    - Objects compared with [===] carry a reference ([eref]).
    - A player object that a closure keeps and reads later lives in a
      store ([heldPlayers]); the closure holds its reference.
    - What the game client (mineflayer and its plugins) decides is an input
      of the model: the world snapshot, what it assigns to a held player
      object, whether an awaited [bot.equip] resolves or rejects, whether
      [bot.pvp.attack] throws, the value of [Math.random()].
    - The aim handler (['physicsTick'], lines 356-365) only calls
      [bot.lookAt] and touches none of the state below; it is left out,
      as is the connection set-up of [createBot].
    - The command line ([parseArgs], [parseServer]) and the unloaded-chunk
      warnings of [createBot] are modelled on their own, after the
      session. *)

From Stdlib Require Import QArith Qminmax ZArith Ascii String Lia Lqa.
From stdpp Require Import gmap strings list pretty.

Local Open Scope string_scope.

(* ===================================================================== *)
(** ** Numbers                                                            *)
(* ===================================================================== *)

(** A JavaScript number that is finite or [Infinity]. *)
Inductive Num (A : Type) : Type :=
  | Fin (a : A)
  | Infinity.
Arguments Fin {A} a.
Arguments Infinity {A}.

(** [x < y] on such numbers, given [<] on the finite ones. *)
Definition num_ltb {A : Type} (ltb : A -> A -> bool) (x y : Num A) : bool :=
  match x, y with
  | Fin a, Fin b => ltb a b
  | Fin _, Infinity => true
  | Infinity, _ => false
  end.

Definition Qlt_bool (a b : Q) : bool := negb (Qle_bool b a).

(* ===================================================================== *)
(** ** Static tables (index.js lines 8-102)                               *)
(* ===================================================================== *)

Definition MAX_SCAN_DISTANCE : Q := 48%Q.

Definition WEAPON_PRIORITY : list string :=
  [ "netherite_sword"; "diamond_sword"; "iron_sword"; "stone_sword";
    "golden_sword"; "wooden_sword"; "netherite_axe"; "diamond_axe";
    "iron_axe"; "stone_axe"; "golden_axe"; "wooden_axe" ].

Definition ARMOR_PRIORITY_head : list string :=
  [ "netherite_helmet"; "diamond_helmet"; "iron_helmet"; "chainmail_helmet";
    "golden_helmet"; "turtle_helmet"; "leather_helmet" ].

Definition ARMOR_PRIORITY_torso : list string :=
  [ "netherite_chestplate"; "diamond_chestplate"; "iron_chestplate";
    "chainmail_chestplate"; "golden_chestplate"; "leather_chestplate" ].

Definition ARMOR_PRIORITY_legs : list string :=
  [ "netherite_leggings"; "diamond_leggings"; "iron_leggings";
    "chainmail_leggings"; "golden_leggings"; "leather_leggings" ].

Definition ARMOR_PRIORITY_feet : list string :=
  [ "netherite_boots"; "diamond_boots"; "iron_boots"; "chainmail_boots";
    "golden_boots"; "leather_boots" ].

Definition SHIELD_ITEMS : list string := [ "shield" ].

Definition HEALING_SOUPS : list string :=
  [ "mushroom_stew"; "beetroot_soup"; "rabbit_stew"; "suspicious_stew" ].

Definition GOLDEN_APPLES : list string :=
  [ "enchanted_golden_apple"; "golden_apple" ].

(** [DIFFICULTY_PRESETS[k].advanced]. *)
Record Advanced : Type := mkAdvanced {
  strafeIntervalMs : Q;
  jumpPulseMs : Q;
  jumpChance : Q;
  healThreshold : Q;
  healCooldownMs : Z;
  aimHeightOffset : Q
}.

(** An entry of [DIFFICULTY_PRESETS]; [attackDurationMs: null] is [None]. *)
Record Difficulty : Type := mkDifficulty {
  name : string;
  scanIntervalMs : Q;
  reactionDelayRange : Q * Q;
  attackDurationMs : option Q;
  maintainSprint : bool;
  advanced : option Advanced
}.

Definition easy : Difficulty :=
  mkDifficulty "easy" 3500 (900%Q, 2200%Q) (Some 4500%Q) false None.

Definition hard : Difficulty :=
  mkDifficulty "hard" 900 (100%Q, 350%Q) None true None.

Definition godlike : Difficulty :=
  mkDifficulty "godlike" 450 (45%Q, 160%Q) None true
    (Some (mkAdvanced 650 220 (35 # 100) 14 5500 (13 # 10))).

(* ===================================================================== *)
(** ** The game client's view of the world                                *)
(* ===================================================================== *)

Record Vec3 : Type := mkVec3 { vx : Q; vy : Q; vz : Q }.

(** [Vec3.prototype.distanceSquared] of the vec3 package: the squared
    Euclidean distance over all three axes. *)
Definition distanceSquared (a b : Vec3) : Q :=
  let dx := (vx b - vx a)%Q in
  let dy := (vy b - vy a)%Q in
  let dz := (vz b - vz a)%Q in
  (dx * dx + dy * dy + dz * dz)%Q.

(** An entity object; [eref] is its identity for [===]. *)
Record Entity : Type := mkEntity { eref : nat; position : Vec3 }.

(** [a === b] on two values that are an entity or [undefined]. *)
Definition same_entity (a b : option Entity) : bool :=
  match a, b with
  | Some e1, Some e2 => Nat.eqb (eref e1) (eref e2)
  | None, None => true
  | _, _ => false
  end.

(** A value of [bot.players]. *)
Record Player : Type := mkPlayer { player_entity : option Entity }.

Record Item : Type := mkItem { item_name : string; item_slot : nat }.

(** [bot.inventory]: the slot array and what [items()] enumerates. *)
Record Inventory : Type := mkInventory {
  slots : list (option Item);
  items : list Item
}.

Inductive Destination : Type :=
  | hand | off_hand | dest_head | torso | legs | feet.

(** The [bot] object as the controller reads and writes it. [players] is
    in the enumeration order of [Object.entries]; [controlState] is what
    [setControlState] writes; [pvp_target] is [bot.pvp.target]. *)
Record Bot : Type := mkBot {
  username : string;
  bot_entity : option Entity;
  players : option (list (string * option Player));
  health : Q;
  inventory : option Inventory;
  getEquipmentDestSlot : option (Destination -> option nat);
  pvp_target : option Entity;
  controlState : gmap string bool
}.

Definition setControlState (key : string) (v : bool) (b : Bot) : Bot :=
  mkBot (username b) (bot_entity b) (players b) (health b) (inventory b)
        (getEquipmentDestSlot b) (pvp_target b) (<[key := v]> (controlState b)).

Definition set_pvp_target (t : option Entity) (b : Bot) : Bot :=
  mkBot (username b) (bot_entity b) (players b) (health b) (inventory b)
        (getEquipmentDestSlot b) t (controlState b).

(** [bot.pvp.stop()] clears the plugin's target. *)
Definition pvp_stop (b : Bot) : Bot := set_pvp_target None b.

(** [bot.players[username]]. *)
Fixpoint lookup_player (ps : list (string * option Player)) (u : string)
  : option Player :=
  match ps with
  | [] => None
  | (k, p) :: rest => if String.eqb k u then p else lookup_player rest u
  end.

(* ===================================================================== *)
(** ** findClosestPlayer (index.js lines 500-521)                         *)
(* ===================================================================== *)

(** The object literal [{ username, entity: player.entity }]. *)
Record Candidate : Type := mkCandidate {
  cand_username : string;
  cand_entity : Entity
}.

(** One iteration of the [for ... of Object.entries(bot.players)] loop;
    the accumulator is [(closest, closestDistance)]. *)
Definition closest_step (b : Bot) (me : Entity) (maxDistanceSq : Q)
    (acc : option Candidate * Num Q) (entry : string * option Player)
  : option Candidate * Num Q :=
  let '(u, player) := entry in
  match player with
  | None => acc
  | Some p =>
    if String.eqb u (username b) then acc
    else match player_entity p with
    | None => acc
    | Some e =>
      let distanceSq := distanceSquared (position me) (position e) in
      if num_ltb Qlt_bool (Fin distanceSq) (snd acc)
         && Qle_bool distanceSq maxDistanceSq
      then (Some (mkCandidate u e), Fin distanceSq)
      else acc
    end
  end.

Definition findClosestPlayer (b : Bot) (maxDistanceSq : Q) : option Candidate :=
  match players b, bot_entity b with
  | Some ps, Some me =>
      fst (fold_left (closest_step b me maxDistanceSq) ps (None, Infinity))
  | _, _ => None
  end.

(** A player entry the loop does not skip: another player with an entity. *)
Definition other_player (b : Bot) (ps : list (string * option Player))
    (u : string) (e : Entity) : Prop :=
  exists p, In (u, Some p) ps /\ u <> username b /\ player_entity p = Some e.

(* ===================================================================== *)
(** ** Gear selection (index.js lines 532-595)                            *)
(* ===================================================================== *)

(** [priorityList.indexOf(name)]; [None] is [-1]. *)
Fixpoint indexOf (l : list string) (s : string) : option nat :=
  match l with
  | [] => None
  | h :: t => if String.eqb h s then Some 0%nat else S <$> indexOf t s
  end.

Definition getItemPriority (priorityList : list string) (item : option Item)
  : Num nat :=
  match item with
  | None => Infinity
  | Some it =>
    match indexOf priorityList (item_name it) with
    | None => Infinity
    | Some index => Fin index
    end
  end.

(** One iteration of the loop of [findBestInventoryItem]; the accumulator
    is [(bestItem, bestPriority)]. *)
Definition best_step (priorityList : list string)
    (acc : option Item * Num nat) (item : Item) : option Item * Num nat :=
  let priority := getItemPriority priorityList (Some item) in
  if num_ltb Nat.ltb priority (snd acc) then (Some item, priority) else acc.

Definition findBestInventoryItem (b : Bot) (priorityList : list string)
  : option Item :=
  match inventory b with
  | None => None
  | Some inv => fst (fold_left (best_step priorityList) (items inv) (None, Infinity))
  end.

Definition getEquippedItem (b : Bot) (destination : Destination) : option Item :=
  match getEquipmentDestSlot b, inventory b with
  | Some destSlot, Some inv =>
    match destSlot destination with
    | None => None
    | Some slot => mjoin (slots inv !! slot)
    end
  | _, _ => None
  end.

(** [equipBestItemForSlot] up to its [await]: [Some best] when
    [bot.equip(best, destination)] is called, [None] when the function
    returns without calling it. *)
Definition equipBestItemForSlot (b : Bot) (priorityList : list string)
    (destination : Destination) : option Item :=
  match priorityList with
  | [] => None
  | _ =>
    match findBestInventoryItem b priorityList with
    | None => None
    | Some best =>
      let equipped := getEquippedItem b destination in
      let equippedPriority := getItemPriority priorityList equipped in
      let candidatePriority := getItemPriority priorityList (Some best) in
      if num_ltb Nat.ltb candidatePriority equippedPriority
      then Some best else None
    end
  end.

(** How an awaited promise of the game client settles. *)
Inductive Outcome : Type :=
  | Resolved
  | Rejected (message : string).

(** ASCII case folding, as the [i] flag of a non-unicode RegExp does on
    the characters of the pattern below. *)
Definition lower_ascii (c : ascii) : ascii :=
  let n := nat_of_ascii c in
  if (65 <=? n)%nat && (n <=? 90)%nat then ascii_of_nat (n + 32) else c.

Fixpoint lower (s : string) : string :=
  match s with
  | EmptyString => EmptyString
  | String c r => String (lower_ascii c) (lower r)
  end.

Fixpoint contains (pat s : string) : bool :=
  String.prefix pat s ||
  match s with
  | EmptyString => false
  | String _ r => contains pat r
  end.

(** [/item is not in inventory/i.test(message)]. *)
Definition not_in_inventory_test (message : string) : bool :=
  contains "item is not in inventory" (lower message).

(** [equipBestItemForSlot] after its [await]: [Some message] when the
    error is rethrown, [None] when the function returns normally. *)
Definition equipBestItemForSlot_settle (o : Outcome) : option string :=
  match o with
  | Resolved => None
  | Rejected message =>
    if not_in_inventory_test message then None else Some message
  end.

(** The six calls of [equipBestGear], in order. *)
Definition GEAR_SLOTS : list (list string * Destination) :=
  [ (WEAPON_PRIORITY, hand); (SHIELD_ITEMS, off_hand);
    (ARMOR_PRIORITY_head, dest_head); (ARMOR_PRIORITY_torso, torso);
    (ARMOR_PRIORITY_legs, legs); (ARMOR_PRIORITY_feet, feet) ].

(** Where a gear pass stands: finished, or suspended in
    [await bot.equip(best, destination)] with the calls still to make. *)
Inductive PassStatus : Type :=
  | PassDone
  | PassAwait (best : Item) (destination : Destination)
              (rest : list (list string * Destination)).

(** [equipBestGear] from a given call on, up to the next [bot.equip]. *)
Fixpoint equipBestGear (b : Bot) (calls : list (list string * Destination))
  : PassStatus :=
  match calls with
  | [] => PassDone
  | (priorityList, destination) :: rest =>
    match equipBestItemForSlot b priorityList destination with
    | None => equipBestGear b rest
    | Some best => PassAwait best destination rest
    end
  end.

(* ===================================================================== *)
(** ** Healing guard (index.js lines 597-616, 642-655)                    *)
(* ===================================================================== *)

Record HealState : Type := mkHealState { inProgress : bool; lastHeal : Z }.

Definition findItemByNames (b : Bot) (names : list string) : option Item :=
  match inventory b with
  | None => None
  | Some inv =>
    (fix go (ns : list string) : option Item :=
       match ns with
       | [] => None
       | n :: r =>
         match List.find (fun item => String.eqb (item_name item) n) (items inv) with
         | Some m => Some m
         | None => go r
         end
       end) names
  end.

(** [attemptHeal] up to [state.inProgress = true]: either it returns
    [null], or it goes on with the chosen [soup] / [goldenApple]. *)
Inductive HealStart : Type :=
  | HealNull
  | HealGo (soup goldenApple : option Item).

Definition attemptHeal_guard (b : Bot) (adv : Advanced) (state : HealState)
    (now : Z) : HealStart :=
  match bot_entity b with
  | None => HealNull
  | Some _ =>
    if Qle_bool (health b) 0 then HealNull
    else if Qle_bool (healThreshold adv) (health b) then HealNull
    else if inProgress state || (now - lastHeal state <? healCooldownMs adv)%Z
    then HealNull
    else
      let soup := findItemByNames b HEALING_SOUPS in
      let goldenApple :=
        match soup with Some _ => None | None => findItemByNames b GOLDEN_APPLES end in
      match soup, goldenApple with
      | None, None => HealNull
      | _, _ => HealGo soup goldenApple
      end
  end.

(* ===================================================================== *)
(** ** The session: closures, timers and suspended async functions        *)
(* ===================================================================== *)

(** The [entity] field of a player object that a closure holds. Here
    [null] and [undefined] are kept apart: the field is compared with
    [===] against [bot.pvp.target], which without a target is
    [undefined] (what the plugin's [stop] assigns), and
    [undefined === null] is false. *)
Inductive EntityField : Type :=
  | FieldUndefined
  | FieldNull
  | FieldEntity (e : Entity).

(** [bot.pvp.target === refreshed.entity]. *)
Definition target_is (target : option Entity) (field : EntityField) : bool :=
  match target, field with
  | Some t, FieldEntity e => Nat.eqb (eref t) (eref e)
  | None, FieldUndefined => true
  | _, _ => false
  end.

(** The function a one-shot timer runs, with what its closure captured.
    The disengage closure captures [refreshed], the player object itself
    (line 456), not the entity it held when the timer was set:
    [refreshed] is a reference into [heldPlayers] below. *)
Inductive Callback : Type :=
  | CbAttack (target : Candidate)      (* setupPvpLoop, lines 451-488 *)
  | CbDisengage (refreshed : nat)      (* lines 479-486 *)
  | CbEquipPass                        (* scheduleEquip, lines 324-331 *)
  | CbScheduleEquip                    (* setTimeout(scheduleEquip, ...) *)
  | CbJumpRelease                      (* line 350 *)
  | CbDeactivateItem                   (* lines 624, 631 *)
  | CbResetInProgress.                 (* lines 636-638 *)

Record Timer : Type := mkTimer { callback : Callback; delay : Q }.

(** An [async] function suspended in [await bot.equip(...)]. *)
Inductive Task : Type :=
  | HealTask (soup goldenApple : option Item) (now : Z)
  | GearTask (rest : list (list string * Destination)).

(** Calls on the game client that leave no trace in [Bot]. *)
Inductive Effect : Type :=
  | Equip (item : Item) (destination : Destination)
  | ActivateItem
  | DeactivateItem
  | Attack (e : Entity).

(** The controller's state. [heldPlayers] is the store of the player
    objects that disengage closures hold, addressed by position; of such
    an object only the [entity] field is ever read (line 480). The game
    client owns these objects and assigns their [entity] field whenever
    the player's entity appears, is replaced or goes away
    ([EvPlayerEntity] below); [players (bot s)] is what the same client
    shows under [bot.players] when the controller looks. The model does
    not tie the two together, so it admits every interleaving of client
    writes that the code can meet. *)
Record Session : Type := mkSession {
  bot : Bot;
  (* setupPvpLoop *)
  scheduledAttackTimeout : option nat;
  scanInterval : bool;
  (* setupAdvancedCombat *)
  strafeDirection : Z;
  strafeInterval : bool;
  healState : HealState;
  equipScheduled : bool;
  listening : bool;
  inventoryListening : bool;
  (* event loop *)
  timers : gmap nat Timer;
  nextTimer : nat;
  tasks : gmap nat Task;
  nextTask : nat;
  ended : bool;
  (* observable output *)
  effects : list Effect;
  log : list string;
  (* the player objects that pending disengage closures hold *)
  heldPlayers : list EntityField
}.

Definition set_bot (v : Bot) (s : Session) : Session :=
  mkSession v (scheduledAttackTimeout s) (scanInterval s) (strafeDirection s)
    (strafeInterval s) (healState s) (equipScheduled s) (listening s)
    (inventoryListening s) (timers s) (nextTimer s) (tasks s) (nextTask s)
    (ended s) (effects s) (log s) (heldPlayers s).

Definition set_scheduledAttackTimeout (v : option nat) (s : Session) : Session :=
  mkSession (bot s) v (scanInterval s) (strafeDirection s)
    (strafeInterval s) (healState s) (equipScheduled s) (listening s)
    (inventoryListening s) (timers s) (nextTimer s) (tasks s) (nextTask s)
    (ended s) (effects s) (log s) (heldPlayers s).

Definition set_strafeDirection (v : Z) (s : Session) : Session :=
  mkSession (bot s) (scheduledAttackTimeout s) (scanInterval s) v
    (strafeInterval s) (healState s) (equipScheduled s) (listening s)
    (inventoryListening s) (timers s) (nextTimer s) (tasks s) (nextTask s)
    (ended s) (effects s) (log s) (heldPlayers s).

Definition set_healState (v : HealState) (s : Session) : Session :=
  mkSession (bot s) (scheduledAttackTimeout s) (scanInterval s) (strafeDirection s)
    (strafeInterval s) v (equipScheduled s) (listening s)
    (inventoryListening s) (timers s) (nextTimer s) (tasks s) (nextTask s)
    (ended s) (effects s) (log s) (heldPlayers s).

Definition set_equipScheduled (v : bool) (s : Session) : Session :=
  mkSession (bot s) (scheduledAttackTimeout s) (scanInterval s) (strafeDirection s)
    (strafeInterval s) (healState s) v (listening s)
    (inventoryListening s) (timers s) (nextTimer s) (tasks s) (nextTask s)
    (ended s) (effects s) (log s) (heldPlayers s).

Definition set_timers (v : gmap nat Timer) (n : nat) (s : Session) : Session :=
  mkSession (bot s) (scheduledAttackTimeout s) (scanInterval s) (strafeDirection s)
    (strafeInterval s) (healState s) (equipScheduled s) (listening s)
    (inventoryListening s) v n (tasks s) (nextTask s)
    (ended s) (effects s) (log s) (heldPlayers s).

Definition set_tasks (v : gmap nat Task) (n : nat) (s : Session) : Session :=
  mkSession (bot s) (scheduledAttackTimeout s) (scanInterval s) (strafeDirection s)
    (strafeInterval s) (healState s) (equipScheduled s) (listening s)
    (inventoryListening s) (timers s) (nextTimer s) v n
    (ended s) (effects s) (log s) (heldPlayers s).

Definition set_heldPlayers (v : list EntityField) (s : Session) : Session :=
  mkSession (bot s) (scheduledAttackTimeout s) (scanInterval s) (strafeDirection s)
    (strafeInterval s) (healState s) (equipScheduled s) (listening s)
    (inventoryListening s) (timers s) (nextTimer s) (tasks s) (nextTask s)
    (ended s) (effects s) (log s) v.

Definition add_effect (e : Effect) (s : Session) : Session :=
  mkSession (bot s) (scheduledAttackTimeout s) (scanInterval s) (strafeDirection s)
    (strafeInterval s) (healState s) (equipScheduled s) (listening s)
    (inventoryListening s) (timers s) (nextTimer s) (tasks s) (nextTask s)
    (ended s) (effects s ++ [e]) (log s) (heldPlayers s).

(** [log(bot, message)]. *)
Definition add_log (message : string) (s : Session) : Session :=
  mkSession (bot s) (scheduledAttackTimeout s) (scanInterval s) (strafeDirection s)
    (strafeInterval s) (healState s) (equipScheduled s) (listening s)
    (inventoryListening s) (timers s) (nextTimer s) (tasks s) (nextTask s)
    (ended s) (effects s)
    (log s ++ ["[" +:+ username (bot s) +:+ "] " +:+ message]) (heldPlayers s).

(** The teardown of both [bot.once('end', ...)] handlers: intervals cleared
    and listeners removed. *)
Definition set_torn_down (inv_listening : bool) (s : Session) : Session :=
  mkSession (bot s) (scheduledAttackTimeout s) false (strafeDirection s)
    false (healState s) (equipScheduled s) false
    inv_listening (timers s) (nextTimer s) (tasks s) (nextTask s)
    true (effects s) (log s) (heldPlayers s).

(** [setTimeout(cb, d)]; the timer's id is the old [nextTimer]. *)
Definition setTimeout (cb : Callback) (d : Q) (s : Session) : Session :=
  set_timers (<[nextTimer s := mkTimer cb d]> (timers s)) (S (nextTimer s)) s.

(** [clearTimeout(tid)]: nothing happens when [tid] is not pending. *)
Definition clearTimeout (tid : nat) (s : Session) : Session :=
  set_timers (delete tid (timers s)) (nextTimer s) s.

(** Suspend the running async function in an [await]. *)
Definition suspend (t : Task) (s : Session) : Session :=
  set_tasks (<[nextTask s := t]> (tasks s)) (S (nextTask s)) s.

Definition control (key : string) (v : bool) (s : Session) : Session :=
  set_bot (setControlState key v (bot s)) s.

(** A closure takes hold of a player object whose [entity] field is
    [field] at that moment; the object's reference is the old length of
    the store. *)
Definition hold (field : EntityField) (s : Session) : Session :=
  set_heldPlayers (heldPlayers s ++ [field]) s.

(** The game client assigns the [entity] field of the held player object
    [r]; there is nothing to record for an object that no closure holds. *)
Definition assign_entity (r : nat) (field : EntityField) (s : Session) : Session :=
  set_heldPlayers (<[r := field]> (heldPlayers s)) s.

(* --------------------------------------------------------------------- *)
(** *** setupPvpLoop (index.js lines 423-498)                             *)
(* --------------------------------------------------------------------- *)

(** [randomBetween(min, max)] with [rnd] the value of [Math.random()]. *)
Definition randomBetween (rnd min max : Q) : Q :=
  let lower := Qmin min max in
  let upper := Qmax min max in
  (lower + rnd * (upper - lower))%Q.

Definition scanRadiusSq : Q := (MAX_SCAN_DISTANCE * MAX_SCAN_DISTANCE)%Q.

(** The [scan] closure. *)
Definition scan (d : Difficulty) (rnd : Q) (s : Session) : Session :=
  match bot_entity (bot s) with
  | None => s
  | Some _ =>
    match findClosestPlayer (bot s) scanRadiusSq with
    | None =>
      let s1 := if maintainSprint d then control "sprint" false s else s in
      match pvp_target (bot s1) with
      | Some _ => set_bot (pvp_stop (bot s1)) s1
      | None => s1
      end
    | Some target =>
      let delay :=
        randomBetween rnd (fst (reactionDelayRange d)) (snd (reactionDelayRange d)) in
      let s1 :=
        match scheduledAttackTimeout s with
        | Some tid => clearTimeout tid s
        | None => s
        end in
      set_scheduledAttackTimeout (Some (nextTimer s1))
        (setTimeout (CbAttack target) delay s1)
    end
  end.

(** The scheduled attack (lines 451-488). [attackThrows] is the error
    message when [bot.pvp.attack] throws. A missing [bot.players] makes the
    property access throw before anything is changed. [refreshed] below is
    [refreshed.entity] as lines 457-471 read it, all in one turn of the
    event loop; the disengage closure keeps the player object, which holds
    that entity when the timer is set. *)
Definition scheduledAttack (d : Difficulty) (target : Candidate)
    (attackThrows : option string) (s : Session) : Session :=
  match bot_entity (bot s), players (bot s) with
  | Some _, Some ps =>
    match lookup_player ps (cand_username target) ≫= player_entity with
    | None => s
    | Some refreshed =>
      let s1 := if maintainSprint d then control "sprint" true s else s in
      let s2 :=
        match pvp_target (bot s1) with
        | Some t =>
          if negb (same_entity (Some t) (Some refreshed))
          then set_bot (pvp_stop (bot s1)) s1 else s1
        | None => s1
        end in
      let s3 :=
        match pvp_target (bot s2) with
        | Some _ => s2
        | None =>
          match attackThrows with
          | None =>
            add_log ("Engaging " +:+ cand_username target +:+ " (" +:+ name d +:+ ").")
              (add_effect (Attack refreshed)
                 (set_bot (set_pvp_target (Some refreshed) (bot s2)) s2))
          | Some message =>
            add_log ("Failed to attack " +:+ cand_username target +:+ ": " +:+ message) s2
          end
        end in
      match attackDurationMs d with
      | Some duration =>
        if Qeq_bool duration 0 then s3
        else
          setTimeout (CbDisengage (length (heldPlayers s3))) duration
            (hold (FieldEntity refreshed) s3)
      | None => s3
      end
    end
  | _, _ => s
  end.

(** The duration-based disengage timer (lines 479-486): [refreshed.entity]
    is read from the held player object when the timer fires. A reference
    outside the store does not arise ([scheduledAttack] stores the object
    with the timer); the first branch only makes the function total. *)
Definition disengage (d : Difficulty) (refreshed : nat) (s : Session) : Session :=
  match heldPlayers s !! refreshed with
  | None => s
  | Some field =>
    if target_is (pvp_target (bot s)) field
    then
      let s1 := set_bot (pvp_stop (bot s)) s in
      if maintainSprint d then control "sprint" false s1 else s1
    else s
  end.

(* --------------------------------------------------------------------- *)
(** *** setupAdvancedCombat (index.js lines 299-421)                      *)
(* --------------------------------------------------------------------- *)

Definition stopStrafe (s : Session) : Session :=
  control "jump" false (control "right" false (control "left" false s)).

Definition scheduleEquip (s : Session) : Session :=
  if equipScheduled s then s
  else setTimeout CbEquipPass 0 (set_equipScheduled true s).

(** Run [equipBestGear] from the given call on until it finishes or
    suspends in [bot.equip]. *)
Definition run_gear (calls : list (list string * Destination)) (s : Session)
  : Session :=
  match equipBestGear (bot s) calls with
  | PassDone => s
  | PassAwait best destination rest =>
    suspend (GearTask rest) (add_effect (Equip best destination) s)
  end.

(** The timer callback of [scheduleEquip]. *)
Definition equipPass (s : Session) : Session :=
  run_gear GEAR_SLOTS (set_equipScheduled false s).

Definition strafeTick (adv : Advanced) (rnd : Q) (s : Session) : Session :=
  match pvp_target (bot s) with
  | None => stopStrafe s
  | Some _ =>
    let s1 := set_strafeDirection (strafeDirection s * -1)%Z s in
    let moveRight := (0 <? strafeDirection s1)%Z in
    let s2 := control "left" (negb moveRight) (control "right" moveRight s1) in
    if negb (Qeq_bool (jumpChance adv) 0) && Qlt_bool rnd (jumpChance adv)
    then
      setTimeout CbJumpRelease
        (if Qeq_bool (jumpPulseMs adv) 0 then 200%Q else jumpPulseMs adv)
        (control "jump" true s2)
    else s2
  end.

(** [healListener] up to the [await] inside [attemptHeal]. *)
Definition healListener (adv : Advanced) (now : Z) (s : Session) : Session :=
  match attemptHeal_guard (bot s) adv (healState s) now with
  | HealNull => s
  | HealGo soup goldenApple =>
    let s1 := set_healState (mkHealState true (lastHeal (healState s))) s in
    let s2 :=
      match soup, goldenApple with
      | Some item, _ => add_effect (Equip item hand) s1
      | None, Some item => add_effect (Equip item hand) s1
      | None, None => s1
      end in
    suspend (HealTask soup goldenApple now) s2
  end.

(** [attemptHeal] from its [await] on, then the [.then]/[.catch] of
    [healListener]. [activateThrows] is the error message when
    [bot.activateItem()] throws. *)
Definition heal_resume (soup : option Item) (now : Z) (o : Outcome)
    (activateThrows : option string) (s : Session) : Session :=
  let isSoup := bool_decide (is_Some soup) in
  let resetDelay := if isSoup then 600%Q else 2000%Q in
  let failed (message : string) :=
    add_log ("Failed to heal: " +:+ message)
      (setTimeout CbResetInProgress resetDelay s) in
  match o with
  | Rejected message => failed message
  | Resolved =>
    match activateThrows with
    | Some message => failed message
    | None =>
      let s1 := add_effect ActivateItem s in
      let s2 := setTimeout CbDeactivateItem (if isSoup then 150%Q else 1600%Q) s1 in
      let s3 := set_healState (mkHealState (inProgress (healState s2)) now) s2 in
      let s4 := setTimeout CbResetInProgress resetDelay s3 in
      setTimeout CbScheduleEquip (if isSoup then 450%Q else 1900%Q) s4
    end
  end.

(** A gear pass from its [await] on; an error that [equipBestItemForSlot]
    rethrows reaches the [catch] of the [scheduleEquip] callback. *)
Definition gear_resume (rest : list (list string * Destination)) (o : Outcome)
    (s : Session) : Session :=
  match equipBestItemForSlot_settle o with
  | Some message => add_log ("Failed to optimise gear: " +:+ message) s
  | None => run_gear rest s
  end.

(* --------------------------------------------------------------------- *)
(** *** Events                                                            *)
(* --------------------------------------------------------------------- *)

Inductive Event : Type :=
  | EvWorld (b : Bot)                       (* the client updates the bot object *)
  | EvScan (rnd : Q)                        (* the scan interval elapses *)
  | EvStrafeTick (rnd : Q)                  (* the strafe interval elapses *)
  | EvHealth (now : Z)                      (* 'health' *)
  | EvUpdateSlot                            (* inventory 'updateSlot' *)
  | EvPlayerCollect (collector : option Entity)
  | EvDeath
  | EvRespawn
  | EvTimer (tid : nat) (attackThrows : option string)
  | EvSettle (k : nat) (o : Outcome) (activateThrows : option string)
  | EvEnd
  | EvPlayerEntity (r : nat) (field : EntityField).
      (* the client assigns [entity] on the held player object [r] *)

Definition fire (d : Difficulty) (tid : nat) (attackThrows : option string)
    (s : Session) : Session :=
  match timers s !! tid with
  | None => s
  | Some t =>
    let s0 := clearTimeout tid s in
    match callback t with
    | CbAttack target => scheduledAttack d target attackThrows s0
    | CbDisengage refreshed => disengage d refreshed s0
    | CbEquipPass => equipPass s0
    | CbScheduleEquip => scheduleEquip s0
    | CbJumpRelease => control "jump" false s0
    | CbDeactivateItem => add_effect DeactivateItem s0
    | CbResetInProgress =>
      set_healState (mkHealState false (lastHeal (healState s0))) s0
    end
  end.

Definition settle (k : nat) (o : Outcome) (activateThrows : option string)
    (s : Session) : Session :=
  match tasks s !! k with
  | None => s
  | Some t =>
    let s0 := set_tasks (delete k (tasks s)) (nextTask s) s in
    match t with
    | HealTask soup _ now => heal_resume soup now o activateThrows s0
    | GearTask rest => gear_resume rest o s0
    end
  end.

(** Both [bot.once('end', ...)] handlers, in registration order. *)
Definition end_session (d : Difficulty) (s : Session) : Session :=
  if ended s then s
  else
    let s1 :=
      match scheduledAttackTimeout s with
      | Some tid => clearTimeout tid s
      | None => s
      end in
    match advanced d with
    | None => set_torn_down (inventoryListening s1) s1
    | Some _ =>
      let s2 := stopStrafe s1 in
      set_torn_down
        (match inventory (bot s2) with
         | Some _ => false
         | None => inventoryListening s2
         end) s2
    end.

Definition step (d : Difficulty) (ev : Event) (s : Session) : Session :=
  match ev with
  | EvWorld b => set_bot b s
  | EvScan rnd => if scanInterval s then scan d rnd s else s
  | EvStrafeTick rnd =>
    match advanced d with
    | Some adv => if strafeInterval s then strafeTick adv rnd s else s
    | None => s
    end
  | EvHealth now =>
    match advanced d with
    | Some adv => if listening s then healListener adv now s else s
    | None => s
    end
  | EvUpdateSlot => if inventoryListening s then scheduleEquip s else s
  | EvPlayerCollect collector =>
    if listening s && same_entity collector (bot_entity (bot s))
    then scheduleEquip s else s
  | EvDeath =>
    if listening s then setTimeout CbScheduleEquip 600 (stopStrafe s) else s
  | EvRespawn =>
    if listening s then setTimeout CbScheduleEquip 700 (stopStrafe s) else s
  | EvTimer tid attackThrows => fire d tid attackThrows s
  | EvSettle k o activateThrows => settle k o activateThrows s
  | EvEnd => end_session d s
  | EvPlayerEntity r field => assign_entity r field s
  end.

Definition run (d : Difficulty) (evs : list Event) (s : Session) : Session :=
  fold_left (fun st ev => step d ev st) evs s.

(** The state after the ['spawn'] handler has run [setupPvpLoop] and
    [setupAdvancedCombat]. *)
Definition spawn (d : Difficulty) (b : Bot) : Session :=
  let s0 :=
    mkSession b None true 1%Z false (mkHealState false 0) false false false
      ∅ 0 ∅ 0 false [] [] [] in
  match advanced d with
  | None => s0
  | Some _ =>
    let s1 := scheduleEquip s0 in
    mkSession (bot s1) (scheduledAttackTimeout s1) (scanInterval s1)
      (strafeDirection s1) true (healState s1) (equipScheduled s1) true
      (bool_decide (is_Some (inventory b))) (timers s1) (nextTimer s1)
      (tasks s1) (nextTask s1) (ended s1) (effects s1) (log s1)
      (heldPlayers s1)
  end.

(** A session state the controller can be in. *)
Definition reachable (d : Difficulty) (s : Session) : Prop :=
  exists b evs, s = run d evs (spawn d b).

(* ===================================================================== *)
(** ** Command line (index.js lines 116-207)                              *)
(* ===================================================================== *)

(** Strings are sequences of code units below 256; numbers read from them
    are exact integers. *)

Definition DEFAULT_PORT : Z := 25565.

(** The white space and line terminators of ECMAScript among the code
    units below 256: TAB, LF, VT, FF, CR, SP, NBSP. *)
Definition is_space (c : ascii) : bool :=
  let n := nat_of_ascii c in
  ((9 <=? n) && (n <=? 13) || (n =? 32) || (n =? 160))%nat.

Fixpoint trimStart (s : string) : string :=
  match s with
  | EmptyString => EmptyString
  | String c r => if is_space c then trimStart r else s
  end.

(** [s.trim()]. *)
Definition trim (s : string) : string :=
  String.rev (trimStart (String.rev (trimStart s))).

(** [s.startsWith('-')]. *)
Definition startsWith_dash (s : string) : bool :=
  match s with
  | String c _ => Ascii.eqb c "-"
  | EmptyString => false
  end.

(** [s.split(':')]. *)
Fixpoint split_colon (s : string) : list string :=
  match s with
  | EmptyString => [EmptyString]
  | String c r =>
    if Ascii.eqb c ":" then EmptyString :: split_colon r
    else match split_colon r with
         | h :: t => String c h :: t
         | [] => [String c EmptyString]
         end
  end.

Definition digit_value (c : ascii) : option Z :=
  let n := nat_of_ascii c in
  if ((48 <=? n) && (n <=? 57))%nat then Some (Z.of_nat n - 48)%Z else None.

(** The value of the longest prefix of decimal digits; [None] when there
    is no digit. *)
Fixpoint digits_value (seen : bool) (acc : Z) (s : string) : option Z :=
  match s with
  | EmptyString => if seen then Some acc else None
  | String c r =>
    match digit_value c with
    | Some v => digits_value true (acc * 10 + v) r
    | None => if seen then Some acc else None
    end
  end.

(** [Number.parseInt(s, 10)]; [None] is [NaN]. *)
Definition parseInt10 (s : string) : option Z :=
  match trimStart s with
  | String c r =>
    if Ascii.eqb c "-" then Z.opp <$> digits_value false 0 r
    else if Ascii.eqb c "+" then digits_value false 0 r
    else digits_value false 0 (String c r)
  | EmptyString => None
  end.

(** How a function of the command line ends: it returns, it throws an
    [Error] with a message, or it calls [process.exit]. *)
Inductive Parsed (A : Type) : Type :=
  | Returned (a : A)
  | Thrown (message : string)
  | Exited (code : Z).
Arguments Returned {A} a.
Arguments Thrown {A} message.
Arguments Exited {A} code.

Record Server : Type := mkServer { host : string; port : Z }.

Definition parseServer (raw : string) : Parsed Server :=
  match raw with
  | EmptyString => Thrown "Server address must be a non-empty string."
  | _ =>
    let parts := split_colon raw in
    let hostPart := parts !! 0%nat in
    let portPart := parts !! 1%nat in
    match trim <$> hostPart with
    | None | Some EmptyString => Thrown "Server host is required."
    | Some h =>
      match portPart with
      | None | Some EmptyString => Returned (mkServer h DEFAULT_PORT)
      | Some p =>
        match parseInt10 p with
        | None => Thrown "Server port must be a number between 1 and 65535."
        | Some parsedPort =>
          if ((parsedPort <=? 0) || (65535 <? parsedPort))%Z
          then Thrown "Server port must be a number between 1 and 65535."
          else Returned (mkServer h parsedPort)
        end
      end
    end
  end.

Record Config : Type := mkConfig {
  difficulty : Difficulty;
  bots : Z;
  server : option Server
}.

(** The loop of [parseArgs] over [argv[i], argv[i+1], ...]. *)
Fixpoint parseArgs_loop (args : list string) (config : Config) : Parsed Config :=
  match args with
  | [] =>
    match server config with
    | None =>
      Thrown "A server address is required. Use -s <host[:port]> to provide one."
    | Some _ => Returned config
    end
  | arg :: rest =>
    if String.eqb arg "-s" then
      match rest with
      | next :: rest' =>
        if negb (String.eqb next "") && negb (startsWith_dash next) then
          match parseServer next with
          | Returned srv =>
            parseArgs_loop rest' (mkConfig (difficulty config) (bots config) (Some srv))
          | Thrown m => Thrown m
          | Exited c => Exited c
          end
        else parseArgs_loop rest (mkConfig easy (bots config) (server config))
      | [] => parseArgs_loop rest (mkConfig easy (bots config) (server config))
      end
    else if String.eqb arg "--server" then
      match rest with
      | next :: rest' =>
        if String.eqb next "" || startsWith_dash next
        then Thrown "Missing value for --server."
        else
          match parseServer next with
          | Returned srv =>
            parseArgs_loop rest' (mkConfig (difficulty config) (bots config) (Some srv))
          | Thrown m => Thrown m
          | Exited c => Exited c
          end
      | [] => Thrown "Missing value for --server."
      end
    else if String.eqb arg "-h" || String.eqb arg "--hard" then
      parseArgs_loop rest (mkConfig hard (bots config) (server config))
    else if String.eqb arg "-g" || String.eqb arg "--godlike" then
      parseArgs_loop rest (mkConfig godlike (bots config) (server config))
    else if String.eqb arg "-b" || String.eqb arg "--bots" then
      match rest with
      | next :: rest' =>
        if String.eqb next "" || startsWith_dash next
        then Thrown "Missing value for -b/--bots."
        else
          match parseInt10 next with
          | None => Thrown "The number of bots must be a positive integer."
          | Some value =>
            if (value <=? 0)%Z
            then Thrown "The number of bots must be a positive integer."
            else parseArgs_loop rest' (mkConfig (difficulty config) value (server config))
          end
      | [] => Thrown "Missing value for -b/--bots."
      end
    else if String.eqb arg "--help" || String.eqb arg "-?" then Exited 0
    else Thrown ("Unknown argument: " +:+ arg)
  end.

Definition parseArgs (argv : list string) : Parsed Config :=
  parseArgs_loop (skipn 2 argv) (mkConfig easy 1 None).

(* ===================================================================== *)
(** ** Unloaded-chunk warnings (index.js lines 222-257)                   *)
(* ===================================================================== *)

(** Chunk coordinates are integers; [pretty] prints them as JavaScript
    does (decimal digits, a leading minus sign for negatives). *)

(** [chunkKey(x, z)], the template string with [x], a comma and [z]. *)
Definition chunkKey (x z : Z) : string := pretty x +:+ "," +:+ pretty z.

(** A ['map_chunk'] packet; [blockEntities] is the length of the array,
    [None] when the field is missing. *)
Record Packet : Type := mkPacket {
  packet_x : Z;
  packet_z : Z;
  blockEntities : option nat
}.

(** The closure state of [createBot]: the set [skippedBlockEntityChunks]
    and the lines logged. *)
Record ChunkTracker : Type := mkChunkTracker {
  skippedBlockEntityChunks : gset string;
  chunk_log : list string
}.

(** [chunkWarningListener]; [columnLoaded] is whether
    [bot.world.getColumn(packet.x, packet.z)] is there. *)
Definition chunkWarningListener (user : string) (packet : option Packet)
    (columnLoaded : bool) (t : ChunkTracker) : ChunkTracker :=
  match packet with
  | None => t
  | Some pk =>
    match blockEntities pk with
    | None | Some O => t
    | Some (S _) =>
      if columnLoaded then t
      else
        let key := chunkKey (packet_x pk) (packet_z pk) in
        if bool_decide (key ∈ skippedBlockEntityChunks t) then t
        else
          mkChunkTracker ({[key]} ∪ skippedBlockEntityChunks t)
            (chunk_log t ++
               ["[" +:+ user +:+ "] Skipping block entities for unloaded chunk at ("
                  +:+ pretty (packet_x pk) +:+ ", " +:+ pretty (packet_z pk) +:+ ")."])
    end
  end.

(** [chunkLoadListener]; [point] is the argument of ['chunkColumnLoad']. *)
Definition chunkLoadListener (user : string) (point : option (Z * Z))
    (t : ChunkTracker) : ChunkTracker :=
  match point with
  | None => t
  | Some (x, z) =>
    let key := chunkKey x z in
    if bool_decide (key ∈ skippedBlockEntityChunks t) then
      mkChunkTracker (skippedBlockEntityChunks t ∖ {[key]})
        (chunk_log t ++
           ["[" +:+ user +:+ "] Chunk at (" +:+ pretty x +:+ ", " +:+ pretty z
              +:+ ") is now loaded."])
    else t
  end.

Fixpoint comma_free (s : string) : bool :=
  match s with
  | EmptyString => true
  | String c r => negb (Ascii.eqb c ",") && comma_free r
  end.

(* ===================================================================== *)
(** ** Sample worlds                                                      *)
(* ===================================================================== *)

Definition origin : Vec3 := mkVec3 0 0 0.
Definition self_entity : Entity := mkEntity 0 origin.

(** Another player exactly 48 blocks away along the x axis. *)
Definition edge_entity : Entity := mkEntity 1 (mkVec3 48 0 0).
Definition near_entity : Entity := mkEntity 2 (mkVec3 3 0 4).

Definition diamond_sword : Item := mkItem "diamond_sword" 36.
Definition mushroom_stew : Item := mkItem "mushroom_stew" 38.

Definition world (ps : list (string * option Player)) (hp : Q)
    (its : list Item) (target : option Entity) : Bot :=
  mkBot "KitPvPBot_1_7" (Some self_entity) (Some ps) hp
    (Some (mkInventory [] its)) (Some (fun _ => Some 0%nat)) target ∅.

Definition edge_world : Bot :=
  world [("KitPvPBot_1_7", Some (mkPlayer (Some self_entity)));
         ("edge", Some (mkPlayer (Some edge_entity)))] 20 [] None.

Definition duel_world : Bot :=
  world [("KitPvPBot_1_7", Some (mkPlayer (Some self_entity)));
         ("edge", Some (mkPlayer (Some edge_entity)));
         ("near", Some (mkPlayer (Some near_entity)))] 20 [diamond_sword] None.

(** Health 10 of 20, one soup in the inventory. *)
Definition hurt_world : Bot := world [] 10 [mushroom_stew] None.

(** A sword in the inventory, nothing in the hand. *)
Definition armed_world : Bot := world [] 20 [diamond_sword] None.

(** Engaged with the player "near". *)
Definition engaged_world : Bot :=
  world [("near", Some (mkPlayer (Some near_entity)))] 20 [] (Some near_entity).

Definition lonely_world : Bot :=
  world [("far", Some (mkPlayer (Some (mkEntity 3 (mkVec3 100 0 0)))))]
    20 [] (Some near_entity).

Definition twin_entity : Entity := mkEntity 4 (mkVec3 0 0 5).
Definition twin_world : Bot :=
  world [("near", Some (mkPlayer (Some near_entity)));
         ("twin", Some (mkPlayer (Some twin_entity)))] 20 [] None.

Definition golden_apple : Item := mkItem "golden_apple" 39.

(** The player "near" after the client has replaced its entity by a new
    entity object, the bot still being engaged with the old one. *)
Definition reborn_entity : Entity := mkEntity 9 (mkVec3 1 0 1).
Definition reborn_world : Bot :=
  world [("KitPvPBot_1_7", Some (mkPlayer (Some self_entity)));
         ("near", Some (mkPlayer (Some reborn_entity)))] 20 [] (Some near_entity).

(** Engaged with the player "twin", the player "near" still around. *)
Definition twin_engaged_world : Bot :=
  world [("near", Some (mkPlayer (Some near_entity)));
         ("twin", Some (mkPlayer (Some twin_entity)))] 20 [] (Some twin_entity).

(** A sword and a shield in the inventory, nothing equipped. *)
Definition shield : Item := mkItem "shield" 37.
Definition kit_world : Bot := world [] 20 [diamond_sword; shield] None.

(* ===================================================================== *)
(** ** Predicates and invariants used by the proofs                       *)
(* ===================================================================== *)

(** What the loop of [findClosestPlayer] has established after the entries
    [seen]. *)
Definition closest_inv (b : Bot) (me : Entity) (maxDistanceSq : Q)
    (seen : list (string * option Player)) (acc : option Candidate * Num Q)
  : Prop :=
  match acc with
  | (None, Infinity) =>
    forall u e, other_player b seen u e ->
      ~ (distanceSquared (position me) (position e) <= maxDistanceSq)%Q
  | (Some c, Fin dc) =>
    dc = distanceSquared (position me) (position (cand_entity c)) /\
    other_player b seen (cand_username c) (cand_entity c) /\
    (dc <= maxDistanceSq)%Q /\
    forall u e, other_player b seen u e ->
      (distanceSquared (position me) (position e) <= maxDistanceSq)%Q ->
      (dc <= distanceSquared (position me) (position e))%Q
  | _ => False
  end.

(** What the loop of [findBestInventoryItem] has established after the
    items [seen]. *)
Definition best_inv (priorityList : list string) (seen : list Item)
    (acc : option Item * Num nat) : Prop :=
  match acc with
  | (None, Infinity) =>
    forall it, In it seen -> indexOf priorityList (item_name it) = None
  | (Some best, Fin i) =>
    In best seen /\ indexOf priorityList (item_name best) = Some i /\
    forall it j, In it seen -> indexOf priorityList (item_name it) = Some j ->
      (i <= j)%nat
  | _ => False
  end.

Definition is_attack (cb : Callback) : bool :=
  match cb with CbAttack _ => true | _ => false end.

Definition is_pass (cb : Callback) : bool :=
  match cb with CbEquipPass => true | _ => false end.

(** What holds in every state of a session. Timer and task ids are never
    reused; [scheduledAttackTimeout] is the handle of an attack timer (or
    of a timer that is no longer pending) and every pending attack timer
    is that one; a pending gear-pass timer implies [equipScheduled], and
    there is at most one; [strafeDirection] is 1 or -1. *)
Record session_inv (s : Session) : Prop := mkSessionInv {
  inv_fresh_timers : forall tid t, timers s !! tid = Some t -> (tid < nextTimer s)%nat;
  inv_fresh_tasks : forall k t, tasks s !! k = Some t -> (k < nextTask s)%nat;
  inv_handle : forall sa, scheduledAttackTimeout s = Some sa ->
    (sa < nextTimer s)%nat /\
    forall t, timers s !! sa = Some t -> is_attack (callback t) = true;
  inv_attack : forall tid t, timers s !! tid = Some t ->
    is_attack (callback t) = true -> scheduledAttackTimeout s = Some tid;
  inv_pass_flag : forall tid t, timers s !! tid = Some t ->
    is_pass (callback t) = true -> equipScheduled s = true;
  inv_pass_unique : forall tid1 tid2 t1 t2,
    timers s !! tid1 = Some t1 -> timers s !! tid2 = Some t2 ->
    is_pass (callback t1) = true -> is_pass (callback t2) = true -> tid1 = tid2;
  inv_strafe : strafeDirection s = 1%Z \/ strafeDirection s = (-1)%Z
}.

(** [frame s s']: from [s] to [s'] the attack handle and the equip flag are
    kept, and every pending timer of [s'] was pending in [s] or is a new
    timer that is neither an attack nor a gear pass. *)
Record frame (s s' : Session) : Prop := mkFrame {
  fr_handle : scheduledAttackTimeout s' = scheduledAttackTimeout s;
  fr_flag : equipScheduled s' = equipScheduled s;
  fr_next : (nextTimer s <= nextTimer s')%nat;
  fr_timers : forall tid t, timers s' !! tid = Some t ->
    timers s !! tid = Some t \/
    ((nextTimer s <= tid < nextTimer s')%nat /\
     is_attack (callback t) = false /\ is_pass (callback t) = false);
  fr_nextTask : (nextTask s <= nextTask s')%nat;
  fr_tasks : forall k t, tasks s' !! k = Some t ->
    tasks s !! k = Some t \/ (nextTask s <= k < nextTask s')%nat;
  fr_strafe : strafeDirection s' = strafeDirection s \/
              strafeDirection s' = (- strafeDirection s)%Z
}.

(** [keep X Y s s']: from [s] to [s'] no timer is removed except those in
    [X], and no suspended function is resumed except those in [Y]. *)
Record keep (X Y : nat -> Prop) (s s' : Session) : Prop := mkKeep {
  kp_next : (nextTimer s <= nextTimer s')%nat;
  kp_nextTask : (nextTask s <= nextTask s')%nat;
  kp_timers : forall tid t, timers s !! tid = Some t ->
    (tid < nextTimer s)%nat -> ~ X tid -> timers s' !! tid = Some t;
  kp_tasks : forall k t, tasks s !! k = Some t ->
    (k < nextTask s)%nat -> ~ Y k -> tasks s' !! k = Some t
}.

(** The unwinding of a heal that [attemptHeal] started at time [now],
    seen from the state [s1] right after it set [inProgress]: the function
    is suspended in [bot.equip] and stays so whatever happens until that
    equip settles; however it settles (resolved or rejected, with
    [activateItem] throwing or not) a timer with the reset delay of the
    item class (600 ms for a soup, 2000 ms otherwise) is pending
    afterwards; nothing removes that timer before it fires, and when it
    fires [inProgress] is false. *)
Definition heal_unwinds (d : Difficulty) (s1 : Session) (now : Z) : Prop :=
  exists k soup goldenApple,
    tasks s1 !! k = Some (HealTask soup goldenApple now) /\
    forall evs1 o a,
      Forall (fun ev => forall o' a', ev <> EvSettle k o' a') evs1 ->
      let s2 := step d (EvSettle k o a) (run d evs1 s1) in
      exists tid,
        timers s2 !! tid
          = Some (mkTimer CbResetInProgress
                    (match soup with Some _ => 600%Q | None => 2000%Q end)) /\
        forall evs2 a2,
          Forall (fun ev => forall a', ev <> EvTimer tid a') evs2 ->
          inProgress (healState (step d (EvTimer tid a2) (run d evs2 s2))) = false.

(** The candidate held by the loop of [findClosestPlayer] sits in [seen]
    behind entries that are all strictly farther away (or out of
    range). *)
Definition first_inv (b : Bot) (me : Entity) (maxDistanceSq : Q)
    (seen : list (string * option Player)) (acc : option Candidate * Num Q)
  : Prop :=
  match acc with
  | (Some c, _) =>
    exists before p after,
      seen = (before ++ (cand_username c, Some p) :: after)%list /\
      player_entity p = Some (cand_entity c) /\
      forall u e, other_player b before u e ->
        (distanceSquared (position me) (position e) <= maxDistanceSq)%Q ->
        (distanceSquared (position me) (position (cand_entity c))
           < distanceSquared (position me) (position e))%Q
  | (None, _) => True
  end.

(** [life s s']: from [s] to [s'] the session keeps its intervals and
    listeners as they are. *)
Definition life (s s' : Session) : Prop :=
  ended s' = ended s /\ scanInterval s' = scanInterval s /\
  strafeInterval s' = strafeInterval s /\ listening s' = listening s.

(** [no_new_attack s s']: every attack timer pending in [s'] was pending
    in [s]. *)
Definition no_new_attack (s s' : Session) : Prop :=
  forall tid t, timers s' !! tid = Some t ->
    is_attack (callback t) = true -> timers s !! tid = Some t.

(** What holds once a session has ended. *)
(** Every pending disengage timer holds a player object of the store. *)
Definition held_valid (s : Session) : Prop :=
  forall tid t r, timers s !! tid = Some t -> callback t = CbDisengage r ->
    r < length (heldPlayers s).

Definition torn_down (s : Session) : Prop :=
  ended s = true ->
  scanInterval s = false /\ strafeInterval s = false /\ listening s = false /\
  forall tid t, timers s !! tid = Some t -> is_attack (callback t) = false.

(** The flag is set only while a gear-pass timer is pending. *)
Definition pass_alive (s : Session) : Prop :=
  equipScheduled s = true ->
  exists tid dl, timers s !! tid = Some (mkTimer CbEquipPass dl).

Definition is_reset (cb : Callback) : bool :=
  match cb with CbResetInProgress => true | _ => false end.

Definition is_heal (t : Task) : bool :=
  match t with HealTask _ _ _ => true | GearTask _ => false end.

(** A heal attempt is in one of two phases: suspended in [bot.equip], or
    waiting for its reset timer. There is at most one attempt, it is in
    one phase only, and [inProgress] is set throughout. *)
Record heal_inv (s : Session) : Prop := mkHealInv {
  hi_task : forall k t, tasks s !! k = Some t -> is_heal t = true ->
    inProgress (healState s) = true;
  hi_reset : forall tid t, timers s !! tid = Some t ->
    is_reset (callback t) = true -> inProgress (healState s) = true;
  hi_task_unique : forall k1 k2 t1 t2,
    tasks s !! k1 = Some t1 -> tasks s !! k2 = Some t2 ->
    is_heal t1 = true -> is_heal t2 = true -> k1 = k2;
  hi_reset_unique : forall tid1 tid2 t1 t2,
    timers s !! tid1 = Some t1 -> timers s !! tid2 = Some t2 ->
    is_reset (callback t1) = true -> is_reset (callback t2) = true ->
    tid1 = tid2;
  hi_exclusive : forall k t tid tm,
    tasks s !! k = Some t -> is_heal t = true ->
    timers s !! tid = Some tm -> is_reset (callback tm) = true -> False
}.

(** [xframe s s']: from [s] to [s'] [inProgress] is kept, no reset timer
    is set and no heal is suspended. *)
Record xframe (s s' : Session) : Prop := mkXframe {
  xf_progress : inProgress (healState s') = inProgress (healState s);
  xf_timers : forall tid t, timers s' !! tid = Some t ->
    timers s !! tid = Some t \/ is_reset (callback t) = false;
  xf_tasks : forall k t, tasks s' !! k = Some t ->
    tasks s !! k = Some t \/ is_heal t = false
}.

(** [inProgress] is set only while a heal is suspended in [bot.equip] or
    its reset timer is pending. *)
Definition heal_alive (s : Session) : Prop :=
  inProgress (healState s) = true ->
  (exists k t, tasks s !! k = Some t /\ is_heal t = true) \/
  (exists tid tm, timers s !! tid = Some tm /\ is_reset (callback tm) = true).

(** Every suspended gear pass has a strict tail of the six calls of
    [equipBestGear] left to make. *)
Definition gear_forward (s : Session) : Prop :=
  forall k rest, tasks s !! k = Some (GearTask rest) ->
    exists made, made <> [] /\ GEAR_SLOTS = (made ++ rest)%list.

(** What [parseArgs] keeps true of the configuration it builds. *)
Definition valid_config (c : Config) : Prop :=
  (forall srv, server c = Some srv ->
     host srv <> "" /\ (1 <= port srv <= 65535)%Z) /\
  (1 <= bots c)%Z /\
  (difficulty c = easy \/ difficulty c = hard \/ difficulty c = godlike).

(* ===================================================================== *)
(** ** Target acquisition                                                 *)
(* ===================================================================== *)

Lemma Qlt_bool_iff (a b : Q) : Qlt_bool a b = true <-> (a < b)%Q.
Proof.
  unfold Qlt_bool. rewrite negb_true_iff. split.
  - intros H. apply Qnot_le_lt. intros Hle.
    apply Qle_bool_iff in Hle. congruence.
  - intros H. destruct (Qle_bool b a) eqn:E; [|reflexivity].
    apply Qle_bool_iff in E. exfalso. exact (Qlt_not_le _ _ H E).
Qed.

Lemma other_player_app b seen entry u e :
  other_player b (seen ++ [entry]) u e <->
  other_player b seen u e \/
  (exists p, entry = (u, Some p) /\ u <> username b /\ player_entity p = Some e).
Proof.
  unfold other_player. split.
  - intros (p & Hin & Hne & He). apply in_app_or in Hin as [Hin | Hin].
    + left. eauto.
    + right. destruct Hin as [-> | []]. eauto.
  - intros [(p & Hin & Hne & He) | (p & -> & Hne & He)].
    + exists p. split; [apply in_or_app; by left | done].
    + exists p. split; [apply in_or_app; right; by left | done].
Qed.

Lemma closest_step_inv b me maxDistanceSq seen acc entry :
  closest_inv b me maxDistanceSq seen acc ->
  closest_inv b me maxDistanceSq (seen ++ [entry])
    (closest_step b me maxDistanceSq acc entry).
Proof.
  intros Hinv. destruct entry as [u player].
  assert (Hskip :
    (forall p e, player = Some p -> u <> username b ->
       player_entity p = Some e -> False) ->
    closest_inv b me maxDistanceSq (seen ++ [(u, player)]) acc).
  { intros Hno. destruct acc as [[c|] [dc|]]; simpl in *; try done.
    - destruct Hinv as (Hdc & Hc & Hle & Hmin). repeat split; try done.
      + apply other_player_app. by left.
      + intros u' e' [H | (p & [= <- ->] & Hne & He)]%other_player_app Hin.
        * by apply (Hmin _ _ H).
        * exfalso. eauto.
    - intros u' e' [H | (p & [= <- ->] & Hne & He)]%other_player_app.
      + by apply (Hinv _ _ H).
      + exfalso. eauto. }
  unfold closest_step. destruct player as [p|]; [|apply Hskip; by intros].
  destruct (String.eqb u (username b)) eqn:Eu.
  { apply Hskip. intros ? ? _ Hne _. apply String.eqb_eq in Eu. done. }
  apply String.eqb_neq in Eu.
  destruct (player_entity p) as [e|] eqn:Ee; [|apply Hskip; congruence].
  remember (distanceSquared (position me) (position e)) as dsq eqn:Hdsq.
  destruct (num_ltb Qlt_bool (Fin dsq) acc.2 && Qle_bool dsq maxDistanceSq) eqn:Et.
  - apply andb_true_iff in Et as [Hlt Hle]. apply Qle_bool_iff in Hle.
    simpl. repeat split; try done.
    + apply other_player_app. right. eauto.
    + intros u' e' [H | (p' & [= <- <-] & Hne & He)]%other_player_app Hin.
      * destruct acc as [[c|] [dc|]]; simpl in *; try done.
        -- destruct Hinv as (_ & _ & _ & Hmin). apply Qlt_bool_iff in Hlt.
           specialize (Hmin _ _ H Hin). rewrite <- ?Hdsq. lra.
        -- exfalso. by apply (Hinv _ _ H).
      * assert (e' = e) as -> by congruence. rewrite <- ?Hdsq. lra.
  - destruct acc as [[c|] [dc|]]; simpl in *; try done.
    + destruct Hinv as (Hdc & Hc & Hcle & Hmin). repeat split; try done.
      * apply other_player_app. by left.
      * intros u' e' [H | (p' & [= <- <-] & Hne & He)]%other_player_app Hin.
        -- by apply (Hmin _ _ H).
        -- assert (e' = e) as -> by congruence. rewrite <- ?Hdsq. rewrite <- ?Hdsq in Hin.
           apply andb_false_iff in Et as [Hlt | Hle].
           ++ destruct (Qlt_le_dec dsq dc) as [Hl | Hl]; [|done].
              apply Qlt_bool_iff in Hl. congruence.
           ++ apply Qle_bool_iff in Hin. congruence.
    + intros u' e' [H | (p' & [= <- <-] & Hne & He)]%other_player_app.
      * by apply (Hinv _ _ H).
      * assert (e' = e) as -> by congruence. rewrite <- ?Hdsq. intros Hin.
        apply Qle_bool_iff in Hin. rewrite Hin in Et. done.
Qed.

Lemma closest_fold_inv b me maxDistanceSq ps seen acc :
  closest_inv b me maxDistanceSq seen acc ->
  closest_inv b me maxDistanceSq (seen ++ ps)
    (fold_left (closest_step b me maxDistanceSq) ps acc).
Proof.
  revert seen acc. induction ps as [|entry ps IH]; intros seen acc Hinv; simpl.
  - by rewrite app_nil_r.
  - replace (seen ++ entry :: ps)%list with ((seen ++ [entry]) ++ ps)%list
      by (by rewrite <- app_assoc).
    apply IH. by apply closest_step_inv.
Qed.

(** C1, as the code has it: with the bot in the world, [findClosestPlayer]
    returns another known player entity whose squared distance is at most
    the bound (48² in [scan]) and is minimal among the other player
    entities within the bound; it returns nothing exactly when no other
    player entity is within the bound. *)
Theorem findClosestPlayer_minimum_within_bound
    (b : Bot) (me : Entity) (ps : list (string * option Player))
    (maxDistanceSq : Q) :
  bot_entity b = Some me ->
  players b = Some ps ->
  match findClosestPlayer b maxDistanceSq with
  | Some c =>
    other_player b ps (cand_username c) (cand_entity c) /\
    (distanceSquared (position me) (position (cand_entity c)) <= maxDistanceSq)%Q /\
    forall u e, other_player b ps u e ->
      (distanceSquared (position me) (position e) <= maxDistanceSq)%Q ->
      (distanceSquared (position me) (position (cand_entity c))
         <= distanceSquared (position me) (position e))%Q
  | None =>
    forall u e, other_player b ps u e ->
      ~ (distanceSquared (position me) (position e) <= maxDistanceSq)%Q
  end.
Proof.
  intros Hme Hps. unfold findClosestPlayer. rewrite Hps, Hme.
  assert (H0 : closest_inv b me maxDistanceSq [] (None, Infinity)).
  { intros u e (p & [] & _). }
  apply (closest_fold_inv b me maxDistanceSq ps) in H0. simpl in H0.
  destruct (fold_left _ ps _) as [[c|] [dc|]]; simpl in *; try done.
  destruct H0 as (-> & Hc & Hle & Hmin). done.
Qed.

Lemma findClosestPlayer_minimum_within_bound_witness :
  match findClosestPlayer duel_world scanRadiusSq with
  | Some c =>
    other_player duel_world
      [("KitPvPBot_1_7", Some (mkPlayer (Some self_entity)));
       ("edge", Some (mkPlayer (Some edge_entity)));
       ("near", Some (mkPlayer (Some near_entity)))]
      (cand_username c) (cand_entity c) /\
    (distanceSquared (position self_entity) (position (cand_entity c))
       <= scanRadiusSq)%Q /\
    forall u e,
      other_player duel_world
        [("KitPvPBot_1_7", Some (mkPlayer (Some self_entity)));
         ("edge", Some (mkPlayer (Some edge_entity)));
         ("near", Some (mkPlayer (Some near_entity)))] u e ->
      (distanceSquared (position self_entity) (position e) <= scanRadiusSq)%Q ->
      (distanceSquared (position self_entity) (position (cand_entity c))
         <= distanceSquared (position self_entity) (position e))%Q
  | None =>
    forall u e,
      other_player duel_world
        [("KitPvPBot_1_7", Some (mkPlayer (Some self_entity)));
         ("edge", Some (mkPlayer (Some edge_entity)));
         ("near", Some (mkPlayer (Some near_entity)))] u e ->
      ~ (distanceSquared (position self_entity) (position e) <= scanRadiusSq)%Q
  end.
Proof.
  apply (findClosestPlayer_minimum_within_bound duel_world self_entity);
    reflexivity.
Defined.

(** C1 as stated fails: a player at squared distance exactly 48² is
    selected, although that distance is not strictly less than 48². *)
Lemma findClosestPlayer_selects_at_bound :
  bot_entity edge_world = Some self_entity /\
  findClosestPlayer edge_world scanRadiusSq = Some (mkCandidate "edge" edge_entity) /\
  ~ (distanceSquared (position self_entity) (position edge_entity)
       < MAX_SCAN_DISTANCE * MAX_SCAN_DISTANCE)%Q.
Proof.
  split; [reflexivity|]. split; [reflexivity|].
  intros H. vm_compute in H. discriminate.
Qed.

(* ===================================================================== *)
(** ** Gear optimisation, one slot                                        *)
(* ===================================================================== *)

Lemma best_step_inv priorityList seen acc item :
  best_inv priorityList seen acc ->
  best_inv priorityList (seen ++ [item]) (best_step priorityList acc item).
Proof.
  intros Hinv. unfold best_step, getItemPriority.
  destruct (indexOf priorityList (item_name item)) as [k|] eqn:Ek;
    destruct acc as [[best|] [i|]]; simpl in *; try done.
  - destruct Hinv as (Hin & Hi & Hmin).
    destruct (k <? i)%nat eqn:Elt; simpl.
    + apply Nat.ltb_lt in Elt. split; [apply in_or_app; right; by left|].
      split; [done|]. intros it j [H | [<- | []]]%in_app_or Hj.
      * specialize (Hmin _ _ H Hj). lia.
      * assert (j = k) by congruence. lia.
    + apply Nat.ltb_ge in Elt. split; [apply in_or_app; by left|].
      split; [done|]. intros it j [H | [<- | []]]%in_app_or Hj.
      * by apply (Hmin _ _ H).
      * assert (j = k) by congruence. lia.
  - split; [apply in_or_app; right; by left|]. split; [done|].
    intros it j [H | [<- | []]]%in_app_or Hj.
    + rewrite (Hinv _ H) in Hj. done.
    + assert (j = k) by congruence. lia.
  - destruct Hinv as (Hin & Hi & Hmin).
    split; [apply in_or_app; by left|]. split; [done|].
    intros it j [H | [<- | []]]%in_app_or Hj.
    + by apply (Hmin _ _ H).
    + congruence.
  - intros it [H | [<- | []]]%in_app_or; [by apply Hinv | done].
Qed.

Lemma best_fold_inv priorityList its seen acc :
  best_inv priorityList seen acc ->
  best_inv priorityList (seen ++ its)
    (fold_left (best_step priorityList) its acc).
Proof.
  revert seen acc. induction its as [|item its IH]; intros seen acc Hinv; simpl.
  - by rewrite app_nil_r.
  - replace (seen ++ item :: its)%list with ((seen ++ [item]) ++ its)%list
      by (by rewrite <- app_assoc).
    apply IH. by apply best_step_inv.
Qed.

(** [findBestInventoryItem] returns a ranked inventory item of least index,
    and nothing exactly when no inventory item is in the table. *)
Lemma findBestInventoryItem_spec (b : Bot) (priorityList : list string) (inv : Inventory) :
  inventory b = Some inv ->
  match findBestInventoryItem b priorityList with
  | Some best =>
    exists i, In best (items inv) /\
      indexOf priorityList (item_name best) = Some i /\
      forall it j, In it (items inv) ->
        indexOf priorityList (item_name it) = Some j -> (i <= j)%nat
  | None =>
    forall it, In it (items inv) -> indexOf priorityList (item_name it) = None
  end.
Proof.
  intros Hinv. unfold findBestInventoryItem. rewrite Hinv.
  pose proof (best_fold_inv priorityList (items inv) [] (None, Infinity)) as H.
  simpl in H.
  destruct (fold_left _ (items inv) _) as [[best|] [i|]]; simpl in *.
  - exists i. apply H. intros it [].
  - exfalso. apply H. intros it [].
  - exfalso. apply H. intros it [].
  - apply H. intros it [].
Qed.

(** C5: [bot.equip] is called for a slot only with an inventory item that
    is in the slot's table, has the least index of all inventory items, and
    whose index is strictly lower than the index of the equipped item
    (when something ranked is equipped at all); when the equipped item's
    index is no higher than that of every ranked inventory item, nothing is
    equipped; when nothing ranked is equipped and the inventory holds a
    ranked item, an equip is made. *)
Theorem equipBestItemForSlot_only_strictly_better
    (b : Bot) (priorityList : list string) (destination : Destination) :
  (forall best, equipBestItemForSlot b priorityList destination = Some best ->
     exists inv i,
       inventory b = Some inv /\ In best (items inv) /\
       getItemPriority priorityList (Some best) = Fin i /\
       (forall it j, In it (items inv) ->
          getItemPriority priorityList (Some it) = Fin j -> (i <= j)%nat) /\
       (forall j, getItemPriority priorityList (getEquippedItem b destination) = Fin j ->
          (i < j)%nat)) /\
  (forall inv j,
     inventory b = Some inv ->
     getItemPriority priorityList (getEquippedItem b destination) = Fin j ->
     (forall it k, In it (items inv) ->
        getItemPriority priorityList (Some it) = Fin k -> (j <= k)%nat) ->
     equipBestItemForSlot b priorityList destination = None) /\
  (forall inv it k,
     inventory b = Some inv -> In it (items inv) ->
     getItemPriority priorityList (Some it) = Fin k ->
     getItemPriority priorityList (getEquippedItem b destination) = Infinity ->
     exists best, equipBestItemForSlot b priorityList destination = Some best).
Proof.
  assert (Hfin : forall it n, getItemPriority priorityList (Some it) = Fin n <->
                              indexOf priorityList (item_name it) = Some n).
  { intros it n. simpl. destruct (indexOf _ _); split; congruence. }
  split; [|split].
  - intros best Heq. unfold equipBestItemForSlot in Heq.
    destruct priorityList as [|p0 pl] eqn:Epl; [done|]. rewrite <- Epl in *.
    destruct (findBestInventoryItem b priorityList) as [best'|] eqn:Ebest; [|done].
    destruct (inventory b) as [inv|] eqn:Einv;
      [|unfold findBestInventoryItem in Ebest; rewrite Einv in Ebest; done].
    pose proof (findBestInventoryItem_spec b priorityList inv Einv) as Hspec.
    rewrite Ebest in Hspec. destruct Hspec as (i & Hin & Hi & Hmin).
    destruct (num_ltb _ _ _) eqn:Elt; [|done].
    injection Heq as <-. exists inv, i. repeat split; try done.
    + by apply Hfin.
    + intros it j Hit Hj. apply Hfin in Hj. by apply (Hmin _ _ Hit).
    + intros j Hj. apply Hfin in Hi. rewrite Hi, Hj in Elt. simpl in Elt.
      by apply Nat.ltb_lt.
  - intros inv j Hinv Hj Hall. unfold equipBestItemForSlot.
    destruct priorityList as [|p0 pl] eqn:Epl; [done|]. rewrite <- Epl in *.
    pose proof (findBestInventoryItem_spec b priorityList inv Hinv) as Hspec.
    destruct (findBestInventoryItem b priorityList) as [best|]; [|done].
    destruct Hspec as (i & Hin & Hi & Hmin). apply Hfin in Hi.
    rewrite Hi, Hj. simpl.
    specialize (Hall _ _ Hin Hi).
    destruct (i <? j)%nat eqn:Elt; [|done]. apply Nat.ltb_lt in Elt. lia.
  - intros inv it k Hinv Hit Hk Hinf. unfold equipBestItemForSlot.
    destruct priorityList as [|p0 pl] eqn:Epl; [done|]. rewrite <- Epl in *.
    pose proof (findBestInventoryItem_spec b priorityList inv Hinv) as Hspec.
    destruct (findBestInventoryItem b priorityList) as [best|].
    + destruct Hspec as (i & Hin & Hi & Hmin). apply Hfin in Hi.
      rewrite Hi, Hinf. simpl. by exists best.
    + apply Hfin in Hk. rewrite (Hspec _ Hit) in Hk. done.
Qed.

(* ===================================================================== *)
(** ** Healing guard                                                      *)
(* ===================================================================== *)

(** C4: [attemptHeal] returns [null] and the session is left as it was
    (heal state, timers, pending equips, item use) when the bot is not in
    the world, or its health is at or above [healThreshold], or a heal is
    in progress, or less than [healCooldownMs] has passed since
    [lastHeal]. *)
Theorem attemptHeal_guard_is_noop
    (d : Difficulty) (adv : Advanced) (s : Session) (now : Z) :
  advanced d = Some adv ->
  bot_entity (bot s) = None \/
  (healThreshold adv <= health (bot s))%Q \/
  inProgress (healState s) = true \/
  (now - lastHeal (healState s) < healCooldownMs adv)%Z ->
  attemptHeal_guard (bot s) adv (healState s) now = HealNull /\
  step d (EvHealth now) s = s.
Proof.
  intros Hadv Hguard.
  assert (Hnull : attemptHeal_guard (bot s) adv (healState s) now = HealNull).
  { unfold attemptHeal_guard.
    destruct (bot_entity (bot s)) as [me|]; [|done].
    destruct (Qle_bool (health (bot s)) 0); [done|].
    destruct (Qle_bool (healThreshold adv) (health (bot s))) eqn:Eth; [done|].
    destruct (inProgress (healState s)) eqn:Ein; [done|]. simpl.
    destruct (now - lastHeal (healState s) <? healCooldownMs adv)%Z eqn:Ecd; [done|].
    apply Z.ltb_ge in Ecd.
    destruct Hguard as [H | [H | [H | H]]]; try done.
    - apply Qle_bool_iff in H. congruence.
    - lia. }
  split; [done|]. simpl. rewrite Hadv.
  destruct (listening s); [|done]. unfold healListener. by rewrite Hnull.
Qed.

Lemma attemptHeal_guard_is_noop_witness :
  attemptHeal_guard
    (bot (run godlike [EvHealth 1700000000000] (spawn godlike hurt_world)))
    (mkAdvanced 650 220 (35 # 100) 14 5500 (13 # 10))
    (healState (run godlike [EvHealth 1700000000000] (spawn godlike hurt_world)))
    1700000000100 = HealNull /\
  step godlike (EvHealth 1700000000100)
    (run godlike [EvHealth 1700000000000] (spawn godlike hurt_world))
  = run godlike [EvHealth 1700000000000] (spawn godlike hurt_world).
Proof.
  apply (attemptHeal_guard_is_noop godlike
           (mkAdvanced 650 220 (35 # 100) 14 5500 (13 # 10))
           (run godlike [EvHealth 1700000000000] (spawn godlike hurt_world)) 1700000000100).
  - reflexivity.
  - right. right. left. vm_compute. reflexivity.
Defined.

(* ===================================================================== *)
(** ** Disengage timer                                                    *)
(* ===================================================================== *)

Section HeldValid.
Variable s : Session.
Hypothesis Hs : held_valid s.

Lemma held_valid_set_bot v : held_valid (set_bot v s).
Proof. exact Hs. Qed.

Lemma held_valid_control key v : held_valid (control key v s).
Proof. exact Hs. Qed.

Lemma held_valid_add_effect e : held_valid (add_effect e s).
Proof. exact Hs. Qed.

Lemma held_valid_add_log m : held_valid (add_log m s).
Proof. exact Hs. Qed.

Lemma held_valid_set_healState v : held_valid (set_healState v s).
Proof. exact Hs. Qed.

Lemma held_valid_set_strafeDirection v : held_valid (set_strafeDirection v s).
Proof. exact Hs. Qed.

Lemma held_valid_set_equipScheduled v : held_valid (set_equipScheduled v s).
Proof. exact Hs. Qed.

Lemma held_valid_set_scheduledAttackTimeout v :
  held_valid (set_scheduledAttackTimeout v s).
Proof. exact Hs. Qed.

Lemma held_valid_set_torn_down v : held_valid (set_torn_down v s).
Proof. exact Hs. Qed.

Lemma held_valid_set_tasks m n : held_valid (set_tasks m n s).
Proof. exact Hs. Qed.

Lemma held_valid_suspend t : held_valid (suspend t s).
Proof. exact Hs. Qed.

Lemma held_valid_clearTimeout tid : held_valid (clearTimeout tid s).
Proof.
  intros tid' t r. simpl. rewrite lookup_delete. case_decide; [done | apply Hs].
Qed.

Lemma held_valid_setTimeout cb dl :
  (forall r, cb <> CbDisengage r) -> held_valid (setTimeout cb dl s).
Proof.
  intros Hcb tid t r. simpl. rewrite lookup_insert. case_decide as Hd.
  - intros [= <-] E. simpl in E. by destruct (Hcb r).
  - apply Hs.
Qed.

(** The disengage closure and the player object it holds are set up
    together. *)
Lemma held_valid_hold_setTimeout field dl :
  held_valid (setTimeout (CbDisengage (length (heldPlayers s))) dl (hold field s)).
Proof.
  intros tid t r. simpl. rewrite lookup_insert, length_app. simpl.
  case_decide as Hd.
  - intros [= <-] [= <-]. lia.
  - intros Ht E. specialize (Hs tid t r Ht E). lia.
Qed.

Lemma held_valid_assign_entity r field : held_valid (assign_entity r field s).
Proof.
  intros tid t r'. simpl. rewrite length_insert. apply Hs.
Qed.
End HeldValid.

Create HintDb held discriminated.
#[local] Hint Resolve held_valid_set_bot held_valid_control held_valid_add_effect
  held_valid_add_log held_valid_set_healState held_valid_set_strafeDirection
  held_valid_set_equipScheduled held_valid_set_scheduledAttackTimeout
  held_valid_set_torn_down held_valid_set_tasks held_valid_suspend
  held_valid_clearTimeout held_valid_hold_setTimeout
  held_valid_assign_entity : held.
#[local] Hint Extern 2 (held_valid (setTimeout _ _ _)) =>
  apply held_valid_setTimeout; [ | intros ?; discriminate ] : held.

Ltac held_solve :=
  cbv zeta; repeat case_match; eauto 14 with held.

Lemma step_held_valid d ev s : held_valid s -> held_valid (step d ev s).
Proof.
  intros Hs. destruct ev; simpl;
    unfold scan, strafeTick, healListener, fire, scheduledAttack, disengage,
      equipPass, settle, heal_resume, gear_resume, run_gear, scheduleEquip,
      end_session, stopStrafe;
    held_solve.
Qed.

Lemma spawn_held_valid d b : held_valid (spawn d b).
Proof.
  intros tid t r. unfold spawn, scheduleEquip. destruct (advanced d); simpl.
  - rewrite lookup_insert. case_decide; [by intros [= <-] | done].
  - done.
Qed.

Lemma reachable_held_valid d s : reachable d s -> held_valid s.
Proof.
  intros (b & evs & ->). unfold run.
  assert (H : forall s0, held_valid s0 ->
            held_valid (fold_left (fun st ev => step d ev st) evs s0)).
  { induction evs as [|ev evs IH]; intros s0 H0; simpl; [done|].
    apply IH. by apply step_held_valid. }
  apply H, spawn_held_valid.
Qed.

(** [target_is] is identity of entity objects, or [undefined] on both
    sides. *)
Lemma target_is_spec (target : option Entity) (field : EntityField) :
  target_is target field = true <->
  (exists t e, target = Some t /\ field = FieldEntity e /\ eref t = eref e) \/
  (target = None /\ field = FieldUndefined).
Proof.
  destruct target as [t|], field as [| |e]; simpl;
    try (split; [done | intros [(? & ? & ? & ? & ?) | [? ?]]; done]).
  - rewrite Nat.eqb_eq. split.
    + intros H. left. by exists t, e.
    + by intros [(? & ? & [= ->] & [= ->] & ?) | [? ?]].
  - split; [by right | done].
Qed.

(** C7 (as the code has it): when the scheduled attack resolves its target
    and the preset has an [attackDurationMs], a disengage timer is set
    with that delay whose closure holds the player object, which at that
    moment holds the entity the attack resolved. From then on the object's
    [entity] field is whatever the game client last assigned to it. When
    the timer fires it compares [bot.pvp.target] with the entity the held
    player object has then: if they are the same entity object (or both
    [undefined]) it stops the engagement (and releases sprint under
    [maintainSprint]); otherwise it leaves the bot as it is. In a session the controller can be in, every pending
    disengage timer holds an object of the store. *)
Theorem disengage_only_current_entity_of_player
    (d : Difficulty) (s : Session) (tid : nat) (a : option string) :
  (forall target dl ps refreshed duration,
     timers s !! tid = Some (mkTimer (CbAttack target) dl) ->
     bot_entity (bot s) <> None ->
     players (bot s) = Some ps ->
     lookup_player ps (cand_username target) ≫= player_entity = Some refreshed ->
     attackDurationMs d = Some duration ->
     Qeq_bool duration 0 = false ->
     let s' := step d (EvTimer tid a) s in
     timers s' !! nextTimer s
       = Some (mkTimer (CbDisengage (length (heldPlayers s))) duration) /\
     heldPlayers s' = (heldPlayers s ++ [FieldEntity refreshed])%list) /\
  (forall r field,
     let s' := step d (EvPlayerEntity r field) s in
     (r < length (heldPlayers s) -> heldPlayers s' !! r = Some field) /\
     (forall r', r' <> r -> heldPlayers s' !! r' = heldPlayers s !! r') /\
     bot s' = bot s /\ timers s' = timers s) /\
  (forall r dl field,
     timers s !! tid = Some (mkTimer (CbDisengage r) dl) ->
     heldPlayers s !! r = Some field ->
     let s' := step d (EvTimer tid a) s in
     let identical :=
       (exists t e, pvp_target (bot s) = Some t /\ field = FieldEntity e /\
                    eref t = eref e) \/
       (pvp_target (bot s) = None /\ field = FieldUndefined) in
     heldPlayers s' = heldPlayers s /\
     (~ identical -> bot s' = bot s) /\
     (identical ->
        pvp_target (bot s') = None /\
        (maintainSprint d = true ->
           controlState (bot s') !! "sprint" = Some false) /\
        (maintainSprint d = false ->
           controlState (bot s') = controlState (bot s)))) /\
  (reachable d s ->
   forall r dl, timers s !! tid = Some (mkTimer (CbDisengage r) dl) ->
     is_Some (heldPlayers s !! r)).
Proof.
  split; [|split; [|split]]; cycle 3.
  { intros Hr r dl Ht. apply lookup_lt_is_Some.
    by apply (reachable_held_valid d s Hr tid (mkTimer (CbDisengage r) dl) r). }
  - intros target dl ps refreshed duration Ht Hme Hps Hre Hdur Hnz.
    simpl. unfold fire. rewrite Ht. simpl. unfold scheduledAttack. simpl.
    destruct (bot_entity (bot s)); [|done]. rewrite Hps, Hre, Hdur, Hnz.
    repeat case_match; simpl; by rewrite lookup_insert_eq.
  - intros r field. simpl. split; [|split; [|done]].
    + intros Hr. by apply list_lookup_insert_eq.
    + intros r' Hne. by apply list_lookup_insert_ne.
  - intros r dl field Ht Hfield. simpl. unfold fire. rewrite Ht. simpl.
    unfold disengage. simpl. rewrite Hfield. split; [by repeat case_match|].
    pose proof (target_is_spec (pvp_target (bot s)) field) as Hspec.
    destruct (target_is (pvp_target (bot s)) field); split.
    + intros Hno. destruct Hno. by apply Hspec.
    + intros _. destruct (maintainSprint d); simpl.
      * split; [done|]. split; [by rewrite lookup_insert_eq | done].
      * done.
    + done.
    + intros Hyes. apply Hspec in Hyes. done.
Qed.

(** The player "near" is engaged and the timer holds that player's object.
    When the timer fires the engagement stops; had the bot moved on to the
    player "twin" in the meantime, the timer would change nothing. *)
Lemma disengage_only_current_entity_of_player_witness :
  let s := run easy [EvScan 0; EvTimer 0 None] (spawn easy duel_world) in
  let moved_on := step easy (EvWorld twin_engaged_world) s in
  (timers s !! 1 = Some (mkTimer (CbDisengage 0) 4500) /\
   heldPlayers s !! 0 = Some (FieldEntity near_entity) /\
   pvp_target (bot s) = Some near_entity /\
   pvp_target (bot moved_on) = Some twin_entity) /\
  pvp_target (bot (step easy (EvTimer 1 None) s)) = None /\
  bot (step easy (EvTimer 1 None) moved_on) = bot moved_on.
Proof.
  intros s moved_on. split; [by vm_compute|].
  pose proof (disengage_only_current_entity_of_player easy s 1 None)
    as (_ & _ & Hstay & _).
  pose proof (disengage_only_current_entity_of_player easy moved_on 1 None)
    as (_ & _ & Hmoved & _).
  specialize (Hstay 0 4500%Q (FieldEntity near_entity) eq_refl eq_refl).
  specialize (Hmoved 0 4500%Q (FieldEntity near_entity) eq_refl eq_refl).
  cbv zeta in Hstay, Hmoved.
  destruct Hstay as (_ & _ & Hstay). destruct Hmoved as (_ & Hmoved & _).
  split.
  - apply Hstay. left. by exists near_entity, near_entity.
  - apply Hmoved. intros [(t & e & Ht & He & Hsame) | [Ht _]].
    + vm_compute in Ht. injection Ht as <-. injection He as <-. discriminate Hsame.
    + vm_compute in Ht. discriminate Ht.
Defined.

(** The claim as the specification words it fails: the timer set for an
    engagement with entity 2 of the player "near" stops a newer engagement
    with entity 9, a different entity, once the client has given that
    player the new entity. *)
Lemma disengage_stops_newer_engagement :
  let s1 := run easy [EvScan 0; EvTimer 0 None] (spawn easy duel_world) in
  let s2 := run easy [EvWorld reborn_world;
                      EvPlayerEntity 0 (FieldEntity reborn_entity);
                      EvScan 0; EvTimer 2 None] s1 in
  let s3 := step easy (EvTimer 1 None) s2 in
  (pvp_target (bot s1) = Some near_entity /\
   timers s1 !! 1 = Some (mkTimer (CbDisengage 0) 4500) /\
   heldPlayers s1 = [FieldEntity near_entity]) /\
  (effects s2 = [Attack near_entity; Attack reborn_entity] /\
   pvp_target (bot s2) = Some reborn_entity /\
   same_entity (Some reborn_entity) (Some near_entity) = false /\
   timers s2 !! 1 = Some (mkTimer (CbDisengage 0) 4500)) /\
  pvp_target (bot s3) = None.
Proof. vm_compute. repeat split; reflexivity. Qed.

(* ===================================================================== *)
(** ** Equip failures in a gear pass                                      *)
(* ===================================================================== *)

Lemma append_cons (c : ascii) (a b : string) :
  String c a +:+ b = String c (a +:+ b).
Proof. reflexivity. Qed.

Lemma append_empty (b : string) : "" +:+ b = b.
Proof. reflexivity. Qed.

Lemma prefix_spec (pat s : string) :
  String.prefix pat s = true <-> exists post, s = pat +:+ post.
Proof.
  revert s. induction pat as [|c pat IH]; intros s; simpl.
  - split; [intros _; by exists s | by destruct s].
  - destruct s as [|c' s]; simpl.
    + split; [done | intros [post H]; by rewrite append_cons in H].
    + destruct (Ascii.ascii_dec c c') as [<- | Hne].
      * rewrite IH. split; intros [post H]; exists post;
          rewrite append_cons in *; congruence.
      * split; [done | intros [post H]; rewrite append_cons in H; congruence].
Qed.

(** [contains pat s] is the substring test. *)
Lemma contains_spec (pat s : string) :
  contains pat s = true <-> exists pre post, s = pre +:+ pat +:+ post.
Proof.
  induction s as [|c s IH]; cbn [contains].
  - rewrite orb_false_r, prefix_spec. split.
    + intros [post H]. exists "", post. by rewrite append_empty.
    + intros (pre & post & H). destruct pre as [|c' pre].
      * exists post. by rewrite append_empty in H.
      * by rewrite append_cons in H.
  - rewrite orb_true_iff, prefix_spec, IH. split.
    + intros [[post H] | (pre & post & H)].
      * exists "", post. by rewrite append_empty.
      * exists (String c pre), post. rewrite append_cons. by rewrite H.
    + intros (pre & post & H). destruct pre as [|c' pre].
      * left. exists post. by rewrite append_empty in H.
      * right. exists pre, post. rewrite append_cons in H. congruence.
Qed.

(** C8: a gear pass is suspended in [bot.equip], with the calls [rest]
    still to make. When the equip rejects with a message that contains
    "item is not in inventory" (in any letter case), nothing is logged and
    the pass goes on with [rest] exactly as after a successful equip: it
    issues the next equip that [rest] calls for and suspends there, or
    finishes when [rest] calls for none. With any other message the error
    reaches the caller's log, and the pass makes no further equip. *)
Theorem gear_equip_failure_handling
    (d : Difficulty) (s : Session) (k : nat)
    (rest : list (list string * Destination)) (message : string)
    (a : option string) :
  tasks s !! k = Some (GearTask rest) ->
  let s' := step d (EvSettle k (Rejected message) a) s in
  ((exists pre post,
      lower message = pre +:+ "item is not in inventory" +:+ post) ->
   s' = step d (EvSettle k Resolved a) s /\ log s' = log s /\
   match equipBestGear (bot s) rest with
   | PassDone => effects s' = effects s /\ tasks s' = delete k (tasks s)
   | PassAwait best destination rest' =>
     effects s' = (effects s ++ [Equip best destination])%list /\
     tasks s' = <[nextTask s := GearTask rest']> (delete k (tasks s))
   end) /\
  (~ (exists pre post,
        lower message = pre +:+ "item is not in inventory" +:+ post) ->
   log s' = (log s ++
     ["[" +:+ username (bot s) +:+ "] Failed to optimise gear: " +:+ message])%list /\
   effects s' = effects s /\
   tasks s' = delete k (tasks s)).
Proof.
  intros Ht. simpl. unfold settle. rewrite Ht. unfold gear_resume. simpl.
  pose proof (contains_spec "item is not in inventory" (lower message)) as Hc.
  fold (not_in_inventory_test message) in Hc.
  destruct (not_in_inventory_test message) eqn:Etest.
  - split.
    + intros _. split; [done|]. unfold run_gear. simpl.
      by destruct (equipBestGear (bot s) rest).
    + intros Hno. exfalso. apply Hno. by apply Hc.
  - split.
    + intros Hyes. apply Hc in Hyes. done.
    + intros _. done.
Qed.

(** A pass in a kit with a sword and a shield, suspended in the equip of
    the sword. A rejection that says "Item is NOT in Inventory" is
    swallowed and the shield is equipped next; a rejection with another
    message ends the pass with a log line. *)
Lemma gear_equip_failure_handling_witness :
  let s := run godlike [EvTimer 0 None] (spawn godlike kit_world) in
  let swallowed :=
    step godlike
      (EvSettle 0 (Rejected "Equip failed: Item is NOT in Inventory") None) s in
  let rethrown :=
    step godlike (EvSettle 0 (Rejected "Server is busy") None) s in
  (tasks s !! 0 = Some (GearTask (skipn 1 GEAR_SLOTS)) /\
   effects s = [Equip diamond_sword hand] /\ log s = []) /\
  (swallowed = step godlike (EvSettle 0 Resolved None) s /\
   log swallowed = [] /\
   effects swallowed = [Equip diamond_sword hand; Equip shield off_hand] /\
   tasks swallowed !! 0 = None /\
   tasks swallowed !! 1 = Some (GearTask (skipn 2 GEAR_SLOTS))) /\
  (log rethrown = ["[KitPvPBot_1_7] Failed to optimise gear: Server is busy"] /\
   effects rethrown = [Equip diamond_sword hand] /\
   tasks rethrown !! 0 = None /\ tasks rethrown !! 1 = None).
Proof.
  pose proof (gear_equip_failure_handling godlike
                (run godlike [EvTimer 0 None] (spawn godlike kit_world)) 0
                (skipn 1 GEAR_SLOTS)
                "Equip failed: Item is NOT in Inventory" None eq_refl) as Hs.
  pose proof (gear_equip_failure_handling godlike
                (run godlike [EvTimer 0 None] (spawn godlike kit_world)) 0
                (skipn 1 GEAR_SLOTS) "Server is busy" None eq_refl) as Hr.
  cbv zeta in Hs, Hr. destruct Hs as [Hs _]. destruct Hr as [_ Hr].
  assert (Hyes : exists pre post,
            lower "Equip failed: Item is NOT in Inventory"
              = pre +:+ "item is not in inventory" +:+ post)
    by (by exists "equip failed: ", "").
  assert (Hno : ~ exists pre post,
            lower "Server is busy" = pre +:+ "item is not in inventory" +:+ post).
  { intros H. apply contains_spec in H. vm_compute in H. discriminate H. }
  destruct (Hs Hyes) as (Hs1 & Hs2 & Hs3 & Hs4).
  destruct (Hr Hno) as (Hr1 & Hr2 & Hr3).
  intros s swallowed rethrown. split; [by vm_compute|]. split.
  - split; [exact Hs1|]. split; [exact Hs2|]. split; [exact Hs3|]. split.
    + exact (f_equal (fun m => m !! 0) Hs4).
    + exact (f_equal (fun m => m !! 1) Hs4).
  - split; [exact Hr1|]. split; [exact Hr2|]. split.
    + exact (f_equal (fun m => m !! 0) Hr3).
    + exact (f_equal (fun m => m !! 1) Hr3).
Defined.

(* ===================================================================== *)
(** ** Invariants of the session                                          *)
(* ===================================================================== *)

Lemma frame_refl s : frame s s.
Proof. constructor; auto. Qed.

Lemma frame_inv s s' : session_inv s -> frame s s' -> session_inv s'.
Proof.
  intros [Hft Hfk Hh Ha Hpf Hpu Hst] [Fh Ff Fn Ft Fnk Fk Fs]. constructor.
  - intros tid t [H | H]%Ft; [apply Hft in H|]; lia.
  - intros k t [H | H]%Fk; [apply Hfk in H|]; lia.
  - intros sa Hsa. rewrite Fh in Hsa. destruct (Hh _ Hsa) as [Hlt Hat].
    split; [lia|]. intros t [H | H]%Ft; [by apply Hat | lia].
  - intros tid t [H | (_ & H & _)]%Ft Hatt; [|congruence].
    rewrite Fh. by apply (Ha tid t).
  - intros tid t [H | (_ & _ & H)]%Ft Hp; [|congruence].
    rewrite Ff. by apply (Hpf tid t).
  - intros tid1 tid2 t1 t2 [H1 | (_ & _ & H1)]%Ft [H2 | (_ & _ & H2)]%Ft Hp1 Hp2;
      try congruence.
    by apply (Hpu tid1 tid2 t1 t2).
  - destruct Fs as [-> | ->]; [done|]. lia.
Qed.

(** The primitive operations, each as a step that extends a frame. *)
Lemma frame_set_bot s0 s v : frame s0 s -> frame s0 (set_bot v s).
Proof. intros []. by constructor. Qed.

Lemma frame_control s0 s key v : frame s0 s -> frame s0 (control key v s).
Proof. intros []. by constructor. Qed.

Lemma frame_add_effect s0 s e : frame s0 s -> frame s0 (add_effect e s).
Proof. intros []. by constructor. Qed.

Lemma frame_add_log s0 s m : frame s0 s -> frame s0 (add_log m s).
Proof. intros []. by constructor. Qed.

Lemma frame_set_healState s0 s v : frame s0 s -> frame s0 (set_healState v s).
Proof. intros []. by constructor. Qed.

Lemma frame_set_torn_down s0 s v : frame s0 s -> frame s0 (set_torn_down v s).
Proof. intros []. by constructor. Qed.

Lemma frame_hold s0 s v : frame s0 s -> frame s0 (hold v s).
Proof. intros []. by constructor. Qed.

Lemma frame_assign_entity s0 s r v : frame s0 s -> frame s0 (assign_entity r v s).
Proof. intros []. by constructor. Qed.

Lemma frame_flip s0 s :
  frame s0 s -> frame s0 (set_strafeDirection (strafeDirection s * -1) s).
Proof.
  intros [? ? ? ? ? ? Fs]. constructor; try done. simpl.
  destruct Fs as [-> | ->]; [right | left]; lia.
Qed.

Lemma frame_setTimeout s0 s cb dl :
  is_attack cb = false -> is_pass cb = false ->
  frame s0 s -> frame s0 (setTimeout cb dl s).
Proof.
  intros Ha Hp [? ? Fn Ft ? ? ?]. constructor; try done; simpl; [lia|].
  intros tid t. rewrite lookup_insert. case_decide as Htid.
  - intros [= <-]. right. simpl. split; [lia | done].
  - intros [H | H]%Ft; [by left | right]. split; [lia | tauto].
Qed.

Lemma frame_clearTimeout s0 s tid : frame s0 s -> frame s0 (clearTimeout tid s).
Proof.
  intros [? ? Fn Ft ? ? ?]. constructor; try done; simpl.
  intros tid' t. rewrite lookup_delete. case_decide; [done | apply Ft].
Qed.

Lemma frame_suspend s0 s t : frame s0 s -> frame s0 (suspend t s).
Proof.
  intros [? ? ? ? Fn Fk ?]. constructor; try done; simpl; [lia|].
  intros k t'. rewrite lookup_insert. case_decide as Hk.
  - intros _. right. lia.
  - intros [H | H]%Fk; [by left | right; lia].
Qed.

Lemma frame_drop_task s0 s k :
  frame s0 s -> frame s0 (set_tasks (delete k (tasks s)) (nextTask s) s).
Proof.
  intros [? ? ? ? Fn Fk ?]. constructor; try done; simpl.
  intros k' t. rewrite lookup_delete. case_decide; [done | apply Fk].
Qed.

Create HintDb frame discriminated.
#[local] Hint Resolve frame_hold frame_assign_entity : frame.
#[local] Hint Resolve frame_refl frame_set_bot frame_control frame_add_effect
  frame_add_log frame_set_healState frame_set_torn_down frame_flip
  frame_clearTimeout frame_suspend frame_drop_task : frame.
#[local] Hint Extern 2 (frame _ (setTimeout _ _ _)) =>
  apply frame_setTimeout; [reflexivity | reflexivity |] : frame.

Ltac frame_solve :=
  cbv zeta; repeat case_match; eauto 12 with frame.

Lemma frame_stopStrafe s0 s : frame s0 s -> frame s0 (stopStrafe s).
Proof. intros. unfold stopStrafe. frame_solve. Qed.

Lemma frame_run_gear s0 s calls : frame s0 s -> frame s0 (run_gear calls s).
Proof. intros. unfold run_gear. frame_solve. Qed.

#[local] Hint Resolve frame_stopStrafe frame_run_gear : frame.

Lemma frame_scheduledAttack s0 s d target a :
  frame s0 s -> frame s0 (scheduledAttack d target a s).
Proof. intros. unfold scheduledAttack. frame_solve. Qed.

Lemma frame_disengage s0 s d e : frame s0 s -> frame s0 (disengage d e s).
Proof. intros. unfold disengage. frame_solve. Qed.

Lemma frame_strafeTick s0 s adv rnd : frame s0 s -> frame s0 (strafeTick adv rnd s).
Proof. intros. unfold strafeTick. frame_solve. Qed.

Lemma frame_healListener s0 s adv now : frame s0 s -> frame s0 (healListener adv now s).
Proof. intros. unfold healListener. frame_solve. Qed.

Lemma frame_heal_resume s0 s soup now o a :
  frame s0 s -> frame s0 (heal_resume soup now o a s).
Proof. intros. unfold heal_resume. frame_solve. Qed.

Lemma frame_gear_resume s0 s rest o : frame s0 s -> frame s0 (gear_resume rest o s).
Proof. intros. unfold gear_resume. frame_solve. Qed.

Lemma frame_settle s0 s k o a : frame s0 s -> frame s0 (settle k o a s).
Proof.
  intros. unfold settle. repeat case_match; auto.
  - apply frame_heal_resume. auto with frame.
  - apply frame_gear_resume. auto with frame.
Qed.

Lemma frame_end_session s0 s d : frame s0 s -> frame s0 (end_session d s).
Proof. intros. unfold end_session. frame_solve. Qed.

#[local] Hint Resolve frame_scheduledAttack frame_disengage frame_strafeTick
  frame_healListener frame_settle frame_end_session : frame.

Lemma scheduleEquip_inv s : session_inv s -> session_inv (scheduleEquip s).
Proof.
  intros Hinv. unfold scheduleEquip.
  destruct (equipScheduled s) eqn:Eflag; [done|].
  destruct Hinv as [Hft Hfk Hh Ha Hpf Hpu Hst].
  assert (Hnone : forall tid t, timers s !! tid = Some t ->
                                is_pass (callback t) = false).
  { intros tid t H. destruct (is_pass (callback t)) eqn:E; [|done].
    rewrite (Hpf tid t H E) in Eflag. done. }
  constructor; simpl; try done.
  - intros tid t. rewrite lookup_insert. case_decide as Hdec; [lia|].
    intros H%Hft. lia.
  - intros sa Hsa. destruct (Hh _ Hsa) as [Hlt Hat]. split; [lia|].
    intros t. rewrite lookup_insert_ne by lia. apply Hat.
  - intros tid t. rewrite lookup_insert. case_decide as Hdec; [by intros [= <-]|].
    apply Ha.
  - intros tid1 tid2 t1 t2. rewrite !lookup_insert.
    repeat case_decide; try congruence.
    + intros _ Hy _ Hp. rewrite (Hnone _ _ Hy) in Hp. done.
    + intros Hx _ Hp _. rewrite (Hnone _ _ Hx) in Hp. done.
    + intros Hx _ Hp _. rewrite (Hnone _ _ Hx) in Hp. done.
Qed.

(** The gear-pass callback: its timer has just fired, the flag is
    cleared. *)
Lemma equipPass_inv s tid t :
  session_inv s -> timers s !! tid = Some t -> is_pass (callback t) = true ->
  session_inv (equipPass (clearTimeout tid s)).
Proof.
  intros Hinv Ht Hp. unfold equipPass.
  eapply frame_inv; [|apply frame_run_gear, frame_refl].
  destruct Hinv as [Hft Hfk Hh Ha Hpf Hpu Hst].
  constructor; simpl; try done.
  - intros tid' t'. rewrite lookup_delete. case_decide as Hdec; [done | apply Hft].
  - intros sa Hsa. destruct (Hh _ Hsa) as [Hlt Hat]. split; [done|].
    intros t'. rewrite lookup_delete. case_decide as Hdec; [done | apply Hat].
  - intros tid' t'. rewrite lookup_delete. case_decide as Hdec; [done | apply Ha].
  - intros tid' t'. rewrite lookup_delete. case_decide as Hne; [done|].
    intros H' Hp'. exfalso. apply Hne. by apply (Hpu tid tid' t t').
  - intros tid1 tid2 t1 t2. rewrite !lookup_delete.
    repeat case_decide; try done. apply Hpu.
Qed.

(** The branch of [scan] that found a target. *)
Lemma scan_schedule_inv s target dl :
  session_inv s ->
  let s1 := match scheduledAttackTimeout s with
            | Some tid => clearTimeout tid s
            | None => s
            end in
  session_inv (set_scheduledAttackTimeout (Some (nextTimer s1))
                 (setTimeout (CbAttack target) dl s1)).
Proof.
  intros [Hft Hfk Hh Ha Hpf Hpu Hst] s1.
  assert (Hs1 : nextTimer s1 = nextTimer s /\ tasks s1 = tasks s /\
                nextTask s1 = nextTask s /\ equipScheduled s1 = equipScheduled s /\
                strafeDirection s1 = strafeDirection s /\
                forall tid t, timers s1 !! tid = Some t ->
                  timers s !! tid = Some t /\ is_attack (callback t) = false).
  { subst s1. destruct (scheduledAttackTimeout s) as [sa|] eqn:Esa; simpl.
    - repeat split; try done.
      + rewrite lookup_delete in H. case_decide as Hdec; done.
      + rewrite lookup_delete in H. case_decide as Hne; [done|].
        destruct (is_attack (callback t)) eqn:E; [|done].
        specialize (Ha _ _ H E). congruence.
    - repeat split; try done.
      destruct (is_attack (callback t)) eqn:E; [|done].
      specialize (Ha _ _ H E). congruence. }
  destruct Hs1 as (Hn & Hk & Hnk & Hf & Hsd & Ht).
  constructor; simpl.
  - intros tid t. rewrite lookup_insert. case_decide as Hdec; [lia|].
    intros [H _]%Ht. apply Hft in H. lia.
  - rewrite Hk, Hnk. apply Hfk.
  - intros sa [= <-]. split; [lia|]. intros t.
    rewrite lookup_insert_eq. by intros [= <-].
  - intros tid t. rewrite lookup_insert. case_decide as Hdec; [by intros _ _; f_equal|].
    intros [_ H]%Ht. congruence.
  - intros tid t. rewrite lookup_insert. case_decide as Hdec; [by intros [= <-]|].
    intros [H _]%Ht. rewrite Hf. by apply (Hpf tid t).
  - intros tid1 tid2 t1 t2. rewrite !lookup_insert.
    repeat case_decide; try (by intros [= <-]); try (by intros _ [= <-]).
    intros [Hx _]%Ht [Hy _]%Ht. by apply (Hpu tid1 tid2 t1 t2).
  - by rewrite Hsd.
Qed.

Lemma scan_inv d rnd s : session_inv s -> session_inv (scan d rnd s).
Proof.
  intros Hinv. unfold scan.
  destruct (bot_entity (bot s)); [|done].
  destruct (findClosestPlayer (bot s) scanRadiusSq) as [target|].
  - by apply scan_schedule_inv.
  - eapply frame_inv; [done|]. frame_solve.
Qed.

Lemma fire_inv d tid a s : session_inv s -> session_inv (fire d tid a s).
Proof.
  intros Hinv. unfold fire.
  destruct (timers s !! tid) as [t|] eqn:Ht; [|done].
  destruct (callback t) eqn:Ecb; cbv zeta.
  - eapply frame_inv; [done|]. auto with frame.
  - eapply frame_inv; [done|]. auto with frame.
  - apply (equipPass_inv s tid t); [done | done | by rewrite Ecb].
  - apply scheduleEquip_inv. eapply frame_inv; [done|]. auto with frame.
  - eapply frame_inv; [done|]. auto with frame.
  - eapply frame_inv; [done|]. auto with frame.
  - eapply frame_inv; [done|]. auto with frame.
Qed.

Lemma step_inv d ev s : session_inv s -> session_inv (step d ev s).
Proof.
  intros Hinv. destruct ev; simpl.
  - eapply frame_inv; [done|]. auto with frame.
  - destruct (scanInterval s); [by apply scan_inv | done].
  - repeat case_match; try done. eapply frame_inv; [done|]. auto with frame.
  - repeat case_match; try done. eapply frame_inv; [done|]. auto with frame.
  - destruct (inventoryListening s); [by apply scheduleEquip_inv | done].
  - case_match; [by apply scheduleEquip_inv | done].
  - case_match; [|done]. eapply frame_inv; [done|]. frame_solve.
  - case_match; [|done]. eapply frame_inv; [done|]. frame_solve.
  - by apply fire_inv.
  - eapply frame_inv; [done|]. auto with frame.
  - eapply frame_inv; [done|]. auto with frame.
  - eapply frame_inv; [done|]. auto with frame.
Qed.

Lemma spawn_inv d b : session_inv (spawn d b).
Proof.
  unfold spawn. destruct (advanced d); constructor; simpl; try done;
    try (by left).
  - intros tid t. rewrite lookup_insert. case_decide as Hdec; [lia | done].
  - intros tid t. rewrite lookup_insert. case_decide as Hdec; [by intros [= <-] | done].
  - intros tid1 tid2 t1 t2. rewrite !lookup_insert.
    repeat case_decide; try done. congruence.
Qed.

Lemma run_inv d evs s : session_inv s -> session_inv (run d evs s).
Proof.
  revert s. induction evs as [|ev evs IH]; intros s Hinv; simpl; [done|].
  apply IH. by apply step_inv.
Qed.

Lemma reachable_inv d s : reachable d s -> session_inv s.
Proof. intros (b & evs & ->). apply run_inv, spawn_inv. Qed.


(* ===================================================================== *)
(** ** Scheduled attacks                                                  *)
(* ===================================================================== *)

(** C2: in every state of a session at most one attack timer is pending.
    A scan that finds a candidate cancels the attack timer that was pending
    and sets its own, so that afterwards the only pending attack timer is
    the one this scan scheduled. *)
Theorem at_most_one_pending_attack_timer
    (d : Difficulty) (b : Bot) (evs : list Event) :
  let s := run d evs (spawn d b) in
  (forall tid1 tid2 t1 t2,
     timers s !! tid1 = Some t1 -> timers s !! tid2 = Some t2 ->
     is_attack (callback t1) = true -> is_attack (callback t2) = true ->
     tid1 = tid2) /\
  (forall rnd target,
     scanInterval s = true ->
     bot_entity (bot s) <> None ->
     findClosestPlayer (bot s) scanRadiusSq = Some target ->
     let s' := step d (EvScan rnd) s in
     (exists dl, timers s' !! nextTimer s = Some (mkTimer (CbAttack target) dl)) /\
     scheduledAttackTimeout s' = Some (nextTimer s) /\
     (forall tid t, timers s !! tid = Some t ->
        is_attack (callback t) = true -> timers s' !! tid = None) /\
     (forall tid t, timers s' !! tid = Some t ->
        is_attack (callback t) = true -> tid = nextTimer s)).
Proof.
  intros s.
  assert (Hinv : session_inv s) by apply run_inv, spawn_inv.
  split.
  - intros tid1 tid2 t1 t2 H1 H2 Ha1 Ha2.
    pose proof (inv_attack s Hinv _ _ H1 Ha1) as E1.
    pose proof (inv_attack s Hinv _ _ H2 Ha2) as E2. congruence.
  - intros rnd target Hint Hme Htarget s'.
    assert (Hs' : session_inv s') by by apply step_inv.
    assert (Es' : s' = scan d rnd s) by (subst s'; simpl; by rewrite Hint).
    assert (Hn : scheduledAttackTimeout s' = Some (nextTimer s)).
    { rewrite Es'. unfold scan. destruct (bot_entity (bot s)); [|done].
      rewrite Htarget. by destruct (scheduledAttackTimeout s). }
    assert (Hnew : exists dl,
               timers s' !! nextTimer s = Some (mkTimer (CbAttack target) dl)).
    { rewrite Es'. unfold scan. destruct (bot_entity (bot s)); [|done].
      rewrite Htarget. eexists.
      destruct (scheduledAttackTimeout s); simpl; by rewrite lookup_insert_eq. }
    repeat split; try done.
    + intros tid t Ht Ha.
      pose proof (inv_attack s Hinv _ _ Ht Ha) as Esa.
      pose proof (inv_fresh_timers s Hinv _ _ Ht) as Hlt.
      rewrite Es'. unfold scan. destruct (bot_entity (bot s)); [|done].
      rewrite Htarget, Esa. simpl.
      rewrite lookup_insert_ne by lia. by rewrite lookup_delete_eq.
    + intros tid t Ht Ha.
      pose proof (inv_attack s' Hs' _ _ Ht Ha) as Esa. congruence.
Qed.

(** Two scans in a row: the first attack timer (id 0) is cancelled by the
    second scan and firing it afterwards does nothing. *)
Example second_scan_cancels_first :
  let s := run easy [EvScan (1 # 2); EvScan (1 # 4)] (spawn easy duel_world) in
  timers s !! 0%nat = None /\
  timers s !! 1%nat
    = Some (mkTimer (CbAttack (mkCandidate "near" near_entity)) (4900 # 4)) /\
  step easy (EvTimer 0 None) s = s.
Proof. vm_compute. done. Qed.

(* ===================================================================== *)
(** ** The gear-pass debounce                                             *)
(* ===================================================================== *)

(** C3, as the code has it: in every state of a session at most one
    gear-pass timer is pending (a pass that is scheduled and has not
    started), and then [equipScheduled] is set; [scheduleEquip] called
    while the flag is set changes nothing; the flag is cleared when the
    timer fires, before the pass makes its first equip. *)
Theorem scheduleEquip_at_most_one_scheduled
    (d : Difficulty) (b : Bot) (evs : list Event) :
  let s := run d evs (spawn d b) in
  (forall tid1 tid2 t1 t2,
     timers s !! tid1 = Some t1 -> timers s !! tid2 = Some t2 ->
     is_pass (callback t1) = true -> is_pass (callback t2) = true ->
     tid1 = tid2) /\
  (forall tid t, timers s !! tid = Some t ->
     is_pass (callback t) = true -> equipScheduled s = true) /\
  (equipScheduled s = true -> scheduleEquip s = s) /\
  (forall tid t a, timers s !! tid = Some t ->
     is_pass (callback t) = true ->
     equipScheduled (step d (EvTimer tid a) s) = false).
Proof.
  intros s.
  assert (Hinv : session_inv s) by apply run_inv, spawn_inv.
  split; [apply (inv_pass_unique s Hinv)|].
  split; [apply (inv_pass_flag s Hinv)|].
  split.
  - intros Hflag. unfold scheduleEquip. by rewrite Hflag.
  - intros tid t a Ht Hp. simpl. unfold fire. rewrite Ht.
    destruct (callback t); try done. unfold equipPass, run_gear.
    by case_match.
Qed.

(** C3 as stated fails: the first pass is suspended in [bot.equip] when an
    inventory update requests another pass; the request is not dropped,
    and both passes are in flight, each waiting for its own equip. *)
Lemma two_gear_passes_in_flight :
  let s := run godlike [EvTimer 0 None; EvUpdateSlot; EvTimer 1 None]
             (spawn godlike armed_world) in
  tasks s !! 0%nat = Some (GearTask (skipn 1 GEAR_SLOTS)) /\
  tasks s !! 1%nat = Some (GearTask (skipn 1 GEAR_SLOTS)) /\
  effects s = [Equip diamond_sword hand; Equip diamond_sword hand].
Proof. vm_compute. done. Qed.

(* ===================================================================== *)
(** ** Strafing                                                           *)
(* ===================================================================== *)

(** C9: a strafe tick without an engagement target releases 'left',
    'right' and 'jump' and changes nothing else; with a target it negates
    [strafeDirection] (which is 1 or -1) and presses exactly one of
    'right' and 'left': 'right' when the new direction is 1, 'left' when
    it is -1. *)
Theorem strafeTick_flips_direction
    (d : Difficulty) (adv : Advanced) (b : Bot) (evs : list Event) (rnd : Q) :
  advanced d = Some adv ->
  let s := run d evs (spawn d b) in
  strafeInterval s = true ->
  let s' := step d (EvStrafeTick rnd) s in
  match pvp_target (bot s) with
  | None =>
    s' = set_bot
           (mkBot (username (bot s)) (bot_entity (bot s)) (players (bot s))
              (health (bot s)) (inventory (bot s))
              (getEquipmentDestSlot (bot s)) (pvp_target (bot s))
              (<["jump" := false]>
                 (<["right" := false]>
                    (<["left" := false]> (controlState (bot s)))))) s
  | Some _ =>
    strafeDirection s' = (- strafeDirection s)%Z /\
    ((strafeDirection s' = 1%Z /\
      controlState (bot s') !! "right" = Some true /\
      controlState (bot s') !! "left" = Some false) \/
     (strafeDirection s' = (-1)%Z /\
      controlState (bot s') !! "right" = Some false /\
      controlState (bot s') !! "left" = Some true))
  end.
Proof.
  intros Hadv s Hint s'.
  assert (Hinv : session_inv s) by apply run_inv, spawn_inv.
  subst s'. simpl. rewrite Hadv, Hint. unfold strafeTick.
  destruct (pvp_target (bot s)) as [t|] eqn:Et;
    [|unfold stopStrafe, control, setControlState, set_bot; simpl;
      by rewrite Et].
  pose proof (inv_strafe s Hinv) as Hdir. cbv zeta.
  assert (Hflip : (strafeDirection s * -1 = - strafeDirection s)%Z) by lia.
  case_match; simpl; rewrite Hflip; (split; [done|]);
    destruct Hdir as [-> | ->]; simpl; [right | left | right | left];
    (split; [done|]); by simplify_map_eq.
Qed.

Lemma strafeTick_flips_direction_witness :
  let s := run godlike [] (spawn godlike engaged_world) in
  let s' := step godlike (EvStrafeTick (1 # 2)) s in
  match pvp_target (bot s) with
  | None =>
    s' = set_bot
           (mkBot (username (bot s)) (bot_entity (bot s)) (players (bot s))
              (health (bot s)) (inventory (bot s))
              (getEquipmentDestSlot (bot s)) (pvp_target (bot s))
              (<["jump" := false]>
                 (<["right" := false]>
                    (<["left" := false]> (controlState (bot s)))))) s
  | Some _ =>
    strafeDirection s' = (- strafeDirection s)%Z /\
    ((strafeDirection s' = 1%Z /\
      controlState (bot s') !! "right" = Some true /\
      controlState (bot s') !! "left" = Some false) \/
     (strafeDirection s' = (-1)%Z /\
      controlState (bot s') !! "right" = Some false /\
      controlState (bot s') !! "left" = Some true))
  end.
Proof.
  apply (strafeTick_flips_direction godlike
           (mkAdvanced 650 220 (35 # 100) 14 5500 (13 # 10))
           engaged_world [] (1 # 2)); reflexivity.
Defined.

(* ===================================================================== *)
(** ** A heal whose equip fails                                           *)
(* ===================================================================== *)

(** C10: [attemptHeal] is suspended in [bot.equip]. When the equip
    rejects, [lastHeal] keeps its value, no item is used, the error
    reaches [healListener]'s log, and the only new timer is the one that,
    when it fires, clears [inProgress]. *)
Theorem failed_heal_keeps_cooldown
    (d : Difficulty) (s : Session) (k : nat) (soup goldenApple : option Item)
    (now : Z) (message : string) (a : option string) :
  tasks s !! k = Some (HealTask soup goldenApple now) ->
  let s' := step d (EvSettle k (Rejected message) a) s in
  lastHeal (healState s') = lastHeal (healState s) /\
  inProgress (healState s') = inProgress (healState s) /\
  effects s' = effects s /\
  log s' = (log s ++
    ["[" +:+ username (bot s) +:+ "] Failed to heal: " +:+ message])%list /\
  timers s' =
    <[nextTimer s :=
        mkTimer CbResetInProgress
          (match soup with Some _ => 600%Q | None => 2000%Q end)]> (timers s) /\
  inProgress (healState (step d (EvTimer (nextTimer s) None) s')) = false.
Proof.
  intros Ht. simpl. unfold settle. rewrite Ht. unfold heal_resume. simpl.
  repeat split; try done.
  - by destruct soup.
  - unfold fire. simpl. rewrite lookup_insert_eq. done.
Qed.

Lemma failed_heal_keeps_cooldown_witness :
  let s := run godlike [EvHealth 1700000000000] (spawn godlike hurt_world) in
  let s' := step godlike (EvSettle 0 (Rejected "windowClick timed out") None) s in
  lastHeal (healState s') = lastHeal (healState s) /\
  inProgress (healState s') = inProgress (healState s) /\
  effects s' = effects s /\
  log s' = (log s ++
    ["[" +:+ username (bot s) +:+ "] Failed to heal: "
       +:+ "windowClick timed out"])%list /\
  timers s' =
    <[nextTimer s := mkTimer CbResetInProgress 600%Q]> (timers s) /\
  inProgress (healState (step godlike (EvTimer (nextTimer s) None) s')) = false.
Proof.
  apply (failed_heal_keeps_cooldown godlike
           (run godlike [EvHealth 1700000000000] (spawn godlike hurt_world))
           0 (Some mushroom_stew) None 1700000000000
           "windowClick timed out" None).
  vm_compute. reflexivity.
Defined.

(* ===================================================================== *)
(** ** Pending timers and suspended functions stay until they are due     *)
(* ===================================================================== *)

Section Keep.
Variables X Y : nat -> Prop.
Variable s0 : Session.

Lemma keep_refl : keep X Y s0 s0.
Proof. constructor; auto. Qed.

Lemma keep_set_bot s v : keep X Y s0 s -> keep X Y s0 (set_bot v s).
Proof. intros []. by constructor. Qed.

Lemma keep_control s key v : keep X Y s0 s -> keep X Y s0 (control key v s).
Proof. intros []. by constructor. Qed.

Lemma keep_add_effect s e : keep X Y s0 s -> keep X Y s0 (add_effect e s).
Proof. intros []. by constructor. Qed.

Lemma keep_add_log s m : keep X Y s0 s -> keep X Y s0 (add_log m s).
Proof. intros []. by constructor. Qed.

Lemma keep_set_healState s v : keep X Y s0 s -> keep X Y s0 (set_healState v s).
Proof. intros []. by constructor. Qed.

Lemma keep_set_torn_down s v : keep X Y s0 s -> keep X Y s0 (set_torn_down v s).
Proof. intros []. by constructor. Qed.

Lemma keep_hold s v : keep X Y s0 s -> keep X Y s0 (hold v s).
Proof. intros []. by constructor. Qed.

Lemma keep_assign_entity s r v : keep X Y s0 s -> keep X Y s0 (assign_entity r v s).
Proof. intros []. by constructor. Qed.

Lemma keep_set_strafeDirection s v :
  keep X Y s0 s -> keep X Y s0 (set_strafeDirection v s).
Proof. intros []. by constructor. Qed.

Lemma keep_set_equipScheduled s v :
  keep X Y s0 s -> keep X Y s0 (set_equipScheduled v s).
Proof. intros []. by constructor. Qed.

Lemma keep_set_scheduledAttackTimeout s v :
  keep X Y s0 s -> keep X Y s0 (set_scheduledAttackTimeout v s).
Proof. intros []. by constructor. Qed.

Lemma keep_setTimeout s cb dl : keep X Y s0 s -> keep X Y s0 (setTimeout cb dl s).
Proof.
  intros [Kn ? Kt ?]. constructor; try done; simpl; [lia|].
  intros tid t Ht Hlt Hx. rewrite lookup_insert_ne by lia. by apply Kt.
Qed.

Lemma keep_clearTimeout s tid :
  X tid -> keep X Y s0 s -> keep X Y s0 (clearTimeout tid s).
Proof.
  intros Hx [Kn ? Kt ?]. constructor; try done; simpl.
  intros tid' t Ht Hlt Hnx. rewrite lookup_delete_ne by congruence.
  by apply Kt.
Qed.

Lemma keep_suspend s t : keep X Y s0 s -> keep X Y s0 (suspend t s).
Proof.
  intros [? Kn ? Kk]. constructor; try done; simpl; [lia|].
  intros k t' Ht Hlt Hy. rewrite lookup_insert_ne by lia. by apply Kk.
Qed.

Lemma keep_drop_task s k :
  Y k -> keep X Y s0 s ->
  keep X Y s0 (set_tasks (delete k (tasks s)) (nextTask s) s).
Proof.
  intros Hy [? Kn ? Kk]. constructor; try done; simpl.
  intros k' t Ht Hlt Hny. rewrite lookup_delete_ne by congruence.
  by apply Kk.
Qed.
End Keep.

Create HintDb keep discriminated.
#[local] Hint Resolve keep_hold keep_assign_entity : keep.
#[local] Hint Resolve keep_refl keep_set_bot keep_control keep_add_effect
  keep_add_log keep_set_healState keep_set_torn_down keep_set_strafeDirection
  keep_set_equipScheduled keep_set_scheduledAttackTimeout keep_setTimeout
  keep_suspend : keep.

Ltac keep_solve :=
  cbv zeta; repeat case_match; eauto 14 with keep.

Lemma keep_stopStrafe X Y s0 s : keep X Y s0 s -> keep X Y s0 (stopStrafe s).
Proof. intros. unfold stopStrafe. keep_solve. Qed.

Lemma keep_run_gear X Y s0 s calls : keep X Y s0 s -> keep X Y s0 (run_gear calls s).
Proof. intros. unfold run_gear. keep_solve. Qed.

Lemma keep_scheduleEquip X Y s0 s : keep X Y s0 s -> keep X Y s0 (scheduleEquip s).
Proof. intros. unfold scheduleEquip. keep_solve. Qed.

#[local] Hint Resolve keep_stopStrafe keep_run_gear keep_scheduleEquip : keep.

Lemma keep_scheduledAttack X Y s0 s d target a :
  keep X Y s0 s -> keep X Y s0 (scheduledAttack d target a s).
Proof. intros. unfold scheduledAttack. keep_solve. Qed.

Lemma keep_heal_resume X Y s0 s soup now o a :
  keep X Y s0 s -> keep X Y s0 (heal_resume soup now o a s).
Proof. intros. unfold heal_resume. keep_solve. Qed.

#[local] Hint Resolve keep_scheduledAttack keep_heal_resume : keep.

#[local] Hint Extern 3 (keep _ _ _ (clearTimeout _ _)) =>
  apply keep_clearTimeout; [solve [by right | left; by eexists] |] : keep.
#[local] Hint Extern 3 (keep _ _ _ (set_tasks (delete _ _) _ _)) =>
  apply keep_drop_task; [by do 2 eexists |] : keep.

(** One event removes at most the timer it fires and the timer behind the
    attack handle, and resumes at most the function it settles. *)
Lemma step_keep d ev s :
  keep (fun tid => (exists a, ev = EvTimer tid a) \/
                   scheduledAttackTimeout s = Some tid)
       (fun k => exists o a, ev = EvSettle k o a)
       s (step d ev s).
Proof.
  destruct ev; simpl.
  - keep_solve.
  - unfold scan. keep_solve.
  - unfold strafeTick. keep_solve.
  - unfold healListener. keep_solve.
  - keep_solve.
  - keep_solve.
  - keep_solve.
  - keep_solve.
  - unfold fire, disengage, equipPass. keep_solve.
  - unfold settle, gear_resume. keep_solve.
  - unfold end_session. keep_solve.
  - keep_solve.
Qed.

Lemma step_keeps_timer d ev s tid t :
  session_inv s -> timers s !! tid = Some t ->
  is_attack (callback t) = false ->
  (forall a, ev <> EvTimer tid a) ->
  timers (step d ev s) !! tid = Some t.
Proof.
  intros Hinv Ht Hna Hev.
  apply (kp_timers _ _ _ _ (step_keep d ev s)); [done | |].
  - by apply (inv_fresh_timers s Hinv tid t).
  - intros [[a ->] | Hsa]; [by apply (Hev a)|].
    destruct (inv_handle s Hinv _ Hsa) as [_ Hat].
    rewrite (Hat _ Ht) in Hna. done.
Qed.

Lemma step_keeps_task d ev s k t :
  session_inv s -> tasks s !! k = Some t ->
  (forall o a, ev <> EvSettle k o a) ->
  tasks (step d ev s) !! k = Some t.
Proof.
  intros Hinv Ht Hev.
  apply (kp_tasks _ _ _ _ (step_keep d ev s)); [done | |].
  - by apply (inv_fresh_tasks s Hinv k t).
  - intros (o & a & ->). by apply (Hev o a).
Qed.

Lemma run_keeps_timer d evs s tid t :
  session_inv s -> timers s !! tid = Some t ->
  is_attack (callback t) = false ->
  Forall (fun ev => forall a, ev <> EvTimer tid a) evs ->
  timers (run d evs s) !! tid = Some t.
Proof.
  revert s. induction evs as [|ev evs IH]; intros s Hinv Ht Hna Hevs; [done|].
  inversion Hevs as [|? ? Hev Hrest]; subst. simpl. apply IH; try done.
  - by apply step_inv.
  - by apply step_keeps_timer.
Qed.

Lemma run_keeps_task d evs s k t :
  session_inv s -> tasks s !! k = Some t ->
  Forall (fun ev => forall o a, ev <> EvSettle k o a) evs ->
  tasks (run d evs s) !! k = Some t.
Proof.
  revert s. induction evs as [|ev evs IH]; intros s Hinv Ht Hevs; [done|].
  inversion Hevs as [|? ? Hev Hrest]; subst. simpl. apply IH; try done.
  - by apply step_inv.
  - by apply step_keeps_task.
Qed.

(* ===================================================================== *)
(** ** The heal in progress is always unwound                             *)
(* ===================================================================== *)

(** C6: whenever a 'health' event makes [attemptHeal] set [inProgress], the
    heal is unwound: once the awaited equip has settled, with success or
    with an error, the reset timer is pending and clears [inProgress] when
    it fires. *)
Theorem inProgress_always_cleared
    (d : Difficulty) (b : Bot) (evs0 : list Event) (now : Z) :
  let s := run d evs0 (spawn d b) in
  inProgress (healState s) = false ->
  inProgress (healState (step d (EvHealth now) s)) = true ->
  heal_unwinds d (step d (EvHealth now) s) now.
Proof.
  intros s Hidle Hset.
  assert (Hinv : session_inv s) by apply run_inv, spawn_inv.
  assert (Hinv1 : session_inv (step d (EvHealth now) s)) by by apply step_inv.
  assert (Hstart : exists soup goldenApple,
            tasks (step d (EvHealth now) s) !! nextTask s
              = Some (HealTask soup goldenApple now)).
  { revert Hset. simpl. destruct (advanced d) as [adv|]; [|congruence].
    destruct (listening s); [|congruence]. unfold healListener.
    destruct (attemptHeal_guard _ _ _ _) as [|soup goldenApple]; [congruence|].
    intros _. exists soup, goldenApple.
    destruct soup, goldenApple; simpl; by rewrite lookup_insert_eq. }
  destruct Hstart as (soup & goldenApple & Hk).
  exists (nextTask s), soup, goldenApple. split; [done|].
  intros evs1 o a Hevs1 s2.
  set (sA := run d evs1 (step d (EvHealth now) s)) in *.
  assert (HinvA : session_inv sA) by by apply run_inv.
  assert (HkA : tasks sA !! nextTask s = Some (HealTask soup goldenApple now))
    by by apply run_keeps_task.
  assert (Hinv2 : session_inv s2) by by apply step_inv.
  assert (Hreset : exists tid,
            timers s2 !! tid
              = Some (mkTimer CbResetInProgress
                        (match soup with Some _ => 600%Q | None => 2000%Q end))).
  { subst s2. simpl. unfold settle. rewrite HkA. unfold heal_resume. cbv zeta.
    destruct o as [|message]; [destruct a as [message|]|].
    - exists (nextTimer sA). simpl. rewrite lookup_insert_eq. by destruct soup.
    - exists (S (nextTimer sA)). simpl.
      rewrite lookup_insert_ne by lia. rewrite lookup_insert_eq. by destruct soup.
    - exists (nextTimer sA). simpl. rewrite lookup_insert_eq. by destruct soup. }
  destruct Hreset as (tid & Htid). exists tid. split; [done|].
  intros evs2 a2 Hevs2.
  assert (Hpending : timers (run d evs2 s2) !! tid
            = Some (mkTimer CbResetInProgress
                      (match soup with Some _ => 600%Q | None => 2000%Q end)))
    by by apply run_keeps_timer.
  simpl. unfold fire. rewrite Hpending. done.
Qed.

Lemma inProgress_always_cleared_witness :
  heal_unwinds godlike
    (step godlike (EvHealth 1700000000000)
       (run godlike [EvTimer 0 None] (spawn godlike hurt_world)))
    1700000000000.
Proof.
  apply (inProgress_always_cleared godlike hurt_world [EvTimer 0 None]
           1700000000000); vm_compute; reflexivity.
Defined.

(** The soup heal of the scenario, run to its end: equip resolves, the
    item is used, the timers fire in the order of their delays. *)
Example soup_heal_runs_to_idle :
  let s := run godlike
             [EvTimer 0 None; EvHealth 1700000000000; EvSettle 0 Resolved None;
              EvTimer 1 None; EvTimer 3 None; EvTimer 2 None]
             (spawn godlike hurt_world) in
  healState s = mkHealState false 1700000000000 /\
  effects s = [Equip mushroom_stew hand; ActivateItem; DeactivateItem] /\
  equipScheduled s = true.
Proof. vm_compute. done. Qed.

(* ===================================================================== *)
(** ** Reaction delay                                                     *)
(* ===================================================================== *)

Lemma randomBetween_bounds_aux (rnd a b : Q) :
  (0 <= rnd)%Q -> (rnd < 1)%Q ->
  (Qmin a b <= randomBetween rnd a b)%Q /\
  (randomBetween rnd a b <= Qmax a b)%Q.
Proof.
  intros H0 H1. unfold randomBetween. cbv zeta.
  assert (Hle : (Qmin a b <= Qmax a b)%Q).
  { eapply Qle_trans; [apply Q.le_min_l | apply Q.le_max_l]. }
  assert (Hw : (0 <= Qmax a b - Qmin a b)%Q) by lra.
  assert (Hp : (0 <= rnd * (Qmax a b - Qmin a b))%Q)
    by (by apply Qmult_le_0_compat).
  assert (Hq : (rnd * (Qmax a b - Qmin a b) <= 1 * (Qmax a b - Qmin a b))%Q)
    by (apply Qmult_le_compat_r; [lra | done]).
  split; lra.
Qed.

(** X1: for a draw of [Math.random()] in [0, 1), [randomBetween] lies
    between the smaller and the larger of its two bounds, whichever order
    they are given in, and swapping the bounds gives the same number. *)
Theorem randomBetween_within_bounds (rnd a b : Q) :
  (0 <= rnd)%Q -> (rnd < 1)%Q ->
  (Qmin a b <= randomBetween rnd a b)%Q /\
  (randomBetween rnd a b <= Qmax a b)%Q /\
  (randomBetween rnd a b == randomBetween rnd b a)%Q.
Proof.
  intros H0 H1.
  destruct (randomBetween_bounds_aux rnd a b H0 H1) as [Hlo Hhi].
  split; [done|]. split; [done|]. unfold randomBetween. cbv zeta.
  rewrite (Q.min_comm b a), (Q.max_comm b a). reflexivity.
Qed.

Lemma randomBetween_within_bounds_witness :
  (Qmin 2200 900 <= randomBetween (1 # 2) 2200 900)%Q /\
  (randomBetween (1 # 2) 2200 900 <= Qmax 2200 900)%Q /\
  (randomBetween (1 # 2) 2200 900 == randomBetween (1 # 2) 900 2200)%Q.
Proof.
  apply (randomBetween_within_bounds (1 # 2) 2200 900); vm_compute; congruence.
Defined.

(** X2: a scan that finds a target sets its attack timer with a delay
    inside the preset's [reactionDelayRange], in whichever order the two
    bounds are written. *)
Theorem scan_delay_in_reaction_range
    (d : Difficulty) (s : Session) (rnd : Q) (target : Candidate) :
  (0 <= rnd)%Q -> (rnd < 1)%Q ->
  scanInterval s = true ->
  bot_entity (bot s) <> None ->
  findClosestPlayer (bot s) scanRadiusSq = Some target ->
  exists dl,
    timers (step d (EvScan rnd) s) !! nextTimer s
      = Some (mkTimer (CbAttack target) dl) /\
    (Qmin (fst (reactionDelayRange d)) (snd (reactionDelayRange d)) <= dl)%Q /\
    (dl <= Qmax (fst (reactionDelayRange d)) (snd (reactionDelayRange d)))%Q.
Proof.
  intros H0 H1 Hint Hme Htarget. simpl. rewrite Hint. unfold scan.
  destruct (bot_entity (bot s)); [|done]. rewrite Htarget.
  eexists. split.
  - destruct (scheduledAttackTimeout s); simpl; by rewrite lookup_insert_eq.
  - destruct (randomBetween_bounds_aux rnd (fst (reactionDelayRange d))
                (snd (reactionDelayRange d)) H0 H1) as [Hlo Hhi]. done.
Qed.

Lemma scan_delay_in_reaction_range_witness :
  exists dl,
    timers (step easy (EvScan (1 # 2)) (spawn easy duel_world)) !! 0%nat
      = Some (mkTimer (CbAttack (mkCandidate "near" near_entity)) dl) /\
    (Qmin 900 2200 <= dl)%Q /\ (dl <= Qmax 900 2200)%Q.
Proof.
  apply (scan_delay_in_reaction_range easy (spawn easy duel_world) (1 # 2)
           (mkCandidate "near" near_entity));
    vm_compute; congruence.
Defined.

(* ===================================================================== *)
(** ** Scans and scheduled attacks, case by case                          *)
(* ===================================================================== *)

(** X3: a scan that finds nobody in range ends the engagement and, under
    [maintainSprint], releases sprint; it touches nothing else: it sets
    no timer and it does not cancel an attack timer that is pending. *)
Theorem scan_without_target_disengages
    (d : Difficulty) (s : Session) (rnd : Q) :
  scanInterval s = true ->
  bot_entity (bot s) <> None ->
  findClosestPlayer (bot s) scanRadiusSq = None ->
  let s' := step d (EvScan rnd) s in
  pvp_target (bot s') = None /\
  controlState (bot s')
    = (if maintainSprint d then <["sprint" := false]> (controlState (bot s))
       else controlState (bot s)) /\
  timers s' = timers s /\
  scheduledAttackTimeout s' = scheduledAttackTimeout s /\
  effects s' = effects s /\ log s' = log s.
Proof.
  intros Hint Hme Hnone. simpl. rewrite Hint. unfold scan.
  destruct (bot_entity (bot s)); [|done]. rewrite Hnone.
  destruct (maintainSprint d); simpl;
    destruct (pvp_target (bot s)) eqn:Et; simpl; by rewrite ?Et.
Qed.

Lemma scan_without_target_disengages_witness :
  let s := spawn hard lonely_world in
  let s' := step hard (EvScan (1 # 2)) s in
  pvp_target (bot s') = None /\
  controlState (bot s')
    = (if maintainSprint hard then <["sprint" := false]> (controlState (bot s))
       else controlState (bot s)) /\
  timers s' = timers s /\
  scheduledAttackTimeout s' = scheduledAttackTimeout s /\
  effects s' = effects s /\ log s' = log s.
Proof.
  apply (scan_without_target_disengages hard (spawn hard lonely_world) (1 # 2));
    vm_compute; congruence.
Defined.

(** X5: when the attack timer fires and the bot has left the world, or the
    target's name no longer resolves to a player with an entity, the
    callback returns at once: the only change is that the timer is no
    longer pending. *)
Theorem scheduledAttack_aborts_when_unresolved
    (d : Difficulty) (s : Session) (tid : nat) (target : Candidate) (dl : Q)
    (a : option string) :
  timers s !! tid = Some (mkTimer (CbAttack target) dl) ->
  bot_entity (bot s) = None \/
  (exists ps, players (bot s) = Some ps /\
     lookup_player ps (cand_username target) ≫= player_entity = None) ->
  step d (EvTimer tid a) s = clearTimeout tid s.
Proof.
  intros Ht Hgone. simpl. unfold fire. rewrite Ht. simpl.
  unfold scheduledAttack. simpl.
  destruct Hgone as [-> | (ps & -> & ->)]; [done|].
  by destruct (bot_entity (bot s)).
Qed.

Lemma scheduledAttack_aborts_when_unresolved_witness :
  step easy (EvTimer 0 None)
    (run easy [EvScan (1 # 2); EvWorld lonely_world] (spawn easy duel_world))
  = clearTimeout 0
      (run easy [EvScan (1 # 2); EvWorld lonely_world] (spawn easy duel_world)).
Proof.
  apply (scheduledAttack_aborts_when_unresolved easy
           (run easy [EvScan (1 # 2); EvWorld lonely_world] (spawn easy duel_world))
           0 (mkCandidate "near" near_entity) (3100 # 2) None).
  - vm_compute. reflexivity.
  - right. eexists. split; vm_compute; reflexivity.
Defined.

(** X6: when the attack timer fires, the target resolves to [refreshed]
    and [bot.pvp.attack] does not throw, the bot ends up engaged with
    [refreshed]; [attack] is called exactly when it was not already
    engaged with that entity; sprint is pressed under [maintainSprint]. *)
Theorem scheduledAttack_engages_refreshed
    (d : Difficulty) (s : Session) (tid : nat) (target : Candidate) (dl : Q)
    (ps : list (string * option Player)) (refreshed : Entity) :
  timers s !! tid = Some (mkTimer (CbAttack target) dl) ->
  bot_entity (bot s) <> None ->
  players (bot s) = Some ps ->
  lookup_player ps (cand_username target) ≫= player_entity = Some refreshed ->
  let s' := step d (EvTimer tid None) s in
  same_entity (pvp_target (bot s')) (Some refreshed) = true /\
  effects s' =
    (if same_entity (pvp_target (bot s)) (Some refreshed) then effects s
     else effects s ++ [Attack refreshed])%list /\
  (maintainSprint d = true -> controlState (bot s') !! "sprint" = Some true).
Proof.
  intros Ht Hme Hps Hre. simpl. unfold fire. rewrite Ht. simpl.
  unfold scheduledAttack. simpl.
  destruct (bot_entity (bot s)); [|done]. rewrite Hps, Hre.
  assert (Hrefl : (eref refreshed =? eref refreshed)%nat = true)
    by apply Nat.eqb_refl.
  destruct (pvp_target (bot s)) as [t|] eqn:Et;
    [destruct (eref t =? eref refreshed)%nat eqn:Esame|];
    destruct (maintainSprint d);
    (destruct (attackDurationMs d) as [dur|]; [destruct (Qeq_bool dur 0)|]);
    repeat (progress (simpl; rewrite ?Et, ?Esame, ?Hrefl));
    repeat split; try done;
    intros _; by rewrite lookup_insert_eq.
Qed.

Lemma scheduledAttack_engages_refreshed_witness :
  let s := run easy [EvScan (1 # 2)] (spawn easy duel_world) in
  let s' := step easy (EvTimer 0 None) s in
  same_entity (pvp_target (bot s')) (Some near_entity) = true /\
  effects s' =
    (if same_entity (pvp_target (bot s)) (Some near_entity) then effects s
     else effects s ++ [Attack near_entity])%list /\
  (maintainSprint easy = true -> controlState (bot s') !! "sprint" = Some true).
Proof.
  apply (scheduledAttack_engages_refreshed easy
           (run easy [EvScan (1 # 2)] (spawn easy duel_world))
           0 (mkCandidate "near" near_entity) (3100 # 2)
           [("KitPvPBot_1_7", Some (mkPlayer (Some self_entity)));
            ("edge", Some (mkPlayer (Some edge_entity)));
            ("near", Some (mkPlayer (Some near_entity)))] near_entity);
    vm_compute; congruence.
Defined.

(** X7: when [bot.pvp.attack] throws, the error is logged and not
    propagated. An engagement with another entity has been stopped before
    the call and stays stopped; an engagement with the same entity is
    kept and [attack] is not called at all. *)
Theorem scheduledAttack_failure_is_logged
    (d : Difficulty) (s : Session) (tid : nat) (target : Candidate) (dl : Q)
    (ps : list (string * option Player)) (refreshed : Entity)
    (message : string) :
  timers s !! tid = Some (mkTimer (CbAttack target) dl) ->
  bot_entity (bot s) <> None ->
  players (bot s) = Some ps ->
  lookup_player ps (cand_username target) ≫= player_entity = Some refreshed ->
  let s' := step d (EvTimer tid (Some message)) s in
  effects s' = effects s /\
  (if same_entity (pvp_target (bot s)) (Some refreshed)
   then pvp_target (bot s') = pvp_target (bot s) /\ log s' = log s
   else pvp_target (bot s') = None /\
        log s' = (log s ++
          ["[" +:+ username (bot s) +:+ "] Failed to attack "
             +:+ cand_username target +:+ ": " +:+ message])%list).
Proof.
  intros Ht Hme Hps Hre. simpl. unfold fire. rewrite Ht. simpl.
  unfold scheduledAttack. simpl.
  destruct (bot_entity (bot s)); [|done]. rewrite Hps, Hre.
  destruct (pvp_target (bot s)) as [t|] eqn:Et;
    [destruct (eref t =? eref refreshed)%nat eqn:Esame|];
    destruct (maintainSprint d);
    (destruct (attackDurationMs d) as [dur|]; [destruct (Qeq_bool dur 0)|]);
    repeat (progress (simpl; rewrite ?Et, ?Esame)); done.
Qed.

Lemma scheduledAttack_failure_is_logged_witness :
  let s := run easy [EvScan (1 # 2)] (spawn easy duel_world) in
  let s' := step easy (EvTimer 0 (Some "entity is not valid")) s in
  effects s' = effects s /\
  (if same_entity (pvp_target (bot s)) (Some near_entity)
   then pvp_target (bot s') = pvp_target (bot s) /\ log s' = log s
   else pvp_target (bot s') = None /\
        log s' = (log s ++
          ["[" +:+ username (bot s) +:+ "] Failed to attack "
             +:+ cand_username (mkCandidate "near" near_entity) +:+ ": "
             +:+ "entity is not valid"])%list).
Proof.
  apply (scheduledAttack_failure_is_logged easy
           (run easy [EvScan (1 # 2)] (spawn easy duel_world))
           0 (mkCandidate "near" near_entity) (3100 # 2)
           [("KitPvPBot_1_7", Some (mkPlayer (Some self_entity)));
            ("edge", Some (mkPlayer (Some edge_entity)));
            ("near", Some (mkPlayer (Some near_entity)))] near_entity
           "entity is not valid");
    vm_compute; congruence.
Defined.

(* ===================================================================== *)
(** ** Ties between equally distant players                               *)
(* ===================================================================== *)

Lemma first_step_inv b me maxDistanceSq seen acc entry :
  closest_inv b me maxDistanceSq seen acc ->
  first_inv b me maxDistanceSq seen acc ->
  first_inv b me maxDistanceSq (seen ++ [entry])
    (closest_step b me maxDistanceSq acc entry).
Proof.
  intros Hmin Hfirst.
  assert (Hkeep : first_inv b me maxDistanceSq (seen ++ [entry]) acc).
  { destruct acc as [[c|] n]; [|done].
    destruct Hfirst as (before & p & after & -> & Hp & Hlt).
    exists before, p, (after ++ [entry])%list. split; [|done].
    by rewrite <- app_assoc. }
  unfold closest_step. destruct entry as [u player].
  destruct player as [p|]; [|done].
  destruct (String.eqb u (username b)); [done|].
  destruct (player_entity p) as [e|] eqn:Ee; [|done].
  destruct (num_ltb Qlt_bool _ _ && Qle_bool _ _) eqn:Et; [|done].
  apply andb_true_iff in Et as [Hlt Hle].
  exists seen, p, []. split; [done|]. split; [done|]. simpl.
  intros u' e' Hother Hin.
  destruct acc as [[c|] [dc|]]; simpl in *; try done.
  - destruct Hmin as (-> & _ & _ & Hall). apply Qlt_bool_iff in Hlt.
    specialize (Hall _ _ Hother Hin). lra.
  - exfalso. by apply (Hmin _ _ Hother).
Qed.

Lemma first_fold_inv b me maxDistanceSq ps seen acc :
  closest_inv b me maxDistanceSq seen acc ->
  first_inv b me maxDistanceSq seen acc ->
  first_inv b me maxDistanceSq (seen ++ ps)
    (fold_left (closest_step b me maxDistanceSq) ps acc).
Proof.
  revert seen acc. induction ps as [|entry ps IH]; intros seen acc Hmin Hfirst;
    simpl.
  - by rewrite app_nil_r.
  - replace (seen ++ entry :: ps)%list with ((seen ++ [entry]) ++ ps)%list
      by (by rewrite <- app_assoc).
    apply IH; [by apply closest_step_inv | by apply first_step_inv].
Qed.

(** X4: among players at the same least distance, [findClosestPlayer]
    returns the one that comes first in the enumeration of [bot.players]:
    every other in-range player listed before the returned one is strictly
    farther away. *)
Theorem findClosestPlayer_first_among_ties
    (b : Bot) (me : Entity) (ps : list (string * option Player))
    (maxDistanceSq : Q) (c : Candidate) :
  bot_entity b = Some me ->
  players b = Some ps ->
  findClosestPlayer b maxDistanceSq = Some c ->
  exists before p after,
    ps = (before ++ (cand_username c, Some p) :: after)%list /\
    player_entity p = Some (cand_entity c) /\
    forall u e, other_player b before u e ->
      (distanceSquared (position me) (position e) <= maxDistanceSq)%Q ->
      (distanceSquared (position me) (position (cand_entity c))
         < distanceSquared (position me) (position e))%Q.
Proof.
  intros Hme Hps. unfold findClosestPlayer. rewrite Hps, Hme.
  assert (H0 : closest_inv b me maxDistanceSq [] (None, Infinity)).
  { intros u e (p & [] & _). }
  pose proof (first_fold_inv b me maxDistanceSq ps [] (None, Infinity) H0 I) as H.
  simpl in H. destruct (fold_left _ ps _) as [[c'|] n]; simpl; [|done].
  by intros [= <-].
Qed.

Lemma findClosestPlayer_first_among_ties_witness :
  exists before p after,
    [("near", Some (mkPlayer (Some near_entity)));
     ("twin", Some (mkPlayer (Some twin_entity)))]
      = (before ++ (cand_username (mkCandidate "near" near_entity), Some p)
           :: after)%list /\
    player_entity p = Some (cand_entity (mkCandidate "near" near_entity)) /\
    forall u e, other_player twin_world before u e ->
      (distanceSquared (position self_entity) (position e) <= scanRadiusSq)%Q ->
      (distanceSquared (position self_entity)
         (position (cand_entity (mkCandidate "near" near_entity)))
         < distanceSquared (position self_entity) (position e))%Q.
Proof.
  apply (findClosestPlayer_first_among_ties twin_world self_entity
           [("near", Some (mkPlayer (Some near_entity)));
            ("twin", Some (mkPlayer (Some twin_entity)))]
           scanRadiusSq (mkCandidate "near" near_entity)); reflexivity.
Defined.

(* ===================================================================== *)
(** ** Choosing a consumable                                              *)
(* ===================================================================== *)

Lemma findItemByNames_some b names m :
  findItemByNames b names = Some m ->
  exists inv before after,
    inventory b = Some inv /\ In m (items inv) /\
    names = (before ++ item_name m :: after)%list /\
    forall it, In it (items inv) -> ~ In (item_name it) before.
Proof.
  unfold findItemByNames. destruct (inventory b) as [inv|]; [|done].
  induction names as [|n names IH]; [done|].
  destruct (List.find _ (items inv)) as [m'|] eqn:Efind.
  - intros [= ->]. apply find_some in Efind as [Hin Hname].
    apply String.eqb_eq in Hname. exists inv, [], names.
    repeat split; try done; [by rewrite Hname | by intros it _ []].
  - intros H. destruct (IH H) as (inv' & before & after & [= <-] & Hin & -> & Hno).
    exists inv, (n :: before), after. repeat split; try done.
    intros it Hit [Heq | Hb]; [|by apply (Hno it)].
    pose proof (find_none _ _ Efind it Hit) as Hne. simpl in Hne.
    rewrite Heq in Hne. by rewrite String.eqb_refl in Hne.
Qed.

Lemma findItemByNames_none b names inv :
  inventory b = Some inv ->
  findItemByNames b names = None ->
  forall it, In it (items inv) -> ~ In (item_name it) names.
Proof.
  unfold findItemByNames. intros ->.
  induction names as [|n names IH]; [by intros _ it _ []|].
  destruct (List.find _ (items inv)) as [m'|] eqn:Efind; [done|].
  intros H it Hit [Heq | Hin]; [|by apply (IH H it)].
  pose proof (find_none _ _ Efind it Hit) as Hne. simpl in Hne.
  rewrite Heq in Hne. by rewrite String.eqb_refl in Hne.
Qed.

Lemma findItemByNames_name_in b names m :
  findItemByNames b names = Some m -> In (item_name m) names.
Proof.
  intros H. destruct (findItemByNames_some _ _ _ H) as (? & ? & ? & _ & _ & -> & _).
  apply in_or_app. right. by left.
Qed.

(** X8: [findItemByNames] goes by the order of the names, not of the
    inventory: it returns an inventory item whose name is the earliest
    name of the list that any inventory item bears, and it returns nothing
    exactly when no inventory item bears a listed name. *)
Theorem findItemByNames_earliest_name (b : Bot) (names : list string) :
  match findItemByNames b names with
  | Some m =>
    exists inv before after,
      inventory b = Some inv /\ In m (items inv) /\
      names = (before ++ item_name m :: after)%list /\
      forall it, In it (items inv) -> ~ In (item_name it) before
  | None =>
    forall inv it, inventory b = Some inv -> In it (items inv) ->
      ~ In (item_name it) names
  end.
Proof.
  destruct (findItemByNames b names) as [m|] eqn:E.
  - by apply findItemByNames_some.
  - intros inv it Hinv. by apply (findItemByNames_none b names inv).
Qed.

(** X9: [attemptHeal] goes past its guard only with the bot in the world
    and alive, its health strictly below [healThreshold], no heal in
    progress and at least [healCooldownMs] since [lastHeal]; it then holds
    a soup when the inventory has one, and a golden apple only when the
    inventory has no soup. *)
Theorem attemptHeal_starts_only_when_due
    (b : Bot) (adv : Advanced) (state : HealState) (now : Z)
    (soup goldenApple : option Item) :
  attemptHeal_guard b adv state now = HealGo soup goldenApple ->
  bot_entity b <> None /\
  (0 < health b)%Q /\ (health b < healThreshold adv)%Q /\
  inProgress state = false /\
  (healCooldownMs adv <= now - lastHeal state)%Z /\
  ((exists it, soup = Some it /\ goldenApple = None /\
      In (item_name it) HEALING_SOUPS) \/
   (soup = None /\
    (exists it, goldenApple = Some it /\ In (item_name it) GOLDEN_APPLES) /\
    forall inv it, inventory b = Some inv -> In it (items inv) ->
      ~ In (item_name it) HEALING_SOUPS)).
Proof.
  unfold attemptHeal_guard.
  destruct (bot_entity b); [|done].
  destruct (Qle_bool (health b) 0) eqn:Edead; [done|].
  destruct (Qle_bool (healThreshold adv) (health b)) eqn:Eth; [done|].
  destruct (inProgress state); [done|]. simpl.
  destruct (now - lastHeal state <? healCooldownMs adv)%Z eqn:Ecd; [done|].
  apply Z.ltb_ge in Ecd.
  assert (Halive : (0 < health b)%Q).
  { apply Qnot_le_lt. intros H. apply Qle_bool_iff in H. congruence. }
  assert (Hlow : (health b < healThreshold adv)%Q).
  { apply Qnot_le_lt. intros H. apply Qle_bool_iff in H. congruence. }
  destruct (findItemByNames b HEALING_SOUPS) as [it|] eqn:Esoup.
  - intros [= <- <-]. repeat split; try done. left. exists it.
    repeat split; try done.
    exact (findItemByNames_name_in b HEALING_SOUPS it Esoup).
  - destruct (findItemByNames b GOLDEN_APPLES) as [it|] eqn:Eapple; [|done].
    intros [= <- <-]. repeat split; try done. right. split; [done|]. split.
    + exists it. split; [done|].
      exact (findItemByNames_name_in b GOLDEN_APPLES it Eapple).
    + intros inv it' Hinv. by apply (findItemByNames_none b HEALING_SOUPS inv).
Qed.

Lemma attemptHeal_starts_only_when_due_witness :
  bot_entity (world [] 10 [golden_apple; mushroom_stew] None) <> None /\
  (0 < health (world [] 10 [golden_apple; mushroom_stew] None))%Q /\
  (health (world [] 10 [golden_apple; mushroom_stew] None) < 14)%Q /\
  inProgress (mkHealState false 0) = false /\
  (5500 <= 1700000000000 - lastHeal (mkHealState false 0))%Z /\
  ((exists it, Some mushroom_stew = Some it /\ @None Item = None /\
      In (item_name it) HEALING_SOUPS) \/
   (Some mushroom_stew = None /\
    (exists it, @None Item = Some it /\ In (item_name it) GOLDEN_APPLES) /\
    forall inv it,
      inventory (world [] 10 [golden_apple; mushroom_stew] None) = Some inv ->
      In it (items inv) -> ~ In (item_name it) HEALING_SOUPS)).
Proof.
  apply (attemptHeal_starts_only_when_due
           (world [] 10 [golden_apple; mushroom_stew] None)
           (mkAdvanced 650 220 (35 # 100) 14 5500 (13 # 10))
           (mkHealState false 0) 1700000000000 (Some mushroom_stew) None).
  reflexivity.
Defined.

(** X10: when the awaited equip resolves and [activateItem] does not
    throw, the item is used, [lastHeal] becomes the time read before the
    equip was awaited (the time of the 'health' event, not the time the
    equip finished), [inProgress] stays set, and exactly three timers are
    added: end of use, reset of [inProgress], and the follow-up gear
    request, each with the delay of the item class. *)
Theorem completed_heal_records_event_time
    (d : Difficulty) (s : Session) (k : nat) (soup goldenApple : option Item)
    (now : Z) :
  tasks s !! k = Some (HealTask soup goldenApple now) ->
  let s' := step d (EvSettle k Resolved None) s in
  healState s' = mkHealState (inProgress (healState s)) now /\
  effects s' = (effects s ++ [ActivateItem])%list /\
  log s' = log s /\
  timers s' =
    <[S (S (nextTimer s)) :=
        mkTimer CbScheduleEquip
          (match soup with Some _ => 450%Q | None => 1900%Q end)]>
      (<[S (nextTimer s) :=
           mkTimer CbResetInProgress
             (match soup with Some _ => 600%Q | None => 2000%Q end)]>
         (<[nextTimer s :=
              mkTimer CbDeactivateItem
                (match soup with Some _ => 150%Q | None => 1600%Q end)]>
            (timers s))).
Proof.
  intros Ht. simpl. unfold settle. rewrite Ht. unfold heal_resume. simpl.
  by destruct soup.
Qed.

Lemma completed_heal_records_event_time_witness :
  let s := run godlike [EvHealth 1700000000000] (spawn godlike hurt_world) in
  let s' := step godlike (EvSettle 0 Resolved None) s in
  healState s' = mkHealState (inProgress (healState s)) 1700000000000 /\
  effects s' = (effects s ++ [ActivateItem])%list /\
  log s' = log s /\
  timers s' =
    <[S (S (nextTimer s)) := mkTimer CbScheduleEquip 450%Q]>
      (<[S (nextTimer s) := mkTimer CbResetInProgress 600%Q]>
         (<[nextTimer s := mkTimer CbDeactivateItem 150%Q]> (timers s))).
Proof.
  apply (completed_heal_records_event_time godlike
           (run godlike [EvHealth 1700000000000] (spawn godlike hurt_world))
           0 (Some mushroom_stew) None 1700000000000).
  vm_compute. reflexivity.
Defined.

(* ===================================================================== *)
(** ** The order of a gear pass                                           *)
(* ===================================================================== *)

(** X11: a gear pass takes the slots in the order of the calls and
    suspends at the first one that needs an equip: every call before it
    made none; the pass finishes without suspending exactly when no call
    needs an equip. *)
Theorem equipBestGear_suspends_at_first_needed
    (b : Bot) (calls : list (list string * Destination)) :
  match equipBestGear b calls with
  | PassDone =>
    forall priorityList destination, In (priorityList, destination) calls ->
      equipBestItemForSlot b priorityList destination = None
  | PassAwait best destination rest =>
    exists skipped priorityList,
      calls = (skipped ++ (priorityList, destination) :: rest)%list /\
      equipBestItemForSlot b priorityList destination = Some best /\
      forall pl dst, In (pl, dst) skipped ->
        equipBestItemForSlot b pl dst = None
  end.
Proof.
  induction calls as [|[pl dst] calls IH]; simpl; [by intros ? ? []|].
  destruct (equipBestItemForSlot b pl dst) as [best|] eqn:E.
  - exists [], pl. repeat split; done.
  - destruct (equipBestGear b calls) as [|best dst' rest].
    + intros pl' dst' [[= <- <-] | Hin]; [done | by apply IH].
    + destruct IH as (skipped & pl' & -> & Hbest & Hskip).
      exists ((pl, dst) :: skipped), pl'. repeat split; try done.
      intros pl'' dst'' [[= <- <-] | Hin]; [done | by apply Hskip].
Qed.

(* ===================================================================== *)
(** ** The jump pulse                                                     *)
(* ===================================================================== *)

(** X12: an engaged strafe tick never presses 'jump' without setting the
    timer that releases it. With a non-zero [jumpChance] above the draw,
    'jump' is pressed and one timer is added, with delay [jumpPulseMs]
    (200 when that is 0), whose firing releases 'jump'; otherwise 'jump'
    is not touched and no timer is added. *)
Theorem strafeTick_jump_is_released
    (d : Difficulty) (adv : Advanced) (s : Session) (rnd : Q) :
  advanced d = Some adv ->
  strafeInterval s = true ->
  pvp_target (bot s) <> None ->
  let s' := step d (EvStrafeTick rnd) s in
  (~ (jumpChance adv == 0)%Q -> (rnd < jumpChance adv)%Q ->
     controlState (bot s') !! "jump" = Some true /\
     timers s' =
       <[nextTimer s :=
           mkTimer CbJumpRelease
             (if Qeq_bool (jumpPulseMs adv) 0 then 200%Q else jumpPulseMs adv)]>
         (timers s) /\
     controlState (bot (step d (EvTimer (nextTimer s) None) s')) !! "jump"
       = Some false) /\
  ((jumpChance adv == 0)%Q \/ (jumpChance adv <= rnd)%Q ->
     controlState (bot s') !! "jump" = controlState (bot s) !! "jump" /\
     timers s' = timers s).
Proof.
  intros Hadv Hint Htarget. simpl. rewrite Hadv, Hint. unfold strafeTick.
  destruct (pvp_target (bot s)); [|done]. cbv zeta.
  destruct (Qeq_bool (jumpChance adv) 0) eqn:Ez; simpl.
  - apply Qeq_bool_iff in Ez. split; [done|]. intros _.
    split; [|done]. by rewrite !lookup_insert_ne.
  - assert (Hnz : ~ (jumpChance adv == 0)%Q).
    { intros H. apply Qeq_bool_iff in H. congruence. }
    destruct (Qlt_bool rnd (jumpChance adv)) eqn:Elt; simpl.
    + apply Qlt_bool_iff in Elt. split.
      * intros _ _. split; [by rewrite lookup_insert_eq|]. split; [done|].
        unfold fire. simpl. rewrite lookup_insert_eq. simpl.
        by rewrite lookup_insert_eq.
      * intros [H | H]; [done | lra].
    + split.
      * intros _ H. apply Qlt_bool_iff in H. congruence.
      * intros _. split; [|done]. by rewrite !lookup_insert_ne.
Qed.

Lemma strafeTick_jump_is_released_witness :
  let s := spawn godlike engaged_world in
  let s' := step godlike (EvStrafeTick (1 # 10)) s in
  (~ ((35 # 100) == 0)%Q -> ((1 # 10) < (35 # 100))%Q ->
     controlState (bot s') !! "jump" = Some true /\
     timers s' =
       <[nextTimer s :=
           mkTimer CbJumpRelease (if Qeq_bool 220 0 then 200%Q else 220%Q)]>
         (timers s) /\
     controlState (bot (step godlike (EvTimer (nextTimer s) None) s')) !! "jump"
       = Some false) /\
  (((35 # 100) == 0)%Q \/ ((35 # 100) <= (1 # 10))%Q ->
     controlState (bot s') !! "jump" = controlState (bot s) !! "jump" /\
     timers s' = timers s).
Proof.
  apply (strafeTick_jump_is_released godlike
           (mkAdvanced 650 220 (35 # 100) 14 5500 (13 # 10))
           (spawn godlike engaged_world) (1 # 10)); vm_compute; congruence.
Defined.

(* ===================================================================== *)
(** ** Teardown                                                           *)
(* ===================================================================== *)

Section Life.
Variable s0 : Session.

Lemma life_refl : life s0 s0.
Proof. done. Qed.

Lemma life_set_bot s v : life s0 s -> life s0 (set_bot v s).
Proof. intros H. exact H. Qed.

Lemma life_control s key v : life s0 s -> life s0 (control key v s).
Proof. intros H. exact H. Qed.

Lemma life_add_effect s e : life s0 s -> life s0 (add_effect e s).
Proof. intros H. exact H. Qed.

Lemma life_add_log s m : life s0 s -> life s0 (add_log m s).
Proof. intros H. exact H. Qed.

Lemma life_set_healState s v : life s0 s -> life s0 (set_healState v s).
Proof. intros H. exact H. Qed.

Lemma life_set_strafeDirection s v : life s0 s -> life s0 (set_strafeDirection v s).
Proof. intros H. exact H. Qed.

Lemma life_hold s v : life s0 s -> life s0 (hold v s).
Proof. intros H. exact H. Qed.

Lemma life_assign_entity s r v : life s0 s -> life s0 (assign_entity r v s).
Proof. intros H. exact H. Qed.

Lemma life_set_equipScheduled s v : life s0 s -> life s0 (set_equipScheduled v s).
Proof. intros H. exact H. Qed.

Lemma life_set_scheduledAttackTimeout s v :
  life s0 s -> life s0 (set_scheduledAttackTimeout v s).
Proof. intros H. exact H. Qed.

Lemma life_set_timers s m n : life s0 s -> life s0 (set_timers m n s).
Proof. intros H. exact H. Qed.

Lemma life_set_tasks s m n : life s0 s -> life s0 (set_tasks m n s).
Proof. intros H. exact H. Qed.
End Life.

Create HintDb life discriminated.
#[local] Hint Resolve life_hold life_assign_entity : life.
#[local] Hint Resolve life_refl life_set_bot life_control life_add_effect
  life_add_log life_set_healState life_set_strafeDirection
  life_set_equipScheduled life_set_scheduledAttackTimeout life_set_timers
  life_set_tasks : life.

Ltac life_solve :=
  cbv zeta; repeat case_match; eauto 14 with life.

Lemma life_run_gear s0 s calls : life s0 s -> life s0 (run_gear calls s).
Proof. intros. unfold run_gear, suspend. life_solve. Qed.

Lemma life_scheduleEquip s0 s : life s0 s -> life s0 (scheduleEquip s).
Proof. intros. unfold scheduleEquip, setTimeout. life_solve. Qed.

Lemma life_stopStrafe s0 s : life s0 s -> life s0 (stopStrafe s).
Proof. intros. unfold stopStrafe. life_solve. Qed.

#[local] Hint Resolve life_run_gear life_scheduleEquip life_stopStrafe : life.

Lemma life_scheduledAttack s0 s d target a :
  life s0 s -> life s0 (scheduledAttack d target a s).
Proof. intros. unfold scheduledAttack, setTimeout. life_solve. Qed.

Lemma life_heal_resume s0 s soup now o a :
  life s0 s -> life s0 (heal_resume soup now o a s).
Proof. intros. unfold heal_resume, setTimeout. life_solve. Qed.

#[local] Hint Resolve life_scheduledAttack life_heal_resume : life.

(** No event but 'end' changes the intervals and listeners. *)
Lemma step_life d ev s : ev <> EvEnd -> life s (step d ev s).
Proof.
  intros Hev. destruct ev; simpl; try done;
    unfold scan, strafeTick, healListener, fire, disengage, equipPass, settle,
      gear_resume, setTimeout, clearTimeout, suspend;
    life_solve.
Qed.

Lemma frame_no_new_attack s s' : frame s s' -> no_new_attack s s'.
Proof.
  intros F tid t Ht Ha.
  destruct (fr_timers _ _ F _ _ Ht) as [H | (_ & H & _)]; [done | congruence].
Qed.

Lemma no_new_attack_refl s : no_new_attack s s.
Proof. by intros tid t. Qed.

Lemma no_new_attack_trans s1 s2 s3 :
  no_new_attack s1 s2 -> no_new_attack s2 s3 -> no_new_attack s1 s3.
Proof. intros H12 H23 tid t Ht Ha. apply H12; [by apply H23 | done]. Qed.

Lemma scheduleEquip_no_new_attack s : no_new_attack s (scheduleEquip s).
Proof.
  intros tid t. unfold scheduleEquip. destruct (equipScheduled s); [done|].
  simpl. rewrite lookup_insert. case_decide as Hd; [by intros [= <-] | done].
Qed.

Lemma equipPass_no_new_attack s tid :
  no_new_attack s (equipPass (clearTimeout tid s)).
Proof.
  apply (no_new_attack_trans _ (set_equipScheduled false (clearTimeout tid s))).
  - intros tid' t. simpl. rewrite lookup_delete. by case_decide.
  - apply frame_no_new_attack. unfold equipPass. auto with frame.
Qed.

(** Without the scan interval no event sets an attack timer. *)
Lemma step_no_new_attack d ev s :
  scanInterval s = false -> no_new_attack s (step d ev s).
Proof.
  intros Hscan. destruct ev; simpl.
  - apply frame_no_new_attack. auto with frame.
  - rewrite Hscan. apply no_new_attack_refl.
  - apply frame_no_new_attack. frame_solve.
  - apply frame_no_new_attack. frame_solve.
  - case_match; [apply scheduleEquip_no_new_attack | apply no_new_attack_refl].
  - case_match; [apply scheduleEquip_no_new_attack | apply no_new_attack_refl].
  - apply frame_no_new_attack. frame_solve.
  - apply frame_no_new_attack. frame_solve.
  - unfold fire. destruct (timers s !! tid) as [t|]; [|apply no_new_attack_refl].
    destruct (callback t); cbv zeta;
      try (apply frame_no_new_attack; auto with frame; fail).
    + apply equipPass_no_new_attack.
    + apply (no_new_attack_trans _ (clearTimeout tid s));
        [apply frame_no_new_attack; auto with frame
        | apply scheduleEquip_no_new_attack].
  - apply frame_no_new_attack. auto with frame.
  - apply frame_no_new_attack. auto with frame.
  - apply frame_no_new_attack. auto with frame.
Qed.

Lemma end_session_flags d s :
  ended s = false ->
  ended (end_session d s) = true /\ scanInterval (end_session d s) = false /\
  strafeInterval (end_session d s) = false /\ listening (end_session d s) = false.
Proof. intros Hend. unfold end_session. rewrite Hend. by destruct (advanced d). Qed.

Lemma end_session_clears_attack d s :
  session_inv s -> ended s = false ->
  forall tid t, timers (end_session d s) !! tid = Some t ->
    is_attack (callback t) = false.
Proof.
  intros Hinv Hend tid t. unfold end_session. rewrite Hend.
  assert (Hcut : forall s1, timers s1 = match scheduledAttackTimeout s with
                                        | Some sa => delete sa (timers s)
                                        | None => timers s
                                        end ->
            timers s1 !! tid = Some t -> is_attack (callback t) = false).
  { intros s1 -> H. destruct (is_attack (callback t)) eqn:Ea; [|done].
    destruct (scheduledAttackTimeout s) as [sa|] eqn:Esa.
    - rewrite lookup_delete in H. case_decide as Hne; [done|].
      pose proof (inv_attack s Hinv _ _ H Ea). congruence.
    - pose proof (inv_attack s Hinv _ _ H Ea). congruence. }
  destruct (advanced d); apply Hcut;
    by destruct (scheduledAttackTimeout s).
Qed.

Lemma step_torn_down d ev s :
  session_inv s -> torn_down s -> torn_down (step d ev s).
Proof.
  intros Hinv Htd Hended.
  assert (Hcases : ev = EvEnd \/ ev <> EvEnd)
    by (destruct ev; (by left) || (by right)).
  destruct Hcases as [-> | Hev].
  - simpl in *. destruct (ended s) eqn:Es.
    + unfold end_session in *. rewrite Es in *. by apply Htd.
    + destruct (end_session_flags d s Es) as (_ & ? & ? & ?).
      repeat split; try done. by apply end_session_clears_attack.
  - destruct (step_life d ev s Hev) as (He & Hsc & Hst & Hli).
    rewrite He in Hended. destruct (Htd Hended) as (Hscan & Hstrafe & Hlisten & Hno).
    rewrite Hsc, Hst, Hli. repeat split; try done.
    intros tid t Ht. destruct (is_attack (callback t)) eqn:Ea; [|done].
    rewrite <- Ea. apply (Hno tid).
    by apply (step_no_new_attack d ev s Hscan).
Qed.

Lemma run_torn_down d evs s :
  session_inv s -> torn_down s -> torn_down (run d evs s).
Proof.
  revert s. induction evs as [|ev evs IH]; intros s Hinv Htd; simpl; [done|].
  apply IH; [by apply step_inv | by apply step_torn_down].
Qed.



(** X14: once a session has ended, no attack timer is ever pending again,
    and scan ticks, strafe ticks, 'health', 'playerCollect', 'death',
    'respawn' and a second 'end' change nothing. *)
Theorem ended_session_is_inert (d : Difficulty) (b : Bot) (evs : list Event) :
  let s := run d evs (spawn d b) in
  ended s = true ->
  (forall tid t, timers s !! tid = Some t -> is_attack (callback t) = false) /\
  (forall rnd, step d (EvScan rnd) s = s) /\
  (forall rnd, step d (EvStrafeTick rnd) s = s) /\
  (forall now, step d (EvHealth now) s = s) /\
  (forall collector, step d (EvPlayerCollect collector) s = s) /\
  step d EvDeath s = s /\ step d EvRespawn s = s /\ step d EvEnd s = s.
Proof.
  intros s Hended.
  assert (Htd : torn_down s).
  { apply run_torn_down; [apply spawn_inv|]. intros H. exfalso. revert H.
    unfold spawn. by destruct (advanced d). }
  destruct (Htd Hended) as (Hscan & Hstrafe & Hlisten & Hno).
  repeat split; try done; intros; simpl;
    rewrite ?Hscan, ?Hstrafe, ?Hlisten; try done.
  - by destruct (advanced d).
  - by destruct (advanced d).
  - unfold end_session. by rewrite Hended.
Qed.

Lemma ended_session_is_inert_witness :
  let s := run godlike [EvScan (1 # 2); EvEnd] (spawn godlike duel_world) in
  (forall tid t, timers s !! tid = Some t -> is_attack (callback t) = false) /\
  (forall rnd, step godlike (EvScan rnd) s = s) /\
  (forall rnd, step godlike (EvStrafeTick rnd) s = s) /\
  (forall now, step godlike (EvHealth now) s = s) /\
  (forall collector, step godlike (EvPlayerCollect collector) s = s) /\
  step godlike EvDeath s = s /\ step godlike EvRespawn s = s /\
  step godlike EvEnd s = s.
Proof.
  apply (ended_session_is_inert godlike duel_world [EvScan (1 # 2); EvEnd]).
  reflexivity.
Defined.

(* ===================================================================== *)
(** ** The debounce flag is never stuck                                   *)
(* ===================================================================== *)

Lemma frame_keeps_flag s s' : frame s s' -> equipScheduled s' = equipScheduled s.
Proof. intros F. apply (fr_flag _ _ F). Qed.

Lemma scheduleEquip_sets_timer s :
  equipScheduled s = false ->
  timers (scheduleEquip s) !! nextTimer s = Some (mkTimer CbEquipPass 0).
Proof.
  intros Hflag. unfold scheduleEquip. rewrite Hflag. simpl.
  by rewrite lookup_insert_eq.
Qed.

Lemma scan_keeps_flag d rnd s : equipScheduled (scan d rnd s) = equipScheduled s.
Proof. unfold scan. by repeat case_match. Qed.

(** An event that sets the flag also sets the gear-pass timer. *)
Lemma step_flag_set d ev s :
  equipScheduled s = false ->
  equipScheduled (step d ev s) = true ->
  exists tid dl, timers (step d ev s) !! tid = Some (mkTimer CbEquipPass dl).
Proof.
  intros Hflag.
  assert (Hframe : forall s', frame s s' -> equipScheduled s' = true ->
            exists tid dl, timers s' !! tid = Some (mkTimer CbEquipPass dl)).
  { intros s' F H. rewrite (frame_keeps_flag _ _ F) in H. congruence. }
  destruct ev; simpl.
  - apply Hframe. auto with frame.
  - case_match; [|congruence]. rewrite scan_keeps_flag. congruence.
  - apply Hframe. frame_solve.
  - apply Hframe. frame_solve.
  - case_match; [|congruence]. intros _. eexists _, _.
    by apply scheduleEquip_sets_timer.
  - case_match; [|congruence]. intros _. eexists _, _.
    by apply scheduleEquip_sets_timer.
  - apply Hframe. frame_solve.
  - apply Hframe. frame_solve.
  - unfold fire. destruct (timers s !! tid) as [t|]; [|congruence].
    destruct (callback t); cbv zeta;
      try (apply Hframe; auto with frame; fail).
    + intros H. exfalso. revert H. unfold equipPass.
      rewrite (frame_keeps_flag _ _
                 (frame_run_gear _ _ GEAR_SLOTS (frame_refl _))). done.
    + intros _. eexists _, _.
      by apply (scheduleEquip_sets_timer (clearTimeout tid s)).
  - apply Hframe. auto with frame.
  - apply Hframe. auto with frame.
  - apply Hframe. auto with frame.
Qed.

Lemma step_pass_alive d ev s :
  session_inv s -> pass_alive s -> pass_alive (step d ev s).
Proof.
  intros Hinv Halive Hset.
  destruct (equipScheduled s) eqn:Hflag; [|by apply step_flag_set].
  destruct (Halive Hflag) as (tid & dl & Ht).
  assert (Hfired : (exists a, ev = EvTimer tid a) \/ forall a, ev <> EvTimer tid a).
  { destruct ev; try (by right).
    destruct (decide (tid0 = tid)) as [-> | Hne]; [left; by eexists|].
    right. intros a [= ? ?]. done. }
  destruct Hfired as [[a ->] | Hother].
  - exfalso. revert Hset. simpl. unfold fire. rewrite Ht. simpl.
    unfold equipPass.
    rewrite (frame_keeps_flag _ _
               (frame_run_gear _ _ GEAR_SLOTS (frame_refl _))). done.
  - exists tid, dl. by apply step_keeps_timer.
Qed.

(** X15: [equipScheduled] is never stuck: in every state of a session in
    which the flag is set, the gear-pass timer that will clear it is
    pending. *)
Theorem equipScheduled_has_pending_pass
    (d : Difficulty) (b : Bot) (evs : list Event) :
  let s := run d evs (spawn d b) in
  equipScheduled s = true ->
  exists tid dl, timers s !! tid = Some (mkTimer CbEquipPass dl).
Proof.
  intros s. subst s.
  assert (H : forall s0, session_inv s0 -> pass_alive s0 ->
                         pass_alive (run d evs s0)).
  { induction evs as [|ev evs IH]; intros s0 Hinv Halive; simpl; [done|].
    apply IH; [by apply step_inv | by apply step_pass_alive]. }
  apply H; [apply spawn_inv|].
  unfold spawn. destruct (advanced d); [|done].
  intros _. exists 0%nat, 0%Q. simpl. by rewrite lookup_insert_eq.
Qed.

Lemma equipScheduled_has_pending_pass_witness :
  exists tid dl,
    timers (run godlike [EvTimer 0 None; EvUpdateSlot; EvUpdateSlot]
              (spawn godlike armed_world)) !! tid
      = Some (mkTimer CbEquipPass dl).
Proof.
  apply (equipScheduled_has_pending_pass godlike armed_world
           [EvTimer 0 None; EvUpdateSlot; EvUpdateSlot]).
  reflexivity.
Defined.

(* ===================================================================== *)
(** ** One heal at a time                                                 *)
(* ===================================================================== *)

Lemma xframe_heal_inv s s' : heal_inv s -> xframe s s' -> heal_inv s'.
Proof.
  intros [Ht Hr Htu Hru Hx] [Xp Xt Xk]. constructor.
  - intros k t [H | H]%Xk Hh; [|congruence]. rewrite Xp. by apply (Ht k t).
  - intros tid t [H | H]%Xt Hh; [|congruence]. rewrite Xp. by apply (Hr tid t).
  - intros k1 k2 t1 t2 [H1 | H1]%Xk [H2 | H2]%Xk Hh1 Hh2; try congruence.
    by apply (Htu k1 k2 t1 t2).
  - intros tid1 tid2 t1 t2 [H1 | H1]%Xt [H2 | H2]%Xt Hh1 Hh2; try congruence.
    by apply (Hru tid1 tid2 t1 t2).
  - intros k t tid tm [H1 | H1]%Xk Hh [H2 | H2]%Xt Hr'; try congruence.
    by apply (Hx k t tid tm).
Qed.

Section Xframe.
Variable s0 : Session.

Lemma xframe_refl : xframe s0 s0.
Proof. constructor; auto. Qed.

Lemma xframe_set_bot s v : xframe s0 s -> xframe s0 (set_bot v s).
Proof. intros []. by constructor. Qed.

Lemma xframe_control s key v : xframe s0 s -> xframe s0 (control key v s).
Proof. intros []. by constructor. Qed.

Lemma xframe_add_effect s e : xframe s0 s -> xframe s0 (add_effect e s).
Proof. intros []. by constructor. Qed.

Lemma xframe_add_log s m : xframe s0 s -> xframe s0 (add_log m s).
Proof. intros []. by constructor. Qed.

Lemma xframe_set_torn_down s v : xframe s0 s -> xframe s0 (set_torn_down v s).
Proof. intros []. by constructor. Qed.

Lemma xframe_hold s v : xframe s0 s -> xframe s0 (hold v s).
Proof. intros []. by constructor. Qed.

Lemma xframe_assign_entity s r v : xframe s0 s -> xframe s0 (assign_entity r v s).
Proof. intros []. by constructor. Qed.

Lemma xframe_set_strafeDirection s v :
  xframe s0 s -> xframe s0 (set_strafeDirection v s).
Proof. intros []. by constructor. Qed.

Lemma xframe_set_equipScheduled s v :
  xframe s0 s -> xframe s0 (set_equipScheduled v s).
Proof. intros []. by constructor. Qed.

Lemma xframe_set_scheduledAttackTimeout s v :
  xframe s0 s -> xframe s0 (set_scheduledAttackTimeout v s).
Proof. intros []. by constructor. Qed.

Lemma xframe_setTimeout s cb dl :
  is_reset cb = false -> xframe s0 s -> xframe s0 (setTimeout cb dl s).
Proof.
  intros Hcb [? Xt ?]. constructor; try done; simpl.
  intros tid t. rewrite lookup_insert. case_decide as Hd.
  - intros [= <-]. by right.
  - apply Xt.
Qed.

Lemma xframe_clearTimeout s tid : xframe s0 s -> xframe s0 (clearTimeout tid s).
Proof.
  intros [? Xt ?]. constructor; try done; simpl.
  intros tid' t. rewrite lookup_delete. case_decide as Hd; [done | apply Xt].
Qed.

Lemma xframe_suspend s t :
  is_heal t = false -> xframe s0 s -> xframe s0 (suspend t s).
Proof.
  intros Ht [? ? Xk]. constructor; try done; simpl.
  intros k t'. rewrite lookup_insert. case_decide as Hd.
  - intros [= <-]. by right.
  - apply Xk.
Qed.

Lemma xframe_drop_task s k :
  xframe s0 s -> xframe s0 (set_tasks (delete k (tasks s)) (nextTask s) s).
Proof.
  intros [? ? Xk]. constructor; try done; simpl.
  intros k' t. rewrite lookup_delete. case_decide as Hd; [done | apply Xk].
Qed.
End Xframe.

Create HintDb xframe discriminated.
#[local] Hint Resolve xframe_hold xframe_assign_entity : xframe.
#[local] Hint Resolve xframe_refl xframe_set_bot xframe_control
  xframe_add_effect xframe_add_log xframe_set_torn_down
  xframe_set_strafeDirection xframe_set_equipScheduled
  xframe_set_scheduledAttackTimeout xframe_clearTimeout xframe_drop_task
  : xframe.
#[local] Hint Extern 2 (xframe _ (setTimeout _ _ _)) =>
  apply xframe_setTimeout; [reflexivity |] : xframe.
#[local] Hint Extern 2 (xframe _ (suspend _ _)) =>
  apply xframe_suspend; [reflexivity |] : xframe.

Ltac xframe_solve :=
  cbv zeta; repeat case_match; eauto 14 with xframe.

Lemma xframe_stopStrafe s0 s : xframe s0 s -> xframe s0 (stopStrafe s).
Proof. intros. unfold stopStrafe. xframe_solve. Qed.

Lemma xframe_run_gear s0 s calls : xframe s0 s -> xframe s0 (run_gear calls s).
Proof. intros. unfold run_gear. xframe_solve. Qed.

Lemma xframe_scheduleEquip s0 s : xframe s0 s -> xframe s0 (scheduleEquip s).
Proof. intros. unfold scheduleEquip. xframe_solve. Qed.

#[local] Hint Resolve xframe_stopStrafe xframe_run_gear xframe_scheduleEquip
  : xframe.

Lemma xframe_scheduledAttack s0 s d target a :
  xframe s0 s -> xframe s0 (scheduledAttack d target a s).
Proof. intros. unfold scheduledAttack. xframe_solve. Qed.

#[local] Hint Resolve xframe_scheduledAttack : xframe.

Lemma attemptHeal_guard_idle b adv state now soup goldenApple :
  attemptHeal_guard b adv state now = HealGo soup goldenApple ->
  inProgress state = false.
Proof.
  unfold attemptHeal_guard. repeat case_match; try done.
  all: by destruct (inProgress state).
Qed.

(** Starting a heal. *)
Lemma heal_inv_start s s' k t :
  heal_inv s -> inProgress (healState s) = false ->
  timers s' = timers s -> tasks s' = <[k := t]> (tasks s) ->
  inProgress (healState s') = true ->
  heal_inv s'.
Proof.
  intros [Ht Hr Htu Hru Hx] Hidle Etimers Etasks Hset.
  assert (Hnotask : forall k' t', tasks s !! k' = Some t' -> is_heal t' = false).
  { intros k' t' H. destruct (is_heal t') eqn:E; [|done].
    rewrite (Ht _ _ H E) in Hidle. done. }
  assert (Hnoreset : forall tid tm, timers s !! tid = Some tm ->
                                    is_reset (callback tm) = false).
  { intros tid tm H. destruct (is_reset (callback tm)) eqn:E; [|done].
    rewrite (Hr _ _ H E) in Hidle. done. }
  constructor.
  - by intros.
  - by intros.
  - intros k1 k2 t1 t2. rewrite Etasks, !lookup_insert.
    repeat case_decide; try congruence.
    + intros _ Hy _ E. rewrite (Hnotask _ _ Hy) in E. done.
    + intros Hy _ E _. rewrite (Hnotask _ _ Hy) in E. done.
    + intros Hy _ E _. rewrite (Hnotask _ _ Hy) in E. done.
  - intros tid1 tid2 t1 t2 Hy _ E. rewrite Etimers in Hy.
    rewrite (Hnoreset _ _ Hy) in E. done.
  - intros k' t' tid tm _ _ Hy E. rewrite Etimers in Hy.
    rewrite (Hnoreset _ _ Hy) in E. done.
Qed.

(** The awaited equip settles: the heal moves on to its reset timer. *)
Lemma heal_inv_unwind s s' k t r :
  heal_inv s -> tasks s !! k = Some t -> is_heal t = true ->
  tasks s' = delete k (tasks s) ->
  inProgress (healState s') = inProgress (healState s) ->
  (forall tid tm, timers s' !! tid = Some tm -> is_reset (callback tm) = true ->
     timers s !! tid = Some tm \/ tid = r) ->
  heal_inv s'.
Proof.
  intros [Ht Hr Htu Hru Hx] Hk Hheal Etasks Eprog Htimers.
  assert (Hnotask : forall k' t', tasks s' !! k' = Some t' -> is_heal t' = false).
  { intros k' t'. rewrite Etasks, lookup_delete. case_decide as Hd; [done|].
    intros H. destruct (is_heal t') eqn:E; [|done].
    exfalso. apply Hd. by apply (Htu k k' t t'). }
  assert (Hat : forall tid tm, timers s' !! tid = Some tm ->
                  is_reset (callback tm) = true -> tid = r).
  { intros tid tm H E. destruct (Htimers _ _ H E) as [Hold | ->]; [|done].
    exfalso. by apply (Hx k t tid tm). }
  constructor.
  - intros k' t' H E. rewrite (Hnotask _ _ H) in E. done.
  - intros _ _ _ _. rewrite Eprog. by apply (Ht k t).
  - intros k1 k2 t1 t2 H _ E. rewrite (Hnotask _ _ H) in E. done.
  - intros tid1 tid2 t1 t2 H1 H2 E1 E2.
    rewrite (Hat _ _ H1 E1), (Hat _ _ H2 E2). done.
  - intros k' t' tid tm H E. rewrite (Hnotask _ _ H) in E. done.
Qed.

(** The reset timer fires: the heal is over. *)
Lemma heal_inv_reset s s' tid t :
  heal_inv s -> timers s !! tid = Some t -> is_reset (callback t) = true ->
  timers s' = delete tid (timers s) -> tasks s' = tasks s ->
  heal_inv s'.
Proof.
  intros [Ht Hr Htu Hru Hx] Htid Hreset Etimers Etasks.
  assert (Hnotask : forall k' t', tasks s' !! k' = Some t' -> is_heal t' = false).
  { intros k' t'. rewrite Etasks. intros H. destruct (is_heal t') eqn:E; [|done].
    exfalso. by apply (Hx k' t' tid t). }
  assert (Hnoreset : forall tid' tm, timers s' !! tid' = Some tm ->
                                     is_reset (callback tm) = false).
  { intros tid' tm. rewrite Etimers, lookup_delete. case_decide as Hd; [done|].
    intros H. destruct (is_reset (callback tm)) eqn:E; [|done].
    exfalso. apply Hd. by apply (Hru tid tid' t tm). }
  constructor.
  - intros k' t' H E. rewrite (Hnotask _ _ H) in E. done.
  - intros tid' tm H E. rewrite (Hnoreset _ _ H) in E. done.
  - intros k1 k2 t1 t2 H _ E. rewrite (Hnotask _ _ H) in E. done.
  - intros tid1 tid2 t1 t2 H _ E. rewrite (Hnoreset _ _ H) in E. done.
  - intros k' t' tid' tm H E. rewrite (Hnotask _ _ H) in E. done.
Qed.

Lemma heal_resume_heal_inv s k soup goldenApple now o a :
  heal_inv s -> tasks s !! k = Some (HealTask soup goldenApple now) ->
  heal_inv (heal_resume soup now o a
              (set_tasks (delete k (tasks s)) (nextTask s) s)).
Proof.
  intros Hinv Hk. unfold heal_resume. cbv zeta.
  destruct o as [|message]; [destruct a as [message|]|].
  - apply (heal_inv_unwind s _ k _ (nextTimer s) Hinv Hk); try done.
    simpl. intros tid tm. rewrite lookup_insert. case_decide as Hd;
      [by right | by left].
  - apply (heal_inv_unwind s _ k _ (S (nextTimer s)) Hinv Hk); try done.
    simpl. intros tid tm. rewrite !lookup_insert.
    repeat case_decide; try (by right); try (by left); by intros [= <-].
  - apply (heal_inv_unwind s _ k _ (nextTimer s) Hinv Hk); try done.
    simpl. intros tid tm. rewrite lookup_insert. case_decide as Hd;
      [by right | by left].
Qed.

Lemma step_heal_inv d ev s : heal_inv s -> heal_inv (step d ev s).
Proof.
  intros Hinv. destruct ev; simpl.
  - eapply xframe_heal_inv; [done|]. xframe_solve.
  - eapply xframe_heal_inv; [done|]. unfold scan. xframe_solve.
  - eapply xframe_heal_inv; [done|]. unfold strafeTick. xframe_solve.
  - destruct (advanced d) as [adv|]; [|done].
    destruct (listening s); [|done]. unfold healListener.
    destruct (attemptHeal_guard _ _ _ _) as [|soup goldenApple] eqn:Eg; [done|].
    apply attemptHeal_guard_idle in Eg.
    apply (heal_inv_start s _ (nextTask s) (HealTask soup goldenApple now));
      try done; by destruct soup, goldenApple.
  - eapply xframe_heal_inv; [done|]. xframe_solve.
  - eapply xframe_heal_inv; [done|]. xframe_solve.
  - eapply xframe_heal_inv; [done|]. xframe_solve.
  - eapply xframe_heal_inv; [done|]. xframe_solve.
  - unfold fire. destruct (timers s !! tid) as [t|] eqn:Ht; [|done].
    destruct (callback t) eqn:Ecb; cbv zeta;
      try (eapply xframe_heal_inv; [done|];
           unfold disengage, equipPass; xframe_solve; fail).
    apply (heal_inv_reset s _ tid t); try done. by rewrite Ecb.
  - unfold settle. destruct (tasks s !! k) as [t|] eqn:Hk; [|done].
    destruct t as [soup goldenApple now|rest]; cbv zeta.
    + by apply (heal_resume_heal_inv s k soup goldenApple).
    + eapply xframe_heal_inv; [done|]. unfold gear_resume. xframe_solve.
  - eapply xframe_heal_inv; [done|]. unfold end_session. xframe_solve.
  - eapply xframe_heal_inv; [done|]. xframe_solve.
Qed.

Lemma spawn_heal_inv d b : heal_inv (spawn d b).
Proof.
  unfold spawn. destruct (advanced d); constructor; simpl; try done;
    intros *; rewrite ?lookup_insert; repeat case_decide;
    try done; by intros [= <-].
Qed.

Lemma run_heal_inv d evs s : heal_inv s -> heal_inv (run d evs s).
Proof.
  revert s. induction evs as [|ev evs IH]; intros s Hinv; simpl; [done|].
  apply IH. by apply step_heal_inv.
Qed.

(** X16: at most one heal attempt is in flight. In every state of a
    session at most one [attemptHeal] is suspended in [bot.equip], at most
    one [inProgress] reset timer is pending, never both at once, and
    [inProgress] is set as long as either of them is there. *)
Theorem at_most_one_heal_in_flight
    (d : Difficulty) (b : Bot) (evs : list Event) :
  let s := run d evs (spawn d b) in
  (forall k1 k2 t1 t2,
     tasks s !! k1 = Some t1 -> tasks s !! k2 = Some t2 ->
     is_heal t1 = true -> is_heal t2 = true -> k1 = k2) /\
  (forall tid1 tid2 t1 t2,
     timers s !! tid1 = Some t1 -> timers s !! tid2 = Some t2 ->
     is_reset (callback t1) = true -> is_reset (callback t2) = true ->
     tid1 = tid2) /\
  (forall k t tid tm,
     tasks s !! k = Some t -> is_heal t = true ->
     timers s !! tid = Some tm -> is_reset (callback tm) = true -> False) /\
  (forall k t, tasks s !! k = Some t -> is_heal t = true ->
     inProgress (healState s) = true) /\
  (forall tid t, timers s !! tid = Some t -> is_reset (callback t) = true ->
     inProgress (healState s) = true).
Proof.
  intros s.
  assert (Hinv : heal_inv s) by apply run_heal_inv, spawn_heal_inv.
  destruct Hinv as [Ht Hr Htu Hru Hx]. done.
Qed.

Lemma xframe_keeps_progress s s' :
  xframe s s' -> inProgress (healState s') = inProgress (healState s).
Proof. intros X. apply (xf_progress _ _ X). Qed.

Lemma heal_resume_keeps_progress soup now o a s :
  inProgress (healState (heal_resume soup now o a s)) = inProgress (healState s).
Proof. unfold heal_resume. by repeat case_match. Qed.

Lemma heal_resume_sets_reset soup now o a s :
  exists tid tm,
    timers (heal_resume soup now o a s) !! tid = Some tm /\
    is_reset (callback tm) = true.
Proof.
  unfold heal_resume. cbv zeta.
  destruct o as [|message]; [destruct a as [message|]|].
  - exists (nextTimer s). eexists. simpl. by rewrite lookup_insert_eq.
  - exists (S (nextTimer s)). eexists. simpl.
    rewrite lookup_insert_ne by lia. by rewrite lookup_insert_eq.
  - exists (nextTimer s). eexists. simpl. by rewrite lookup_insert_eq.
Qed.

(** An event that sets [inProgress] also suspends a heal. *)
Lemma step_progress_set d ev s :
  inProgress (healState s) = false ->
  inProgress (healState (step d ev s)) = true ->
  exists k t, tasks (step d ev s) !! k = Some t /\ is_heal t = true.
Proof.
  intros Hidle.
  assert (Hx : forall s', xframe s s' -> inProgress (healState s') = true ->
            exists k t, tasks s' !! k = Some t /\ is_heal t = true).
  { intros s' X H. rewrite (xframe_keeps_progress _ _ X) in H. congruence. }
  destruct ev; simpl.
  - apply Hx. xframe_solve.
  - apply Hx. unfold scan. xframe_solve.
  - apply Hx. unfold strafeTick. xframe_solve.
  - destruct (advanced d) as [adv|]; [|congruence].
    destruct (listening s); [|congruence]. unfold healListener.
    destruct (attemptHeal_guard _ _ _ _) as [|soup goldenApple]; [congruence|].
    intros _. exists (nextTask s), (HealTask soup goldenApple now).
    split; [|done]. destruct soup, goldenApple; simpl; by rewrite lookup_insert_eq.
  - apply Hx. xframe_solve.
  - apply Hx. xframe_solve.
  - apply Hx. xframe_solve.
  - apply Hx. xframe_solve.
  - unfold fire. destruct (timers s !! tid) as [t|]; [|congruence].
    destruct (callback t); cbv zeta;
      try (apply Hx; unfold disengage, equipPass; xframe_solve; fail).
    done.
  - unfold settle. destruct (tasks s !! k) as [t|]; [|congruence].
    destruct t as [soup goldenApple now|rest]; cbv zeta.
    + rewrite heal_resume_keeps_progress. simpl. congruence.
    + apply Hx. unfold gear_resume. xframe_solve.
  - apply Hx. unfold end_session. xframe_solve.
  - apply Hx. xframe_solve.
Qed.

Lemma step_heal_alive d ev s :
  session_inv s -> heal_alive s -> heal_alive (step d ev s).
Proof.
  intros Hinv Halive Hset.
  destruct (inProgress (healState s)) eqn:Hprog;
    [|left; by apply step_progress_set].
  destruct (Halive Hprog) as [(k & t & Hk & Hheal) | (tid & tm & Htid & Hreset)].
  - assert (Hsettled : (exists o a, ev = EvSettle k o a) \/
                       forall o a, ev <> EvSettle k o a).
    { destruct ev; try (by right).
      destruct (decide (k0 = k)) as [-> | Hne]; [left; by do 2 eexists|].
      right. intros o' a' [= ? ? ?]. done. }
    destruct Hsettled as [(o & a & ->) | Hother].
    + right. simpl. unfold settle. rewrite Hk.
      destruct t as [soup goldenApple now|rest]; [|done].
      apply heal_resume_sets_reset.
    + left. exists k, t. split; [|done]. by apply step_keeps_task.
  - assert (Hfired : (exists a, ev = EvTimer tid a) \/
                     forall a, ev <> EvTimer tid a).
    { destruct ev; try (by right).
      destruct (decide (tid0 = tid)) as [-> | Hne]; [left; by eexists|].
      right. intros a' [= ? ?]. done. }
    destruct Hfired as [[a ->] | Hother].
    + exfalso. revert Hset. simpl. unfold fire. rewrite Htid.
      destruct (callback tm); done.
    + right. exists tid, tm. split; [|done]. apply step_keeps_timer; try done.
      by destruct (callback tm).
Qed.

(** X17: [inProgress] is never set without a heal behind it: in every
    state of a session in which it is set, either an [attemptHeal] is
    suspended in [bot.equip] or the timer that resets [inProgress] is
    pending. *)
Theorem inProgress_has_pending_unwind
    (d : Difficulty) (b : Bot) (evs : list Event) :
  let s := run d evs (spawn d b) in
  inProgress (healState s) = true ->
  (exists k t, tasks s !! k = Some t /\ is_heal t = true) \/
  (exists tid tm, timers s !! tid = Some tm /\ is_reset (callback tm) = true).
Proof.
  intros s. subst s.
  assert (H : forall s0, session_inv s0 -> heal_alive s0 ->
                         heal_alive (run d evs s0)).
  { induction evs as [|ev evs IH]; intros s0 Hinv Halive; simpl; [done|].
    apply IH; [by apply step_inv | by apply step_heal_alive]. }
  apply H; [apply spawn_inv|].
  unfold spawn. intros Hset. exfalso. revert Hset. by destruct (advanced d).
Qed.

Lemma inProgress_has_pending_unwind_witness :
  (exists k t,
     tasks (run godlike [EvHealth 1700000000000; EvSettle 0 Resolved None]
              (spawn godlike hurt_world)) !! k = Some t /\
     is_heal t = true) \/
  (exists tid tm,
     timers (run godlike [EvHealth 1700000000000; EvSettle 0 Resolved None]
               (spawn godlike hurt_world)) !! tid = Some tm /\
     is_reset (callback tm) = true).
Proof.
  apply (inProgress_has_pending_unwind godlike hurt_world
           [EvHealth 1700000000000; EvSettle 0 Resolved None]).
  reflexivity.
Defined.

(* ===================================================================== *)
(** ** A gear pass only moves forward                                     *)
(* ===================================================================== *)

Lemma equipBestGear_await_suffix b calls best dst rest :
  equipBestGear b calls = PassAwait best dst rest ->
  exists skipped pl, calls = (skipped ++ (pl, dst) :: rest)%list.
Proof.
  induction calls as [|[pl dst'] calls IH]; simpl; [done|].
  destruct (equipBestItemForSlot b pl dst') as [best'|].
  - intros [= <- <- <-]. by exists [], pl.
  - intros H. destruct (IH H) as (skipped & pl' & ->).
    by exists ((pl, dst') :: skipped), pl'.
Qed.

Lemma run_gear_forward calls made s :
  GEAR_SLOTS = (made ++ calls)%list ->
  gear_forward s -> gear_forward (run_gear calls s).
Proof.
  intros Hcalls Hs. unfold run_gear.
  destruct (equipBestGear (bot s) calls) as [|best dst rest] eqn:E; [done|].
  destruct (equipBestGear_await_suffix _ _ _ _ _ E) as (skipped & pl & ->).
  intros k rest'. simpl. rewrite lookup_insert. case_decide as Hd.
  - intros [= <-]. exists (made ++ skipped ++ [(pl, dst)])%list. split.
    + intros H. apply app_eq_nil in H as [_ H].
      apply app_eq_nil in H as [_ H]. done.
    + rewrite Hcalls. by rewrite <- !app_assoc.
  - apply Hs.
Qed.

Lemma drop_task_forward s k :
  gear_forward s ->
  gear_forward (set_tasks (delete k (tasks s)) (nextTask s) s).
Proof.
  intros Hs k' rest. simpl. rewrite lookup_delete.
  case_decide as Hd; [done | apply Hs].
Qed.

Lemma same_tasks_forward s s' :
  tasks s' = tasks s -> gear_forward s -> gear_forward s'.
Proof. intros E Hs k rest. rewrite E. apply Hs. Qed.

Lemma scheduledAttack_tasks d target a s :
  tasks (scheduledAttack d target a s) = tasks s.
Proof. unfold scheduledAttack. by repeat case_match. Qed.

Lemma heal_resume_tasks soup now o a s :
  tasks (heal_resume soup now o a s) = tasks s.
Proof. unfold heal_resume. by repeat case_match. Qed.

Lemma step_gear_forward d ev s : gear_forward s -> gear_forward (step d ev s).
Proof.
  intros Hs. destruct ev; simpl.
  - done.
  - apply (same_tasks_forward s); [|done]. unfold scan. by repeat case_match.
  - apply (same_tasks_forward s); [|done]. unfold strafeTick.
    by repeat case_match.
  - destruct (advanced d) as [adv|]; [|done].
    destruct (listening s); [|done]. unfold healListener.
    destruct (attemptHeal_guard _ _ _ _) as [|soup goldenApple]; [done|].
    intros k rest.
    assert (E : tasks (suspend (HealTask soup goldenApple now)
                         match soup, goldenApple with
                         | Some item, _ => add_effect (Equip item hand)
                             (set_healState (mkHealState true (lastHeal (healState s))) s)
                         | None, Some item => add_effect (Equip item hand)
                             (set_healState (mkHealState true (lastHeal (healState s))) s)
                         | None, None =>
                             set_healState (mkHealState true (lastHeal (healState s))) s
                         end)
                = <[nextTask s := HealTask soup goldenApple now]> (tasks s))
      by by destruct soup, goldenApple.
    rewrite E, lookup_insert. case_decide as Hd; [done | apply Hs].
  - apply (same_tasks_forward s); [|done]. unfold scheduleEquip.
    by repeat case_match.
  - apply (same_tasks_forward s); [|done]. unfold scheduleEquip.
    by repeat case_match.
  - apply (same_tasks_forward s); [|done]. by repeat case_match.
  - apply (same_tasks_forward s); [|done]. by repeat case_match.
  - unfold fire. destruct (timers s !! tid) as [t|]; [|done].
    destruct (callback t); cbv zeta.
    + apply (same_tasks_forward s); [|done]. by rewrite scheduledAttack_tasks.
    + apply (same_tasks_forward s); [|done]. unfold disengage.
      by repeat case_match.
    + unfold equipPass. by apply (run_gear_forward GEAR_SLOTS []).
    + apply (same_tasks_forward s); [|done]. unfold scheduleEquip.
      by repeat case_match.
    + done.
    + done.
    + done.
  - unfold settle. destruct (tasks s !! k) as [t|] eqn:Hk; [|done].
    destruct t as [soup goldenApple now|rest]; cbv zeta.
    + apply (same_tasks_forward
               (set_tasks (delete k (tasks s)) (nextTask s) s));
        [by rewrite heal_resume_tasks | by apply drop_task_forward].
    + unfold gear_resume. destruct (equipBestItemForSlot_settle o).
      * by apply (drop_task_forward s k).
      * destruct (Hs _ _ Hk) as (made & _ & Hmade).
        apply (run_gear_forward rest made); [done | by apply drop_task_forward].
  - apply (same_tasks_forward s); [|done]. unfold end_session.
    by repeat case_match.
  - done.
Qed.

(** X18: a gear pass only moves forward through the six calls of
    [equipBestGear]: whenever a pass is suspended in [bot.equip], the calls
    it has left are a strict tail of the six, so one pass makes at most
    six equips and visits no slot twice. *)
Theorem gear_pass_moves_forward
    (d : Difficulty) (b : Bot) (evs : list Event) (k : nat)
    (rest : list (list string * Destination)) :
  tasks (run d evs (spawn d b)) !! k = Some (GearTask rest) ->
  (exists made, made <> [] /\ GEAR_SLOTS = (made ++ rest)%list) /\
  (length rest < 6)%nat.
Proof.
  assert (H : forall s0, gear_forward s0 -> gear_forward (run d evs s0)).
  { induction evs as [|ev evs IH]; intros s0 Hs0; simpl; [done|].
    apply IH. by apply step_gear_forward. }
  assert (H0 : gear_forward (spawn d b)).
  { unfold spawn. intros k' rest'. by destruct (advanced d). }
  intros Hk. destruct (H _ H0 _ _ Hk) as (made & Hne & Hmade).
  split; [by exists made|].
  assert (Hlen : length GEAR_SLOTS = 6%nat) by reflexivity.
  rewrite Hmade, length_app in Hlen. destruct made; [done|]. simpl in Hlen. lia.
Qed.

Lemma gear_pass_moves_forward_witness :
  (exists made, made <> [] /\
     GEAR_SLOTS = (made ++ skipn 1 GEAR_SLOTS)%list) /\
  (length (skipn 1 GEAR_SLOTS) < 6)%nat.
Proof.
  apply (gear_pass_moves_forward godlike armed_world [EvTimer 0 None] 0).
  vm_compute. reflexivity.
Defined.

(* ===================================================================== *)
(** ** Command line: what the parsers guarantee                           *)
(* ===================================================================== *)

Lemma parseServer_returned raw srv :
  parseServer raw = Returned srv ->
  exists hostPart,
    split_colon raw !! 0%nat = Some hostPart /\
    host srv = trim hostPart /\ host srv <> "" /\
    match split_colon raw !! 1%nat with
    | None | Some EmptyString => port srv = DEFAULT_PORT
    | Some p =>
      parseInt10 p = Some (port srv) /\ (1 <= port srv <= 65535)%Z
    end.
Proof.
  unfold parseServer. destruct raw as [|c raw]; [done|].
  cbv zeta. generalize (split_colon (String c raw)). intros parts.
  destruct (parts !! 0%nat) as [hostPart|]; simpl; [|done].
  destruct (trim hostPart) as [|hc h] eqn:Eh; [done|].
  destruct (parts !! 1%nat) as [[|pc p]|].
  - intros [= <-]. exists hostPart. simpl. by rewrite Eh.
  - destruct (parseInt10 (String pc p)) as [v|]; [|done].
    destruct ((v <=? 0) || (65535 <? v))%Z eqn:Erange; [done|].
    intros [= <-]. exists hostPart. simpl. rewrite Eh.
    apply orb_false_iff in Erange as [H0 H1].
    apply Z.leb_gt in H0. apply Z.ltb_ge in H1.
    repeat split; try done; lia.
  - intros [= <-]. exists hostPart. simpl. by rewrite Eh.
Qed.

Lemma parseServer_port_range raw srv :
  parseServer raw = Returned srv ->
  host srv <> "" /\ (1 <= port srv <= 65535)%Z.
Proof.
  intros H. destruct (parseServer_returned _ _ H) as (hp & _ & _ & Hh & Hp).
  split; [done|].
  destruct (split_colon raw !! 1%nat) as [[|pc p]|];
    [rewrite Hp; done | apply Hp | rewrite Hp; done].
Qed.

(** X19: when [parseServer] returns, the host is the trimmed text before
    the first colon and is not empty; the port is 25565 when there is no
    text between the first and the second colon, and otherwise it is the
    integer [parseInt] reads there, which lies between 1 and 65535. Text
    after a second colon is ignored. *)
Theorem parseServer_returns_valid_address (raw : string) (srv : Server) :
  parseServer raw = Returned srv ->
  exists hostPart,
    split_colon raw !! 0%nat = Some hostPart /\
    host srv = trim hostPart /\ host srv <> "" /\
    (1 <= port srv <= 65535)%Z /\
    match split_colon raw !! 1%nat with
    | None | Some EmptyString => port srv = DEFAULT_PORT
    | Some p => parseInt10 p = Some (port srv)
    end.
Proof.
  intros H. destruct (parseServer_returned _ _ H) as (hp & H0 & Hh & Hne & Hp).
  exists hp. repeat split; try done; try apply (parseServer_port_range raw srv H).
  destruct (split_colon raw !! 1%nat) as [[|pc p]|]; try done. apply Hp.
Qed.

Lemma parseServer_returns_valid_address_witness :
  exists hostPart,
    split_colon " play.example.net :25570:9" !! 0%nat = Some hostPart /\
    host (mkServer "play.example.net" 25570) = trim hostPart /\
    host (mkServer "play.example.net" 25570) <> "" /\
    (1 <= port (mkServer "play.example.net" 25570) <= 65535)%Z /\
    match split_colon " play.example.net :25570:9" !! 1%nat with
    | None | Some EmptyString =>
      port (mkServer "play.example.net" 25570) = DEFAULT_PORT
    | Some p => parseInt10 p = Some (port (mkServer "play.example.net" 25570))
    end.
Proof.
  apply (parseServer_returns_valid_address " play.example.net :25570:9"
           (mkServer "play.example.net" 25570)).
  vm_compute. reflexivity.
Defined.

Lemma parseArgs_loop_valid n : forall args c c',
  (length args <= n)%nat ->
  valid_config c ->
  parseArgs_loop args c = Returned c' ->
  valid_config c' /\ server c' <> None.
Proof.
  induction n as [|n IH]; intros args c c' Hlen Hc.
  - destruct args; [|simpl in Hlen; lia]. simpl.
    destruct (server c) eqn:Es; [|done]. intros [= <-]. split; [done|].
    by rewrite Es.
  - destruct args as [|arg rest].
    { simpl. destruct (server c) eqn:Es; [|done]. intros [= <-].
      split; [done|]. by rewrite Es. }
    simpl in Hlen. destruct Hc as (Hsrv & Hbots & Hdiff).
    assert (Hset : forall dv, dv = easy \/ dv = hard \/ dv = godlike ->
              valid_config (mkConfig dv (bots c) (server c))) by by intros.
    assert (Hserver : forall next srv, parseServer next = Returned srv ->
              valid_config (mkConfig (difficulty c) (bots c) (Some srv))).
    { intros next srv Hp. split; [|done]. intros ? [= <-].
      by apply (parseServer_port_range next). }
    cbn [parseArgs_loop]. repeat case_match; try done; intros Hloop;
      (eapply IH; [| |exact Hloop]; [simpl in *; lia|]);
      eauto 6.
    split; [done|]. split; [|done]. simpl.
    match goal with H : (_ <=? 0)%Z = false |- _ => apply Z.leb_gt in H end. lia.
Qed.

(** X20: when [parseArgs] returns, a server address was given and is a
    valid one (host not empty, port between 1 and 65535), the number of
    bots is at least 1, and the difficulty is one of the three presets. *)
Theorem parseArgs_returns_valid_config (argv : list string) (c : Config) :
  parseArgs argv = Returned c ->
  (exists srv, server c = Some srv /\
     host srv <> "" /\ (1 <= port srv <= 65535)%Z) /\
  (1 <= bots c)%Z /\
  (difficulty c = easy \/ difficulty c = hard \/ difficulty c = godlike).
Proof.
  intros H. unfold parseArgs in H.
  apply (parseArgs_loop_valid (length (skipn 2 argv))) in H as [Hv Hs];
    [|done|].
  - destruct Hv as (Hsrv & Hb & Hd). repeat split; try done.
    destruct (server c) as [srv|]; [|done]. exists srv. split; [done|].
    by apply Hsrv.
  - split; [done|]. split; [done | by left].
Qed.

Lemma parseArgs_returns_valid_config_witness :
  (exists srv,
     server (mkConfig hard 3 (Some (mkServer "192.168.1.50" 25565))) = Some srv /\
     host srv <> "" /\ (1 <= port srv <= 65535)%Z) /\
  (1 <= bots (mkConfig hard 3 (Some (mkServer "192.168.1.50" 25565))))%Z /\
  (difficulty (mkConfig hard 3 (Some (mkServer "192.168.1.50" 25565))) = easy \/
   difficulty (mkConfig hard 3 (Some (mkServer "192.168.1.50" 25565))) = hard \/
   difficulty (mkConfig hard 3 (Some (mkServer "192.168.1.50" 25565))) = godlike).
Proof.
  apply (parseArgs_returns_valid_config
           ["node"; "src/index.js"; "-s"; "192.168.1.50"; "-h"; "-b"; "3"]
           (mkConfig hard 3 (Some (mkServer "192.168.1.50" 25565)))).
  vm_compute. reflexivity.
Defined.

(** A flag that only sets the difficulty, appended to an argument list
    that [parseArgs_loop] accepts. *)
Lemma parseArgs_loop_trailing flag dv n : forall args c c',
  startsWith_dash flag = true ->
  (forall rest cfg,
     parseArgs_loop (flag :: rest) cfg
       = parseArgs_loop rest (mkConfig dv (bots cfg) (server cfg))) ->
  (length args <= n)%nat ->
  parseArgs_loop args c = Returned c' ->
  parseArgs_loop (args ++ [flag]) c
    = Returned (mkConfig dv (bots c') (server c')).
Proof.
  intros args c c' Hdash Hflag. revert args c c'.
  assert (Hnonempty : String.eqb flag "" = false) by (by destruct flag).
  assert (Hbase : forall c c', parseArgs_loop [] c = Returned c' ->
            parseArgs_loop [flag] c = Returned (mkConfig dv (bots c') (server c'))).
  { intros c c'. rewrite Hflag. simpl.
    destruct (server c) eqn:Es; [|done]. intros [= <-]. by rewrite Es. }
  induction n as [|n IH]; intros args c c' Hlen.
  - destruct args; [|simpl in Hlen; lia]. apply Hbase.
  - destruct args as [|arg rest]; [apply Hbase|].
    simpl in Hlen. rewrite <- app_comm_cons. cbn [parseArgs_loop].
    destruct (String.eqb arg "-s").
    { destruct rest as [|next rest'].
      - intros H. cbn [app]. rewrite Hnonempty, Hdash. cbn [negb andb].
        by apply Hbase.
      - rewrite <- app_comm_cons.
        destruct (negb (String.eqb next "") && negb (startsWith_dash next)).
        + destruct (parseServer next); try done. apply IH. simpl in Hlen. lia.
        + rewrite app_comm_cons. apply IH. lia. }
    destruct (String.eqb arg "--server").
    { destruct rest as [|next rest']; [done|]. rewrite <- app_comm_cons.
      destruct (String.eqb next "" || startsWith_dash next); [done|].
      destruct (parseServer next); try done. apply IH. simpl in Hlen. lia. }
    destruct (String.eqb arg "-h" || String.eqb arg "--hard");
      [apply IH; lia|].
    destruct (String.eqb arg "-g" || String.eqb arg "--godlike");
      [apply IH; lia|].
    destruct (String.eqb arg "-b" || String.eqb arg "--bots").
    { destruct rest as [|next rest']; [done|]. rewrite <- app_comm_cons.
      destruct (String.eqb next "" || startsWith_dash next); [done|].
      destruct (parseInt10 next) as [v|]; [|done].
      destruct (v <=? 0)%Z; [done|]. apply IH. simpl in Hlen. lia. }
    destruct (String.eqb arg "--help" || String.eqb arg "-?"); done.
Qed.

(** X21: the last difficulty flag wins. When [parseArgs] accepts a command
    line, it also accepts it with [-g] (or [-h]) appended, and the result
    differs only in the difficulty, which is then godlike (or hard). *)
Theorem parseArgs_trailing_flag_overrides (argv : list string) (c : Config) :
  parseArgs argv = Returned c ->
  parseArgs (argv ++ ["-g"]) = Returned (mkConfig godlike (bots c) (server c)) /\
  parseArgs (argv ++ ["-h"]) = Returned (mkConfig hard (bots c) (server c)).
Proof.
  unfold parseArgs. intros H.
  assert (Hlen : (2 <= length argv)%nat).
  { destruct argv as [|a0 [|a1 argv]]; simpl in *; try done; lia. }
  assert (Hskip : forall f, skipn 2 (argv ++ [f]) = (skipn 2 argv ++ [f])%list).
  { intros f. rewrite skipn_app.
    replace (2 - length argv)%nat with 0%nat by lia. done. }
  rewrite !Hskip. split.
  - by apply (parseArgs_loop_trailing "-g" godlike (length (skipn 2 argv))).
  - by apply (parseArgs_loop_trailing "-h" hard (length (skipn 2 argv))).
Qed.

Lemma parseArgs_trailing_flag_overrides_witness :
  parseArgs (["node"; "src/index.js"; "-s"; "192.168.1.50"; "-s"] ++ ["-g"])
    = Returned (mkConfig godlike
        (bots (mkConfig easy 1 (Some (mkServer "192.168.1.50" 25565))))
        (server (mkConfig easy 1 (Some (mkServer "192.168.1.50" 25565))))) /\
  parseArgs (["node"; "src/index.js"; "-s"; "192.168.1.50"; "-s"] ++ ["-h"])
    = Returned (mkConfig hard
        (bots (mkConfig easy 1 (Some (mkServer "192.168.1.50" 25565))))
        (server (mkConfig easy 1 (Some (mkServer "192.168.1.50" 25565))))).
Proof.
  apply (parseArgs_trailing_flag_overrides
           ["node"; "src/index.js"; "-s"; "192.168.1.50"; "-s"]
           (mkConfig easy 1 (Some (mkServer "192.168.1.50" 25565)))).
  vm_compute. reflexivity.
Defined.

Lemma split_colon_no_colon (s : string) :
  (forall pre post, s <> pre +:+ ":" +:+ post) ->
  split_colon s = [s].
Proof.
  induction s as [|c s IH]; intros Hno; simpl; [done|].
  destruct (Ascii.eqb c ":") eqn:Ec.
  - apply Ascii.eqb_eq in Ec as ->. exfalso. by apply (Hno "" s).
  - rewrite IH; [done|]. intros pre post ->.
    apply (Hno (String c pre) post). by rewrite append_cons.
Qed.

(** X22: an address without a colon is a host alone: when its trimmed text
    is not empty, [parseServer] returns that trimmed text as host, with
    port 25565. *)
Theorem parseServer_host_only_default_port (raw : string) :
  (forall pre post, raw <> pre +:+ ":" +:+ post) ->
  trim raw <> "" ->
  parseServer raw = Returned (mkServer (trim raw) DEFAULT_PORT).
Proof.
  intros Hno Htrim. unfold parseServer.
  destruct raw as [|c raw]; [done|]. cbv zeta.
  rewrite (split_colon_no_colon _ Hno). simpl.
  by destruct (trim (String c raw)).
Qed.

Lemma parseServer_host_only_default_port_witness :
  parseServer " kitpvp.local "
    = Returned (mkServer (trim " kitpvp.local ") DEFAULT_PORT).
Proof.
  apply (parseServer_host_only_default_port " kitpvp.local ").
  - intros pre post H.
    assert (Hc : contains ":" " kitpvp.local " = true)
      by (apply contains_spec; by exists pre, post).
    vm_compute in Hc. discriminate.
  - vm_compute. discriminate.
Defined.

(* ===================================================================== *)
(** ** Unloaded-chunk warnings: keys and life cycle                       *)
(* ===================================================================== *)

Lemma comma_free_pretty_N_go (x : N) (s : string) :
  comma_free s = true -> comma_free (pretty_N_go x s) = true.
Proof.
  revert s. induction (N.lt_wf_0 x) as [x _ IH]; intros s Hs.
  assert (x = 0 \/ 0 < x)%N as [-> | Hpos] by lia.
  - by rewrite pretty_N_go_0.
  - rewrite pretty_N_go_step by done. apply IH; [by apply N.div_lt|].
    simpl. rewrite Hs, andb_true_r. unfold pretty_N_char.
    by repeat case_match.
Qed.

Lemma comma_free_pretty_Z (x : Z) : comma_free (pretty x) = true.
Proof.
  destruct x as [|p|p]; [done | |].
  - unfold pretty, pretty_Z, pretty, pretty_positive, pretty, pretty_N.
    case_decide; [done|]. by apply comma_free_pretty_N_go.
  - unfold pretty, pretty_Z. rewrite append_cons, append_empty. simpl.
    unfold pretty, pretty_positive, pretty, pretty_N.
    case_decide; [done|]. by apply comma_free_pretty_N_go.
Qed.

Lemma comma_split (a a' b b' : string) :
  comma_free a = true -> comma_free a' = true ->
  a +:+ "," +:+ b = a' +:+ "," +:+ b' -> a = a' /\ b = b'.
Proof.
  revert a'. induction a as [|c a IH]; intros [|c' a'] Ha Ha';
    rewrite ?append_empty, ?append_cons, ?append_empty; intros Heq.
  - injection Heq as ->. done.
  - injection Heq as <- _. simpl in Ha'. done.
  - injection Heq as -> _. simpl in Ha. done.
  - injection Heq as -> Hrest. simpl in Ha, Ha'.
    apply andb_true_iff in Ha as [_ Ha]. apply andb_true_iff in Ha' as [_ Ha'].
    destruct (IH a' Ha Ha' Hrest) as [Ea Eb]. by subst.
Qed.

Lemma chunkKey_inj x z x' z' : chunkKey x z = chunkKey x' z' -> x = x' /\ z = z'.
Proof.
  unfold chunkKey. intros H.
  apply comma_split in H as [Hx Hz]; try apply comma_free_pretty_Z.
  split; by apply (inj pretty).
Qed.

(** X23: distinct chunks have distinct keys, so a warning or a load for
    one chunk never changes whether another chunk is in the skipped
    set. *)
Theorem chunk_keys_do_not_collide
    (user : string) (x z x' z' : Z) (t : ChunkTracker)
    (n : option nat) (loaded : bool) :
  (x, z) <> (x', z') ->
  chunkKey x z <> chunkKey x' z' /\
  (chunkKey x' z' ∈ skippedBlockEntityChunks
     (chunkWarningListener user (Some (mkPacket x z n)) loaded t)
   <-> chunkKey x' z' ∈ skippedBlockEntityChunks t) /\
  (chunkKey x' z' ∈ skippedBlockEntityChunks
     (chunkLoadListener user (Some (x, z)) t)
   <-> chunkKey x' z' ∈ skippedBlockEntityChunks t).
Proof.
  intros Hne.
  assert (Hkey : chunkKey x z <> chunkKey x' z').
  { intros [<- <-]%chunkKey_inj. done. }
  split; [done|]. split.
  - unfold chunkWarningListener. simpl.
    destruct n as [[|n]|]; try done. destruct loaded; [done|].
    case_bool_decide as Hd; [done|]. simpl.
    rewrite elem_of_union, elem_of_singleton.
    split; [intros [Heq | Hin]; [by symmetry in Heq | done] | by right].
  - unfold chunkLoadListener. cbv zeta.
    case_bool_decide as Hd; [|done]. simpl.
    rewrite elem_of_difference, elem_of_singleton.
    split; [by intros [Hin _] | intros Hin; split; [done | by intros Heq; symmetry in Heq]].
Qed.

Lemma chunk_keys_do_not_collide_witness :
  chunkKey 1 (-12) <> chunkKey 11 2 /\
  (chunkKey 11 2 ∈ skippedBlockEntityChunks
     (chunkWarningListener "KitPvPBot_1_7" (Some (mkPacket 1 (-12) (Some 2%nat)))
        false (mkChunkTracker ∅ []))
   <-> chunkKey 11 2 ∈ skippedBlockEntityChunks (mkChunkTracker ∅ [])) /\
  (chunkKey 11 2 ∈ skippedBlockEntityChunks
     (chunkLoadListener "KitPvPBot_1_7" (Some (1, -12)%Z) (mkChunkTracker ∅ []))
   <-> chunkKey 11 2 ∈ skippedBlockEntityChunks (mkChunkTracker ∅ [])).
Proof.
  apply (chunk_keys_do_not_collide "KitPvPBot_1_7" 1 (-12) 11 2
           (mkChunkTracker ∅ []) (Some 2%nat) false).
  congruence.
Defined.

(** X24: an unloaded chunk with block entities is warned about once: the
    first packet adds its key and logs one line, and a further packet for
    the same chunk changes nothing; when the chunk then loads, its key is
    removed and one line is logged, so that the tracker's set is as it was
    before the warning; a load of a chunk that was not skipped changes
    nothing. *)
Theorem chunk_warned_once_until_loaded
    (user : string) (x z : Z) (n : nat) (t : ChunkTracker) :
  chunkKey x z ∉ skippedBlockEntityChunks t ->
  let warn := chunkWarningListener user (Some (mkPacket x z (Some (S n)))) false in
  let t1 := warn t in
  chunkKey x z ∈ skippedBlockEntityChunks t1 /\
  length (chunk_log t1) = S (length (chunk_log t)) /\
  warn t1 = t1 /\
  skippedBlockEntityChunks (chunkLoadListener user (Some (x, z)) t1)
    = skippedBlockEntityChunks t /\
  length (chunk_log (chunkLoadListener user (Some (x, z)) t1))
    = S (S (length (chunk_log t))) /\
  chunkLoadListener user (Some (x, z)) t = t.
Proof.
  intros Hfresh warn t1.
  set (key := chunkKey x z) in *.
  assert (E1 : exists line,
            t1 = mkChunkTracker ({[key]} ∪ skippedBlockEntityChunks t)
                   (chunk_log t ++ [line])).
  { eexists. subst t1 warn. unfold chunkWarningListener. simpl. fold key.
    by rewrite (bool_decide_eq_false_2 _ Hfresh). }
  destruct E1 as (line & E1).
  assert (Hin : key ∈ {[key]} ∪ skippedBlockEntityChunks t).
  { rewrite elem_of_union, elem_of_singleton. by left. }
  assert (Hback : ({[key]} ∪ skippedBlockEntityChunks t) ∖ {[key]}
                  = skippedBlockEntityChunks t).
  { apply set_eq. intros k.
    rewrite elem_of_difference, elem_of_union, elem_of_singleton.
    split; [by intros [[-> | Hk] Hnk] | intros Hk; split; [by right | by intros ->]]. }
  rewrite E1. repeat split.
  - done.
  - simpl. rewrite length_app. simpl. lia.
  - subst warn. unfold chunkWarningListener. simpl. fold key.
    by rewrite (bool_decide_eq_true_2 _ Hin).
  - unfold chunkLoadListener. cbv zeta. simpl. fold key.
    by rewrite (bool_decide_eq_true_2 _ Hin).
  - unfold chunkLoadListener. cbv zeta. simpl. fold key.
    rewrite (bool_decide_eq_true_2 _ Hin). simpl.
    rewrite !length_app. simpl. lia.
  - unfold chunkLoadListener. cbv zeta. fold key.
    by rewrite (bool_decide_eq_false_2 _ Hfresh).
Qed.

Lemma chunk_warned_once_until_loaded_witness :
  let warn :=
    chunkWarningListener "KitPvPBot_1_7" (Some (mkPacket 3 (-4) (Some 1%nat)))
      false in
  let t1 := warn (mkChunkTracker ∅ []) in
  chunkKey 3 (-4) ∈ skippedBlockEntityChunks t1 /\
  length (chunk_log t1) = S (length (chunk_log (mkChunkTracker ∅ []))) /\
  warn t1 = t1 /\
  skippedBlockEntityChunks
    (chunkLoadListener "KitPvPBot_1_7" (Some (3, -4)%Z) t1)
    = skippedBlockEntityChunks (mkChunkTracker ∅ []) /\
  length (chunk_log (chunkLoadListener "KitPvPBot_1_7" (Some (3, -4)%Z) t1))
    = S (S (length (chunk_log (mkChunkTracker ∅ [])))) /\
  chunkLoadListener "KitPvPBot_1_7" (Some (3, -4)%Z) (mkChunkTracker ∅ [])
    = mkChunkTracker ∅ [].
Proof.
  apply (chunk_warned_once_until_loaded "KitPvPBot_1_7" 3 (-4) 0
           (mkChunkTracker ∅ [])).
  simpl. apply not_elem_of_empty.
Defined.
